(** * Localized component filtering (LCF): segmentation, classification,
      mixing and reconstruction

    A shallow embedding of [event_creation/submission/cleaning/lcf.py]:
    [run_lcf] (the part that marks excluded periods and splits a recording
    into the pieces an ICA is fitted on), [lcf] and [reconstruct_signal].

    Conventions of the embedding.
    - Sample indices and marker offsets of [run_lcf] are integers ([Z]).
      The sample rate [eeg.info['sfreq']] is a float; it is taken with a
      whole value ([Z]), and the one place where its type shows, the type
      numpy gives to the sorted [offsets], is tracked on its own
      ([offsets_hold_float]).
    - Samples of component activations are exact rationals ([Q]): every
      finite float is a rational, the rounding of each operation is not
      modelled.  Results on [Q] are stated up to [Qeq].
    - A Python exception is a value of [exn]; a computation that may raise
      returns a [result]. *)

From Stdlib Require Import String.
From Stdlib Require Import ZArith List Bool Lia.
From Stdlib Require Import Sorting.Permutation Sorting.Sorted Sorting.Mergesort Orders.
From Stdlib Require Import QArith Qround Qabs Lqa.
Import ListNotations.
Open Scope Z_scope.

(** ** Python values and exceptions *)

Module Py.

(** [NonFinite] is not raised by Python: it marks the point from which the
    arrays hold NaN, so that no rational value describes the result. *)
Inductive exn := IndexError | ValueError | LinAlgError | NonFinite.

Inductive result (A : Type) :=
| Ok (a : A)
| Raise (e : exn).
Arguments Ok {A} a.
Arguments Raise {A} e.

Definition bind {A B} (c : result A) (k : A -> result B) : result B :=
  match c with
  | Ok a => k a
  | Raise e => Raise e
  end.

(** [for x in xs: acc = body(acc, x)], stopping at the first exception. *)
Fixpoint foldM {A S} (body : S -> A -> result S) (xs : list A) (s : S) : result S :=
  match xs with
  | [] => Ok s
  | x :: xs' => bind (body s x) (foldM body xs')
  end.

Fixpoint mapM {A B} (f : A -> result B) (xs : list A) : result (list B) :=
  match xs with
  | [] => Ok []
  | x :: xs' => bind (f x) (fun y => bind (mapM f xs') (fun ys => Ok (y :: ys)))
  end.

(** Integer indexing into a sequence of length [len]: negative indices
    count from the end, anything outside [-len, len) is an [IndexError]. *)
Definition index (len i : Z) : result Z :=
  if (0 <=? i) && (i <? len) then Ok i
  else if (- len <=? i) && (i <? 0) then Ok (i + len)
  else Raise IndexError.

Definition getitem {A} (l : list A) (i : Z) : result A :=
  bind (index (Z.of_nat (length l)) i)
       (fun k => match nth_error l (Z.to_nat k) with
                 | Some x => Ok x
                 | None => Raise IndexError
                 end).

(** [enumerate(xs)] *)
Fixpoint enumerate_from {A} (i : Z) (xs : list A) : list (Z * A) :=
  match xs with
  | [] => []
  | x :: xs' => (i, x) :: enumerate_from (i + 1) xs'
  end.
Definition enumerate {A} (xs : list A) := enumerate_from 0 xs.

End Py.
Import Py.

Notation "x <- c ;; k" := (Py.bind c (fun x => k))
  (at level 61, c at next level, right associativity).

(** [np.sort] on integers. *)
Lemma Zleb_total (x y : Z) : (x <=? y) = true \/ (y <=? x) = true.
Proof. destruct (Z.leb_spec x y); [now left|right]. apply Z.leb_le; lia. Qed.

Module ZOrder <: TotalLeBool.
Definition t := Z.
Definition leb := Z.leb.
Definition leb_total := Zleb_total.
End ZOrder.
Module ZSort := Sort ZOrder.

Definition np_sort (l : list Z) : list Z := ZSort.sort l.

(** ** The segmenter of [run_lcf] *)

Module Segmenter.

(** One row of the events structure: only the two fields [run_lcf] reads. *)
Record event := { type : string; eegoffset : Z }.

Definition is_type (s : string) (ev : event) : bool := String.eqb (type ev) s.

(** [np.where(evs.type == s)[0]] *)
Fixpoint where_from (i : Z) (s : string) (evs : list event) : list Z :=
  match evs with
  | [] => []
  | ev :: evs' =>
      if is_type s ev then i :: where_from (i + 1) s evs'
      else where_from (i + 1) s evs'
  end.
Definition np_where (s : string) (evs : list event) : list Z := where_from 0 s evs.

(** The per-recording quantities [run_lcf] reads off the MNE object. *)
Record recording := { n_times : Z; samp_rate : Z }.

(** Lines 89-97: the periods before and after the session. *)
Definition mark_session (evs : list event) (eeg : recording)
  : result (list Z * list Z * bool) :=
  e0 <- getitem evs 0 ;;
  let '(onsets, offsets, sess_start_in_recording) :=
    if is_type "SESS_START" e0 then ([0], [eegoffset e0], true)
    else ([], [], false) in
  el <- getitem evs (-1) ;;
  if is_type "SESS_END" el
  then Ok (onsets ++ [eegoffset el], offsets ++ [n_times eeg - 1], sess_start_in_recording)
  else Ok (onsets, offsets, sess_start_in_recording).

(** Lines 108-118: one iteration of the loop over [rest_rewet_idx]. *)
Definition rest_step (evs : list event) (eeg : recording) (onsets : list Z)
    (offsets : list Z) (it : Z * Z) : result (list Z) :=
  let '(i, idx) := it in
  o <- (if Z.of_nat (length evs) =? idx + 1
        then Ok (n_times eeg - 1)
        else nx <- getitem evs (idx + 1) ;; Ok (eegoffset nx - 5 * samp_rate eeg)) ;;
  on <- getitem onsets i ;;
  let o := if o <? on then on + 1 else o in
  Ok (offsets ++ [o]).

(** Lines 133-135: one iteration of the loop over [break_start_idx]. *)
Definition pair_step (evs : list event) (break_stop_idx : list Z)
    (st : list Z * list Z) (it : Z * Z) : result (list Z * list Z) :=
  let '(onsets, offsets) := st in
  let '(i, idx) := it in
  bs <- getitem evs idx ;;
  k <- getitem break_stop_idx i ;;
  be <- getitem evs k ;;
  Ok (onsets ++ [eegoffset bs], offsets ++ [eegoffset be]).

(** Lines 87-135: [onsets], [offsets] and [sess_start_in_recording] as they
    stand just before they are sorted. *)
Definition mark_exclusions (evs : list event) (eeg : recording)
  : result (list Z * list Z * bool) :=
  s <- mark_session evs eeg ;;
  let '(onsets, offsets, sess_start_in_recording) := s in
  let rest_rewet_idx := np_where "REST_REWET" evs in
  let break_start_idx := np_where "BREAK_START" (removelast evs) in
  let break_stop_idx := np_where "BREAK_STOP" (tl evs) in
  if 0 <? Z.of_nat (length rest_rewet_idx) then
    (* onsets = evs[rest_rewet_idx].eegoffset *)
    onsets <- mapM (fun idx => ev <- getitem evs idx ;; Ok (eegoffset ev)) rest_rewet_idx ;;
    offsets <- foldM (rest_step evs eeg onsets) (enumerate rest_rewet_idx) offsets ;;
    Ok (onsets, offsets, sess_start_in_recording)
  else if 0 <? Z.of_nat (length break_start_idx) then
    e0 <- getitem evs 0 ;;
    let '(onsets, offsets) :=
      if is_type "BREAK_STOP" e0 then (onsets ++ [0], offsets ++ [eegoffset e0])
      else (onsets, offsets) in
    el <- getitem evs (-1) ;;
    let '(onsets, offsets) :=
      if is_type "BREAK_START" el
      then (onsets ++ [eegoffset el], offsets ++ [n_times eeg - 1])
      else (onsets, offsets) in
    st <- foldM (pair_step evs break_stop_idx) (enumerate break_start_idx) (onsets, offsets) ;;
    Ok (fst st, snd st, sess_start_in_recording)
  else Ok (onsets, offsets, sess_start_in_recording).

(** A position on the time axis as the code holds it: a sample index, or
    the time stamp [eeg.times[k]] of sample [k] (seconds, a float).  Line 153
    starts with the index 0; line 165 stores a time stamp. *)
Inductive cursor :=
| Sample (i : Z)
| Seconds (k : Z).

(** [eeg.times[c]]: the array has [n_times] entries and is indexed by
    integers only; a float index is an [IndexError].  The result is the
    sample whose time stamp is read. *)
Definition times_getitem (eeg : recording) (c : cursor) : result Z :=
  match c with
  | Sample i => index (n_times eeg) i
  | Seconds _ => Raise IndexError
  end.

(** The offset of the marker at position [idx] (0 where there is none). *)
Definition offset_at (evs : list event) (idx : Z) : Z :=
  match nth_error evs (Z.to_nat idx) with
  | Some e => eegoffset e
  | None => 0
  end.

(** The Python type of the end that lines 111-117 record for the break
    opened by the [REST_REWET] marker at position [idx] ([onsets[i]] is the
    offset of that marker, line 107).  [samp_rate] is a float, and so is the
    end computed with it at line 114; the ends set at line 112 and at line
    117 are integers. *)
Definition rest_end_is_float (evs : list event) (eeg : recording) (idx : Z) : bool :=
  if Z.of_nat (length evs) =? idx + 1 then false
  else if offset_at evs (idx + 1) - 5 * samp_rate eeg <? offset_at evs idx then false
  else true.

(** Whether [offsets] holds a float when line 138 is reached.  Only the
    single-marker branch appends one; every other entry of [onsets] and
    [offsets] is an integer (0, [n_times - 1], the offset of a marker). *)
Definition offsets_hold_float (evs : list event) (eeg : recording) : bool :=
  existsb (rest_end_is_float evs eeg) (np_where "REST_REWET" evs).

(** [eeg.times[a]] for a sorted array [a].  [np.sort] gives the type
    float64 to an empty list and to a list that holds a float, and an array
    of floats is no index: [IndexError]. *)
Definition times_take (eeg : recording) (holds_float : bool) (a : list Z)
  : result (list Z) :=
  match a with
  | [] => Raise IndexError
  | _ :: _ =>
      if holds_float then Raise IndexError
      else mapM (fun i => times_getitem eeg (Sample i)) a
  end.

(** Lines 140-145: look up the time stamps and build the [bad_break]
    annotations.  An annotation is kept as the pair of samples whose time
    stamps give its onset and its end ([duration] is their difference).
    Lists of different lengths are refused (by the subtraction, or by
    [mne.Annotations]). *)
Definition annotate (eeg : recording) (onsets offsets : list Z)
    (offsets_float : bool) : result (list (Z * Z)) :=
  onset_times <- times_take eeg false onsets ;;
  offset_times <- times_take eeg offsets_float offsets ;;
  if (length onset_times =? length offset_times)%nat
  then Ok (combine onset_times offset_times)
  else Raise ValueError.

(** One fitted decomposition: the piece of the recording it was fitted on
    (first and last sample, both kept by [crop]) and the
    [reject_by_annotation] argument of [fit], [None] where the call leaves
    it to the library. *)
Record ica_fit := { fit_first : Z; fit_last : Z; reject_by_annotation : option bool }.

Record loop_state := { eeg_list : list (Z * Z); ica_list : list ica_fit; start : cursor }.

(** Lines 154-165: one iteration of the loop over the sorted [offsets]. *)
Definition phase_step (eeg : recording) (sess_start_in_recording : bool)
    (st : loop_state) (it : Z * Z) : result loop_state :=
  let '(i, stop) := it in
  if (i =? 0) && sess_start_in_recording then Ok st
  else
    tmin <- times_getitem eeg (start st) ;;
    tmax <- times_getitem eeg (Sample stop) ;;
    nxt <- times_getitem eeg (Sample (stop + 1)) ;;
    Ok {| eeg_list := eeg_list st ++ [(tmin, tmax)];
          ica_list := ica_list st ++ [{| fit_first := tmin; fit_last := tmax;
                                          reject_by_annotation := Some true |}];
          start := Seconds nxt |}.

(** What the segmentation hands to the LCF stage. *)
Record segmentation := {
  annotations : list (Z * Z);
  phases : list (Z * Z);
  fits : list ica_fit
}.

(** Lines 87-145: the excluded periods as they are annotated, with the
    sorted [offsets] and the flag the splitting loop reads. *)
Definition excluded_periods (evs : list event) (eeg : recording)
  : result (list (Z * Z) * list Z * bool) :=
  m <- mark_exclusions evs eeg ;;
  let '(onsets, offsets, sess_start_in_recording) := m in
  let onsets := np_sort onsets in
  let offsets := np_sort offsets in
  ann <- annotate eeg onsets offsets (offsets_hold_float evs eeg) ;;
  Ok (ann, offsets, sess_start_in_recording).

(** Lines 86-177 of [run_lcf] for one recording. *)
Definition segment (skip_breaks : bool) (evs : list event) (eeg : recording)
  : result segmentation :=
  if skip_breaks then
    x <- excluded_periods evs eeg ;;
    let '(ann, offsets, sess_start_in_recording) := x in
    st <- foldM (phase_step eeg sess_start_in_recording) (enumerate offsets)
            {| eeg_list := []; ica_list := []; start := Sample 0 |} ;;
    Ok {| annotations := ann; phases := eeg_list st; fits := ica_list st |}
  else
    Ok {| annotations := [];
          phases := [(0, n_times eeg - 1)];
          fits := [{| fit_first := 0; fit_last := n_times eeg - 1;
                      reject_by_annotation := None |}] |}.

(** The samples of one piece, first and last included, and of a list of
    pieces put end to end ([mne.concatenate_raws]). *)
Definition piece_samples (p : Z * Z) : list Z :=
  map (fun k => fst p + Z.of_nat k) (seq 0 (Z.to_nat (snd p - fst p + 1))).

Definition concatenated (ps : list (Z * Z)) : list Z := flat_map piece_samples ps.

(** The sample range [[0, total_samples)]. *)
Definition all_samples (eeg : recording) : list Z :=
  map Z.of_nat (seq 0 (Z.to_nat (n_times eeg))).

Definition ev (s : string) (o : Z) : event := {| type := s; eegoffset := o |}.

(** The end of the exclusion opened by the [REST_REWET] marker at position
    [idx], where a break that is the last marker ends at [last_end]. *)
Definition rest_end (last_end : Z) (evs : list event) (eeg : recording) (idx : Z) : Z :=
  let o := if Z.of_nat (length evs) =? idx + 1 then last_end
           else offset_at evs (idx + 1) - 5 * samp_rate eeg in
  if o <? offset_at evs idx then offset_at evs idx + 1 else o.

(** The single-marker rule read on the lists [mark_exclusions] builds: the
    [i]-th [REST_REWET] marker gives the [i]-th onset, and the [i]-th of the
    offsets appended by the loop. *)
Definition single_marker_rule (last_end : Z) (evs : list event) (eeg : recording) : Prop :=
  forall (i : nat) (idx : Z),
    nth_error (np_where "REST_REWET" evs) i = Some idx ->
    exists onsets offsets ss,
      mark_exclusions evs eeg = Ok (onsets, offsets, ss) /\
      nth_error onsets i = Some (offset_at evs idx) /\
      nth_error offsets (length offsets - length onsets + i) =
        Some (rest_end last_end evs eeg idx).

(** A marker sequence that uses both break conventions at once. *)
Definition mixed_conventions (evs : list event) : Prop :=
  (exists e, In e evs /\ is_type "REST_REWET" e = true) /\
  (exists e, In e evs /\ (is_type "BREAK_START" e || is_type "BREAK_STOP" e) = true).

(** A paired-convention marker read as an ordinary event. *)
Definition forget_paired (e : event) : event :=
  if is_type "BREAK_START" e || is_type "BREAK_STOP" e
  then {| type := "WORD"; eegoffset := eegoffset e |}
  else e.

(** What lines 89-97 leave in [onsets], [offsets] and the flag. *)
Definition session_marks (e0 el : event) (eeg : recording) : list Z * list Z * bool :=
  let '(onsets, offsets, ss) :=
    if is_type "SESS_START" e0 then ([0], [eegoffset e0], true) else ([], [], false) in
  if is_type "SESS_END" el
  then (onsets ++ [eegoffset el], offsets ++ [n_times eeg - 1], ss)
  else (onsets, offsets, ss).

(** What lines 124-131 add to [onsets] and [offsets] when the recording
    starts or ends inside a break. *)
Definition open_break_marks (e0 el : event) (eeg : recording) : list Z * list Z :=
  let '(onsets, offsets) :=
    if is_type "BREAK_STOP" e0 then ([0], [eegoffset e0]) else ([], []) in
  if is_type "BREAK_START" el
  then (onsets ++ [eegoffset el], offsets ++ [n_times eeg - 1])
  else (onsets, offsets).

(** Markers in time order, inside the recording, and with a stop marker for
    every start marker the loop of lines 133-135 looks up. *)
Definition chronological (evs : list event) : Prop :=
  StronglySorted (fun a b => eegoffset a <= eegoffset b) evs.
Definition in_recording (eeg : recording) (evs : list event) : Prop :=
  Forall (fun e => 0 <= eegoffset e <= n_times eeg - 1) evs.
Definition stops_cover_starts (evs : list event) : Prop :=
  (length (np_where "BREAK_START" (removelast evs))
     <= length (np_where "BREAK_STOP" (tl evs)))%nat.

Definition rec10000 : recording := {| n_times := 10000; samp_rate := 256 |}.

(** The trailing exclusion as the specification words it: from the offset
    of a closing [SESS_END] marker to [total_samples]. *)
Definition trailing_exclusion_to_total_samples (evs : list event) (eeg : recording) : Prop :=
  forall e0 el, hd_error evs = Some e0 -> last evs e0 = el ->
    is_type "SESS_END" el = true ->
    exists ann offsets ss,
      excluded_periods evs eeg = Ok (ann, offsets, ss) /\
      In (eegoffset el, n_times eeg) ann.

Definition mixed_markers : list event :=
  [ev "BREAK_START" 1000; ev "BREAK_STOP" 2000; ev "REST_REWET" 3000; ev "WORD" 3100].

(** Failing fast as the specification words it: a mixed sequence makes the
    segmenter raise. *)
Definition fails_fast (evs : list event) (eeg : recording) : Prop :=
  mixed_conventions evs -> exists e, segment true evs eeg = Raise e.

(** The values the paired-marker branch may append to [onsets] and to
    [offsets]. *)
Definition marks_start (evs : list event) (y : Z) : Prop :=
  y = 0 \/ exists e, In e evs /\ y = eegoffset e.
Definition marks_end (evs : list event) (eeg : recording) (y : Z) : Prop :=
  y = n_times eeg - 1 \/ exists e, In e evs /\ y = eegoffset e.

End Segmenter.

(** ** Arrays of rationals: the numpy operations [lcf] uses *)

Module Np.
Local Open Scope Q_scope.

Definition matrix := list (list Q).

Definition Qltb (x y : Q) : bool := negb (Qle_bool y x).

(** Python's [int(x)]: truncation toward zero. *)
Definition int (x : Q) : Z := Z.quot (Qnum x) (Z.pos (Qden x)).

Definition sum (l : list Q) : Q := fold_right Qplus 0 l.

Lemma Qle_bool_total (x y : Q) : Qle_bool x y = true \/ Qle_bool y x = true.
Proof.
  destruct (Qlt_le_dec x y) as [H|H].
  - left. apply Qle_bool_iff. now apply Qlt_le_weak.
  - right. now apply Qle_bool_iff.
Qed.

Module QOrder <: TotalLeBool.
Definition t := Q.
Definition leb := Qle_bool.
Definition leb_total := Qle_bool_total.
End QOrder.
Module QSort := Sort QOrder.

(** [np.percentile(row, q)] with linear interpolation between the two
    closest ranks of the sorted row.  (Of an empty row the embedding gives 0;
    [lcf] raises on such a row at its first convolution.) *)
Definition percentile (row : list Q) (q : Z) : Q :=
  let ap := QSort.sort row in
  let Nx := Z.of_nat (length ap) in
  let indices := (inject_Z q / 100) * inject_Z (Nx - 1) in
  let indices_below := Qfloor indices in
  let indices_above := Z.min (indices_below + 1) (Nx - 1) in
  let weights_above := indices - inject_Z indices_below in
  let weights_below := 1 - weights_above in
  nth (Z.to_nat indices_below) ap 0 * weights_below
  + nth (Z.to_nat indices_above) ap 0 * weights_above.

(** [np.ones(n)] *)
Definition ones (n : Z) : result (list Q) :=
  if (n <? 0)%Z then Raise ValueError else Ok (repeat 1 (Z.to_nat n)).

(** Entry [t] of a row, zero outside it. *)
Definition zget (a : list Q) (t : Z) : Q :=
  if (t <? 0)%Z then 0 else nth (Z.to_nat t) a 0.

(** Entry [t] of the full discrete convolution of [a] and [v]:
    the sum over [j] of [v[j] * a[t - j]]. *)
Fixpoint conv_at (a v : list Q) (t : Z) : Q :=
  match v with
  | [] => 0
  | w :: v' => w * zget a t + conv_at a v' (t - 1)
  end.

(** [np.convolve(a, v, 'same')]: the middle [max(len a, len v)] entries of
    the full convolution; empty arguments are refused. *)
Definition convolve_same (a v : list Q) : result (list Q) :=
  match a, v with
  | [], _ | _, [] => Raise ValueError
  | _, _ =>
      let n := Nat.max (length a) (length v) in
      let m := Nat.min (length a) (length v) in
      Ok (map (fun k => conv_at a v (Z.of_nat k + Z.of_nat ((m - 1) / 2))) (seq 0 n))
  end.

(** [target[i, :] = r] for a row of length [n]. *)
Definition assign_row (n : nat) (r : list Q) : result (list Q) :=
  if (length r =? n)%nat || (length r =? 1)%nat
  then Ok (if (length r =? n)%nat then r else repeat (hd 0 r) n)
  else Raise ValueError.

(** [np.pad(row, (p, p), mode='edge')] *)
Definition pad_edge (p : Z) (row : list Q) : result (list Q) :=
  if (p <? 0)%Z then Raise ValueError
  else match row with
       | [] => if (p =? 0)%Z then Ok [] else Raise ValueError
       | x :: _ => Ok (repeat x (Z.to_nat p) ++ row ++ repeat (last row 0) (Z.to_nat p))
       end.

(** [row[a:b]] with Python's reading of negative and out-of-range bounds. *)
Definition slice {A} (l : list A) (a b : Z) : list A :=
  let n := Z.of_nat (length l) in
  let clip i := Z.max 0 (Z.min n (if (i <? 0)%Z then i + n else i)) in
  firstn (Z.to_nat (clip b - clip a)) (skipn (Z.to_nat (clip a)) l).

(** Broadcasting of one axis: equal lengths pair up, a length of one is
    repeated, anything else is refused. *)
Definition broadcast {A B C} (f : A -> B -> result C) (xs : list A) (ys : list B)
  : result (list C) :=
  if (length xs =? length ys)%nat then mapM (fun xy => f (fst xy) (snd xy)) (combine xs ys)
  else match xs, ys with
       | [x], _ => mapM (f x) ys
       | _, [y] => mapM (fun x => f x y) xs
       | _, _ => Raise ValueError
       end.

(** [S * C] on two-dimensional arrays. *)
Definition multiply (S C : matrix) : result matrix :=
  broadcast (broadcast (fun s c => Ok (s * c))) S C.

End Np.

(** ** [lcf]: classification and mixing *)

Module Lcf.
Import Np.
Local Open Scope Q_scope.

(** Lines 226-238: the thresholds of one component and its mask of
    samples marked artifactual. *)
Definition pos_thresh (iqr_thresh : Q) (row : list Q) : Q :=
  let p75 := percentile row 75 in
  let p25 := percentile row 25 in
  let iqr := p75 - p25 in
  p75 + iqr * iqr_thresh.

Definition neg_thresh (iqr_thresh : Q) (row : list Q) : Q :=
  let p75 := percentile row 75 in
  let p25 := percentile row 25 in
  let iqr := p75 - p25 in
  p25 - iqr * iqr_thresh.

Definition classify_row (iqr_thresh : Q) (row : list Q) : list bool :=
  map (fun x => Qltb (pos_thresh iqr_thresh row) x || Qltb x (neg_thresh iqr_thresh row)) row.

Definition classify (iqr_thresh : Q) (feat : matrix) : list (list bool) :=
  map (classify_row iqr_thresh) feat.

(** A boolean stored into a float array. *)
Definition as_float (b : bool) : Q := if b then 1 else 0.

Section Mixing.

(** [scipy.signal.hann(M, True)], the symmetric Hann window of [M] points:
    the one function [lcf] takes from outside that the embedding leaves open. *)
Variable hann : Z -> list Q.

(** Lines 252-253: [trans_win /= trans_win.sum()]; dividing the window by
    a zero sum fills it with NaN. *)
Definition normalized_window (transition_width : Z) : option (list Q) :=
  let trans_win := hann transition_width in
  match trans_win with
  | [] => Some []
  | _ => if Qeq_bool (sum trans_win) 0 then None
         else Some (map (fun w => w / sum trans_win) trans_win)
  end.

(** Lines 235-243: dilation of one mask row and its binarization. *)
Definition dilate_row (dilator : list Q) (mask : list bool) : result (list Q) :=
  r <- convolve_same (map as_float mask) dilator ;;
  r <- assign_row (length mask) r ;;
  Ok (map (fun x => as_float (Qltb 0 x)) r).

(** Lines 263-264: smoothing of one padded row. *)
Definition smooth_row (trans_win : option (list Q)) (row : list Q) : result (list Q) :=
  match trans_win with
  | None => Raise NonFinite
  | Some w =>
      r <- convolve_same row w ;;
      assign_row (length row) r
  end.

(** Lines 235-271: the control signal built from the mask, widths in
    samples.  [pad_size] is [int(transition_width / 2 + 1)]; Python 2 and 3
    agree on it for every width that is not negative. *)
Definition build_control (mask : list (list bool)) (dilator_width transition_width : Z)
  : result matrix :=
  dilator <- ones dilator_width ;;
  ctrl_signal <- mapM (dilate_row dilator) mask ;;
  let trans_win := normalized_window transition_width in
  let pad_size := int (inject_Z transition_width / 2 + 1) in
  ctrl_signal <- mapM (pad_edge pad_size) ctrl_signal ;;
  ctrl_signal <- mapM (smooth_row trans_win) ctrl_signal ;;
  (* ctrl_signal[:, pad_size:-pad_size] *)
  Ok (map (fun row => slice row pad_size (- pad_size)) ctrl_signal).

(** Line 274: [S * (1 - ctrl_signal)] *)
Definition mix (S ctrl_signal : matrix) : result matrix :=
  multiply S (map (map (fun c => 1 - c)) ctrl_signal).

(** [lcf(S, feat, sfreq, iqr_thresh, dilator_width, transition_width)] *)
Definition lcf (S feat : matrix) (sfreq iqr_thresh dilator_width transition_width : Q)
  : result matrix :=
  let dilator_width := int (dilator_width * sfreq) in
  let transition_width := int (transition_width * sfreq) in
  ctrl_signal <- build_control (classify iqr_thresh feat) dilator_width transition_width ;;
  mix S ctrl_signal.

End Mixing.

(** The symmetric Hann window [0.5 - 0.5 cos(2 pi n / (M - 1))] at the
    widths where all of its values are rational ([ones] below two points);
    left empty at the other widths, which no statement below uses. *)
Definition hann_rational (M : Z) : list Q :=
  match M with
  | 1%Z => [1]
  | 2%Z => [0; 0]
  | 3%Z => [0; 1; 0]
  | 4%Z => [0; 3 # 4; 3 # 4; 0]
  | 5%Z => [0; 1 # 2; 1; 1 # 2; 0]
  | 7%Z => [0; 1 # 4; 3 # 4; 1; 3 # 4; 1 # 4; 0]
  | _ => []
  end.


Definition spike_row : list Q :=
  [1; 2; 1; 2; 1; 2; 1; 2; 1; 2; 100; 1; 2; 1; 2; 1; 2; 1; 2; 1; 2; 1; 2; 1].

Definition flat_row : list Q := [2; 2; 2; 2; 2; 2; 2; 2].

Definition some_sources : list Q := [3; 1; 4; 1; 5; 9; 2; 6].


End Lcf.

(** ** [reconstruct_signal] *)

Module Reconstructor.
Import Np.
Local Open Scope Q_scope.

(** The fields of the fitted ICA object that [reconstruct_signal] reads.
    [pre_whitener_] is a column: one row of one factor per channel. *)
Record ica := {
  mixing_matrix_ : matrix;
  pca_components_ : matrix;
  pca_mean_ : list Q;
  pre_whitener_ : matrix
}.

Definition column (t : nat) (B : matrix) : list Q := map (fun r => nth t r 0) B.

Definition inner (u v : list Q) : Q :=
  sum (map (fun ab => fst ab * snd ab) (combine u v)).

(** [np.dot(A, B)] on two-dimensional arrays: every row of [A] must be as
    long as [B] has rows. *)
Definition dot (A B : matrix) : result matrix :=
  let width := length (hd [] B) in
  if forallb (fun r => (length r =? length B)%nat) A
     && forallb (fun r => (length r =? width)%nat) B
  then Ok (map (fun ra => map (fun t => inner ra (column t B)) (seq 0 width)) A)
  else Raise ValueError.

(** An in-place operation [data op= b]: [b] is broadcast to the shape of
    [data], which itself never changes shape. *)
Definition broadcast_to {A} (n : nat) (b : list A) : result (list A) :=
  if (length b =? n)%nat then Ok b
  else match b with
       | [x] => Ok (repeat x n)
       | _ => Raise ValueError
       end.

Definition in_place (f : Q -> Q -> Q) (data b : matrix) : result matrix :=
  b <- broadcast_to (length data) b ;;
  mapM (fun rb => r <- broadcast_to (length (fst rb)) (snd rb) ;;
                  Ok (map (fun xy => f (fst xy) (snd xy)) (combine (fst rb) r)))
       (combine data b).

Section Reconstruct.

(** [np.linalg.inv]: raises [LinAlgError] on a matrix it cannot invert. *)
Variable inv : matrix -> result matrix.

Definition reconstruct_signal (sources : matrix) (ica : ica) : result matrix :=
  data <- dot (mixing_matrix_ ica) sources ;;
  w <- inv (pca_components_ ica) ;;
  data <- dot w data ;;
  (* data += ica.pca_mean_[:, None] *)
  data <- in_place Qplus data (map (fun m => [m]) (pca_mean_ ica)) ;;
  (* data *= ica.pre_whitener_ *)
  in_place Qmult data (pre_whitener_ ica).

End Reconstruct.

(** The four steps in the words of the specification, entry by entry:
    un-mix, un-whiten, add the channel mean, scale by the channel factor. *)
Definition entry (M : matrix) (r c : nat) : Q := nth c (nth r M []) 0.

Definition product_entry (A B : matrix) (inner_dim : nat) (r c : nat) : Q :=
  sum (map (fun j => entry A r j * entry B j c) (seq 0 inner_dim)).

Definition reconstructed_entry (ica : ica) (unwhiten sources : matrix)
    (components : nat) (ch t : nat) : Q :=
  let unmixed j := product_entry (mixing_matrix_ ica) sources components j t in
  let unwhitened := sum (map (fun j => entry unwhiten ch j * unmixed j) (seq 0 components)) in
  (unwhitened + nth ch (pca_mean_ ica) 0) * entry (pre_whitener_ ica) ch 0.

(** [data op= v[:, None]]: every entry of row [r] meets [v[r]]. *)
Definition with_column (f : Q -> Q -> Q) (data : matrix) (v : list Q) : matrix :=
  map (fun rv => map (fun x => f x (snd rv)) (fst rv)) (combine data v).

(** The inverse of a two-by-two matrix, for the concrete run below. *)
Definition inv2 (M : matrix) : result matrix :=
  match M with
  | [[a; b]; [c; d]] =>
      let det := a * d - b * c in
      if Qeq_bool det 0 then Raise LinAlgError
      else Ok [[d / det; - b / det]; [- c / det; a / det]]
  | _ => Raise LinAlgError
  end.

Definition ica2 : ica :=
  {| mixing_matrix_ := [[1; 2]; [3; 4]];
     pca_components_ := [[2; 0]; [0; 4]];
     pca_mean_ := [10; 20];
     pre_whitener_ := [[3]; [5]] |}.

Definition sources2 : matrix := [[1; 0; 2]; [0; 1; 1]].

End Reconstructor.

(** ** Facts about the segmenter *)

Module SegmenterFacts.
Import Segmenter.

Lemma index_in_range (len i : Z) : 0 <= i < len -> index len i = Ok i.
Proof.
  intros H. unfold index.
  replace (0 <=? i) with true by (symmetry; apply Z.leb_le; lia).
  replace (i <? len) with true by (symmetry; apply Z.ltb_lt; lia).
  reflexivity.
Qed.

Lemma getitem_nth {A} (l : list A) (i : Z) (x : A) :
  0 <= i -> nth_error l (Z.to_nat i) = Some x -> getitem l i = Ok x.
Proof.
  intros Hi Hn. unfold getitem.
  assert (Z.to_nat i < length l)%nat by (apply nth_error_Some; congruence).
  rewrite index_in_range by lia. simpl. now rewrite Hn.
Qed.

Lemma index_from_end (len i : Z) : - len <= i < 0 -> index len i = Ok (i + len).
Proof.
  intros H. unfold index.
  destruct (Z.leb_spec 0 i); [lia|].
  destruct (Z.leb_spec (- len) i); [|lia].
  destruct (Z.ltb_spec i 0); [|lia]. reflexivity.
Qed.

Lemma getitem_last {A} (l : list A) (x : A) : getitem (l ++ [x]) (-1) = Ok x.
Proof.
  unfold getitem. rewrite index_from_end by (rewrite length_app; cbn [length]; lia).
  unfold bind.
  replace (Z.to_nat (-1 + Z.of_nat (length (l ++ [x])))) with (length l)
    by (rewrite length_app; cbn [length]; lia).
  rewrite nth_error_app2 by lia. now rewrite Nat.sub_diag.
Qed.

Lemma where_from_spec (s : string) (evs : list event) :
  forall (i idx : Z), In idx (where_from i s evs) ->
    i <= idx < i + Z.of_nat (length evs) /\
    exists e, nth_error evs (Z.to_nat (idx - i)) = Some e /\ is_type s e = true.
Proof.
  induction evs as [|e evs IH]; intros i idx Hin; simpl in Hin; [contradiction|].
  assert (Hrec : In idx (where_from (i + 1) s evs) ->
                 i <= idx < i + Z.of_nat (length (e :: evs)) /\
                 exists e', nth_error (e :: evs) (Z.to_nat (idx - i)) = Some e' /\ is_type s e' = true).
  { intros H. destruct (IH _ _ H) as [Hb [e' [Hn Ht]]]. simpl length. split; [lia|].
    exists e'. split; [|exact Ht].
    replace (Z.to_nat (idx - i)) with (S (Z.to_nat (idx - (i + 1)))) by lia. exact Hn. }
  destruct (is_type s e) eqn:Ht.
  - destruct Hin as [<-|Hin]; [|now apply Hrec].
    simpl length. split; [lia|]. exists e. rewrite Z.sub_diag. now split.
  - now apply Hrec.
Qed.

Lemma np_where_spec (s : string) (evs : list event) (idx : Z) :
  In idx (np_where s evs) ->
  0 <= idx < Z.of_nat (length evs) /\
  exists e, nth_error evs (Z.to_nat idx) = Some e /\ is_type s e = true.
Proof.
  intros H. apply where_from_spec in H. rewrite Z.sub_0_r in H. exact H.
Qed.

Lemma getitem_offset_at (evs : list event) (idx : Z) :
  0 <= idx < Z.of_nat (length evs) ->
  (ev <- getitem evs idx ;; Ok (eegoffset ev)) = Ok (offset_at evs idx).
Proof.
  intros H. unfold offset_at.
  destruct (nth_error evs (Z.to_nat idx)) as [e|] eqn:Hn.
  - rewrite (getitem_nth _ _ e) by (lia || assumption). reflexivity.
  - apply nth_error_None in Hn. lia.
Qed.

Lemma mapM_map {A B} (f : A -> result B) (g : A -> B) (xs : list A) :
  (forall x, In x xs -> f x = Ok (g x)) -> mapM f xs = Ok (map g xs).
Proof.
  induction xs as [|x xs IH]; intros H; simpl; [reflexivity|].
  rewrite H by now left. simpl. rewrite IH by (intros; apply H; now right). reflexivity.
Qed.

(** One pass of the loop over [rest_rewet_idx]. *)
Lemma rest_step_ok (evs : list event) (eeg : recording) (onsets acc : list Z) (k idx : Z) :
  0 <= k ->
  nth_error onsets (Z.to_nat k) = Some (offset_at evs idx) ->
  0 <= idx < Z.of_nat (length evs) ->
  rest_step evs eeg onsets acc (k, idx)
  = Ok (acc ++ [rest_end (n_times eeg - 1) evs eeg idx]).
Proof.
  intros Hk Hon Hidx. unfold rest_step, rest_end.
  destruct (Z.eqb_spec (Z.of_nat (length evs)) (idx + 1)) as [Hl|Hl]; cbn [bind].
  - now rewrite (getitem_nth onsets k _ Hk Hon).
  - pose proof (getitem_offset_at evs (idx + 1) ltac:(lia)) as Hg.
    destruct (getitem evs (idx + 1)) as [nx|]; cbn [bind] in Hg |- *; [|discriminate].
    injection Hg as Hg. rewrite (getitem_nth onsets k _ Hk Hon). cbn [bind].
    now rewrite Hg.
Qed.

(** The loop over [rest_rewet_idx] appends one offset per marker. *)
Lemma foldM_rest_step (evs : list event) (eeg : recording) (onsets : list Z) :
  forall (idxs : list Z) (k : Z) (acc : list Z),
    0 <= k ->
    (forall (j : nat) idx, nth_error idxs j = Some idx ->
       nth_error onsets (Z.to_nat k + j) = Some (offset_at evs idx) /\
       0 <= idx < Z.of_nat (length evs)) ->
    foldM (rest_step evs eeg onsets) (enumerate_from k idxs) acc =
    Ok (acc ++ map (rest_end (n_times eeg - 1) evs eeg) idxs).
Proof.
  induction idxs as [|idx idxs IH]; intros k acc Hk H; cbn [enumerate_from foldM map].
  - now rewrite app_nil_r.
  - destruct (H 0%nat idx eq_refl) as [Hon Hidx]. rewrite Nat.add_0_r in Hon.
    rewrite rest_step_ok by assumption. cbn [bind].
    rewrite IH; [now rewrite <- app_assoc|lia|].
    intros j idx' Hj. specialize (H (S j) idx' Hj).
    replace (Z.to_nat (k + 1) + j)%nat with (Z.to_nat k + S j)%nat by lia. exact H.
Qed.

Lemma getitem_first_last (e0 : event) (rest : list event) :
  getitem (e0 :: rest) 0 = Ok e0 /\ getitem (e0 :: rest) (-1) = Ok (last (e0 :: rest) e0).
Proof.
  split.
  - now apply getitem_nth.
  - assert (Hne : e0 :: rest <> []) by discriminate.
    rewrite (app_removelast_last e0 Hne) at 1. apply getitem_last.
Qed.

Lemma mark_session_ok (e0 : event) (rest : list event) (eeg : recording) :
  mark_session (e0 :: rest) eeg = Ok (session_marks e0 (last (e0 :: rest) e0) eeg).
Proof.
  unfold mark_session, session_marks.
  destruct (getitem_first_last e0 rest) as [-> ->]. cbn [bind].
  destruct (is_type "SESS_START" e0); cbn [bind];
    destruct (is_type "SESS_END" (last (e0 :: rest) e0)); reflexivity.
Qed.

(** The single-marker branch in closed form. *)
Lemma mark_exclusions_rest (e0 : event) (rest : list event) (eeg : recording) :
  let evs := e0 :: rest in
  np_where "REST_REWET" evs <> [] ->
  mark_exclusions evs eeg =
  let '(_, offsets, ss) := session_marks e0 (last evs e0) eeg in
  Ok (map (offset_at evs) (np_where "REST_REWET" evs),
      offsets ++ map (rest_end (n_times eeg - 1) evs eeg) (np_where "REST_REWET" evs),
      ss).
Proof.
  intros evs Hne. unfold mark_exclusions. fold evs.
  unfold evs at 1. rewrite mark_session_ok. fold evs. cbn [bind].
  destruct (session_marks e0 (last evs e0) eeg) as [[on0 off0] ss].
  destruct (np_where "REST_REWET" evs) as [|r rs] eqn:Hr; [congruence|].
  replace (0 <? Z.of_nat (length (r :: rs))) with true
    by (symmetry; apply Z.ltb_lt; simpl length; lia).
  rewrite (mapM_map _ (offset_at evs)).
  2:{ intros idx Hin. apply getitem_offset_at.
      rewrite <- Hr in Hin. now apply np_where_spec in Hin. }
  cbn [bind]. unfold enumerate.
  rewrite foldM_rest_step; [reflexivity|lia|].
  intros j idx Hj. split.
  - change (Z.to_nat 0 + j)%nat with j. now apply map_nth_error.
  - apply nth_error_In in Hj. rewrite <- Hr in Hj. now apply np_where_spec in Hj.
Qed.

Lemma where_from_nonempty (s : string) (evs : list event) (e : event) :
  In e evs -> is_type s e = true -> forall i, where_from i s evs <> [].
Proof.
  induction evs as [|a evs IH]; intros Hin Ht i; [contradiction|].
  simpl. destruct (is_type s a) eqn:Ha; [discriminate|].
  destruct Hin as [->|Hin]; [congruence|]. now apply IH.
Qed.

Lemma forget_paired_offset (e : event) : eegoffset (forget_paired e) = eegoffset e.
Proof. unfold forget_paired. now destruct (_ || _). Qed.

Lemma forget_paired_type (s : string) (e : event) :
  String.eqb "BREAK_START" s = false ->
  String.eqb "BREAK_STOP" s = false ->
  String.eqb "WORD" s = false ->
  is_type s (forget_paired e) = is_type s e.
Proof.
  intros H1 H2 H3. unfold forget_paired.
  destruct (is_type "BREAK_START" e) eqn:Ea; cbn [orb].
  - unfold is_type in *. apply String.eqb_eq in Ea. cbn [type]. now rewrite Ea, H1, H3.
  - destruct (is_type "BREAK_STOP" e) eqn:Eb; [|reflexivity].
    unfold is_type in *. apply String.eqb_eq in Eb. cbn [type]. now rewrite Eb, H2, H3.
Qed.

Lemma where_from_forget (s : string) (evs : list event) :
  String.eqb "BREAK_START" s = false ->
  String.eqb "BREAK_STOP" s = false ->
  String.eqb "WORD" s = false ->
  forall i, where_from i s (map forget_paired evs) = where_from i s evs.
Proof.
  intros H1 H2 H3. induction evs as [|e evs IH]; intros i; simpl; [reflexivity|].
  rewrite forget_paired_type by assumption. now rewrite !IH.
Qed.

Lemma offset_at_forget (evs : list event) (idx : Z) :
  offset_at (map forget_paired evs) idx = offset_at evs idx.
Proof.
  unfold offset_at. rewrite nth_error_map.
  destruct (nth_error evs (Z.to_nat idx)); simpl; [apply forget_paired_offset|reflexivity].
Qed.

Lemma rest_end_forget (last_end : Z) (evs : list event) (eeg : recording) (idx : Z) :
  rest_end last_end (map forget_paired evs) eeg idx = rest_end last_end evs eeg idx.
Proof. unfold rest_end. now rewrite length_map, !offset_at_forget. Qed.

Lemma last_forget (evs : list event) (d : event) :
  last (map forget_paired evs) (forget_paired d) = forget_paired (last evs d).
Proof.
  induction evs as [|e evs IH]; [reflexivity|].
  destruct evs; [reflexivity|]. exact IH.
Qed.

Lemma session_marks_forget (e0 el : event) (eeg : recording) :
  session_marks (forget_paired e0) (forget_paired el) eeg = session_marks e0 el eeg.
Proof.
  unfold session_marks.
  now rewrite !forget_paired_type, !forget_paired_offset by reflexivity.
Qed.

Lemma existsb_pointwise {A} (f g : A -> bool) (l : list A) :
  (forall x, f x = g x) -> existsb f l = existsb g l.
Proof. intros H. induction l as [|x l IH]; simpl; [reflexivity|now rewrite H, IH]. Qed.

Lemma offsets_hold_float_forget (evs : list event) (eeg : recording) :
  offsets_hold_float (map forget_paired evs) eeg = offsets_hold_float evs eeg.
Proof.
  unfold offsets_hold_float, np_where. rewrite where_from_forget by reflexivity.
  apply existsb_pointwise. intros idx. unfold rest_end_is_float.
  now rewrite length_map, !offset_at_forget.
Qed.

(** With a [REST_REWET] marker present the paired markers play no part. *)
Lemma mark_exclusions_forget (evs : list event) (eeg : recording) :
  np_where "REST_REWET" evs <> [] ->
  mark_exclusions (map forget_paired evs) eeg = mark_exclusions evs eeg.
Proof.
  destruct evs as [|e0 rest]; [now intros []|]. intros Hne.
  rewrite (mark_exclusions_rest e0 rest eeg Hne).
  change (map forget_paired (e0 :: rest))
    with (forget_paired e0 :: map forget_paired rest).
  rewrite mark_exclusions_rest;
    change (forget_paired e0 :: map forget_paired rest)
      with (map forget_paired (e0 :: rest)).
  - unfold np_where. rewrite where_from_forget by reflexivity.
    rewrite last_forget, session_marks_forget.
    destruct (session_marks e0 (last (e0 :: rest) e0) eeg) as [[on0 off0] ss].
    f_equal. f_equal. f_equal.
    + apply map_ext. intros; apply offset_at_forget.
    + f_equal. apply map_ext. intros; apply rest_end_forget.
  - unfold np_where. now rewrite where_from_forget by reflexivity.
Qed.

(** *** Sorting *)

Lemma np_sort_perm (l : list Z) : Permutation l (np_sort l).
Proof. apply ZSort.Permuted_sort. Qed.

Lemma np_sort_sorted (l : list Z) : StronglySorted Z.le (np_sort l).
Proof.
  assert (H : StronglySorted (fun x y => is_true (ZOrder.leb x y)) (np_sort l)).
  { apply ZSort.StronglySorted_sort. intros x y z Hxy Hyz.
    unfold ZOrder.leb, is_true in *. rewrite Z.leb_le in *. lia. }
  induction H as [|a t Hs IH Hf]; constructor; [exact IH|].
  eapply Forall_impl; [|exact Hf]. intros y Hy. now apply Z.leb_le.
Qed.

Lemma sorted_snoc_last {A} (R : A -> A -> Prop) (a : list A) (m : A) :
  StronglySorted R (a ++ [m]) -> forall y, In y a -> R y m.
Proof.
  induction a as [|h a IH]; intros Hs y Hin; [contradiction|].
  simpl in Hs. apply StronglySorted_inv in Hs. destruct Hs as [Hs Hf].
  destruct Hin as [->|Hin]; [|now apply IH].
  rewrite Forall_forall in Hf. apply Hf. apply in_or_app. right. now left.
Qed.

Lemma np_sort_min (l : list Z) (x : Z) :
  In x l -> (forall y, In y l -> x <= y) -> nth_error (np_sort l) 0 = Some x.
Proof.
  intros Hin Hmin. pose proof (np_sort_perm l) as Hp. pose proof (np_sort_sorted l) as Hs.
  destruct (np_sort l) as [|h t].
  - apply Permutation_sym, Permutation_nil in Hp. subst. contradiction.
  - simpl. f_equal.
    assert (x <= h) by (apply Hmin; eapply Permutation_in; [apply Permutation_sym, Hp|now left]).
    apply StronglySorted_inv in Hs. destruct Hs as [_ Hf]. rewrite Forall_forall in Hf.
    destruct (Permutation_in _ Hp Hin) as [Heq|Ht]; [exact Heq|].
    specialize (Hf _ Ht). lia.
Qed.

Lemma np_sort_max (l : list Z) (x : Z) :
  In x l -> (forall y, In y l -> y <= x) ->
  nth_error (np_sort l) (length l - 1) = Some x.
Proof.
  intros Hin Hmax. pose proof (np_sort_perm l) as Hp. pose proof (np_sort_sorted l) as Hs.
  rewrite (Permutation_length Hp).
  destruct (np_sort l) as [|h t] eqn:E.
  - apply Permutation_sym, Permutation_nil in Hp. subst. contradiction.
  - assert (Hne : h :: t <> []) by discriminate.
    rewrite (app_removelast_last 0 Hne) in Hs |- *.
    set (a := removelast (h :: t)) in *. set (m := last (h :: t) 0) in *.
    rewrite length_app. cbn [length].
    replace (length a + 1 - 1)%nat with (length a) by lia.
    rewrite nth_error_app2, Nat.sub_diag by lia. simpl. f_equal.
    assert (Hm : In m l).
    { eapply Permutation_in; [apply Permutation_sym, Hp|].
      rewrite (app_removelast_last 0 Hne). apply in_or_app. right. now left. }
    assert (m <= x) by now apply Hmax.
    assert (Hx : In x (a ++ [m])).
    { unfold a, m. rewrite <- (app_removelast_last 0 Hne). now apply (Permutation_in _ Hp). }
    apply in_app_or in Hx. destruct Hx as [Hx|[Hx|[]]]; [|exact Hx].
    pose proof (sorted_snoc_last Z.le a m Hs x Hx). lia.
Qed.

Lemma in_combine_nth {A B} (a : list A) (b : list B) (k : nat) (x : A) (y : B) :
  nth_error a k = Some x -> nth_error b k = Some y -> In (x, y) (combine a b).
Proof.
  revert b k. induction a as [|h a IH]; intros [|g b] [|k] Ha Hb; simpl in *; try discriminate.
  - left. congruence.
  - right. eauto.
Qed.

(** *** Annotating *)

Lemma times_take_in_range (eeg : recording) (l : list Z) :
  Forall (fun i => 0 <= i <= n_times eeg - 1) l ->
  mapM (fun i => times_getitem eeg (Sample i)) l = Ok l.
Proof.
  intros H. rewrite (mapM_map _ (fun i => i)); [now rewrite map_id|].
  intros i Hi. rewrite Forall_forall in H. specialize (H i Hi).
  simpl. apply index_in_range. lia.
Qed.

Lemma times_take_integers (eeg : recording) (l : list Z) :
  l <> [] -> Forall (fun i => 0 <= i <= n_times eeg - 1) l ->
  times_take eeg false l = Ok l.
Proof.
  intros Hne H. unfold times_take. destruct l as [|x l]; [congruence|].
  now apply times_take_in_range.
Qed.

Lemma annotate_in_range (eeg : recording) (onsets offsets : list Z) :
  onsets <> [] ->
  Forall (fun i => 0 <= i <= n_times eeg - 1) onsets ->
  Forall (fun i => 0 <= i <= n_times eeg - 1) offsets ->
  length onsets = length offsets ->
  annotate eeg onsets offsets false = Ok (combine onsets offsets).
Proof.
  intros Hne Ha Hb Hl. unfold annotate.
  assert (Hne' : offsets <> []) by (destruct onsets, offsets; simpl in Hl; congruence).
  rewrite !times_take_integers by assumption. cbn [bind].
  rewrite Hl, Nat.eqb_refl. reflexivity.
Qed.

Lemma mapM_length {A B} (f : A -> result B) (xs : list A) (ys : list B) :
  mapM f xs = Ok ys -> length ys = length xs.
Proof.
  revert ys. induction xs as [|x xs IH]; intros ys H; simpl in H.
  - now injection H as <-.
  - destruct (f x) as [y|]; cbn [bind] in H; [|discriminate].
    destruct (mapM f xs) as [ys'|]; cbn [bind] in H; [|discriminate].
    injection H as <-. simpl. now rewrite (IH ys' eq_refl).
Qed.

Lemma times_take_raises (eeg : recording) (floats : bool) (l : list Z) (r : exn) :
  times_take eeg floats l = Raise r -> r = IndexError.
Proof.
  assert (Hidx : forall l r, mapM (fun i => times_getitem eeg (Sample i)) l = Raise r ->
                             r = IndexError).
  { clear. induction l as [|x l IH]; intros r H; simpl in H; [discriminate|].
    unfold index in H.
    destruct ((0 <=? x) && (x <? n_times eeg)); cbn [bind] in H.
    - destruct (mapM _ l) as [ys|r'] eqn:E; cbn [bind] in H; [discriminate|].
      injection H as <-. now apply IH.
    - destruct ((- n_times eeg <=? x) && (x <? 0)); cbn [bind] in H.
      + destruct (mapM _ l) as [ys|r'] eqn:E; cbn [bind] in H; [discriminate|].
        injection H as <-. now apply IH.
      + now injection H as <-. }
  unfold times_take. destruct l as [|x l]; [intros H; now injection H as <-|].
  destruct floats; [intros H; now injection H as <-|]. apply Hidx.
Qed.

Lemma times_take_length (eeg : recording) (floats : bool) (l a : list Z) :
  times_take eeg floats l = Ok a -> length a = length l /\ l <> [] /\ floats = false.
Proof.
  unfold times_take. destruct l as [|x l]; [discriminate|].
  destruct floats; [discriminate|]. intros H. apply mapM_length in H.
  split; [exact H|]. split; [discriminate|reflexivity].
Qed.

(** A list of floats is never annotated. *)
Lemma annotate_floats (eeg : recording) (onsets offsets : list Z) :
  annotate eeg onsets offsets true = Raise IndexError.
Proof.
  unfold annotate.
  destruct (times_take eeg false onsets) as [a|r] eqn:Ea; cbn [bind].
  - now destruct offsets.
  - now rewrite (times_take_raises _ _ _ _ Ea).
Qed.

Lemma np_sort_nonempty (l : list Z) : l <> [] -> np_sort l <> [].
Proof.
  intros Hne E. pose proof (np_sort_perm l) as Hp. rewrite E in Hp.
  apply Permutation_sym, Permutation_nil in Hp. contradiction.
Qed.

(** *** The paired-marker branch *)

Section Paired.
Variable evs : list event.
Variable eeg : recording.

Lemma getitem_valid {A} (l : list A) (idx : Z) :
  0 <= idx < Z.of_nat (length l) ->
  exists x, In x l /\ getitem l idx = Ok x.
Proof.
  intros H. destruct (nth_error l (Z.to_nat idx)) as [x|] eqn:Hn.
  - exists x. split; [eapply nth_error_In; eauto|apply getitem_nth; [lia|exact Hn]].
  - apply nth_error_None in Hn. lia.
Qed.

Lemma foldM_pair_step (stops : list Z) :
  forall (starts : list Z) (k : Z) (on off : list Z),
    0 <= k ->
    (forall idx, In idx starts -> 0 <= idx < Z.of_nat (length evs)) ->
    (forall kk, In kk stops -> 0 <= kk < Z.of_nat (length evs)) ->
    (Z.to_nat k + length starts <= length stops)%nat ->
    exists ox oy,
      foldM (pair_step evs stops) (enumerate_from k starts) (on, off) = Ok (on ++ ox, off ++ oy) /\
      length ox = length oy /\ Forall (marks_start evs) ox /\ Forall (marks_end evs eeg) oy.
Proof.
  induction starts as [|idx starts IH]; intros k on off Hk Hs Ht Hl.
  - exists [], []. simpl. rewrite !app_nil_r. repeat split; constructor.
  - destruct (getitem_valid evs idx (Hs idx (or_introl eq_refl))) as [bs [Hbs Hg1]].
    destruct (getitem_valid stops k) as [kk [Hkk Hg2]]; [simpl in Hl; lia|].
    destruct (getitem_valid evs kk (Ht kk Hkk)) as [be [Hbe Hg3]].
    destruct (IH (k + 1) (on ++ [eegoffset bs]) (off ++ [eegoffset be]))
      as [ox [oy [Hf [Hlen [Hox Hoy]]]]];
      [lia|intros; apply Hs; now right|exact Ht|simpl in Hl; lia|].
    exists (eegoffset bs :: ox), (eegoffset be :: oy).
    cbn [enumerate_from foldM]. unfold pair_step at 1.
    rewrite Hg1. cbn [bind]. rewrite Hg2. cbn [bind]. rewrite Hg3. cbn [bind].
    rewrite Hf, <- !app_assoc. repeat split.
    + simpl. now rewrite Hlen.
    + constructor; [right; eauto|exact Hox].
    + constructor; [right; eauto|exact Hoy].
Qed.

End Paired.

Lemma mark_exclusions_no_rest (e0 : event) (rest : list event) (eeg : recording) :
  let evs := e0 :: rest in
  np_where "REST_REWET" evs = [] ->
  (length (np_where "BREAK_START" (removelast evs))
     <= length (np_where "BREAK_STOP" (tl evs)))%nat ->
  exists ox oy,
    mark_exclusions evs eeg =
      (let '(on0, off0, ss) := session_marks e0 (last evs e0) eeg in
       Ok (on0 ++ ox, off0 ++ oy, ss)) /\
    length ox = length oy /\
    Forall (marks_start evs) ox /\ Forall (marks_end evs eeg) oy.
Proof.
  intros evs Hr Hlen. unfold mark_exclusions. fold evs.
  unfold evs at 1. rewrite mark_session_ok. fold evs. cbn [bind].
  destruct (session_marks e0 (last evs e0) eeg) as [[on0 off0] ss].
  rewrite Hr. cbn [length Z.of_nat Z.ltb Z.compare].
  destruct (0 <? Z.of_nat (length (np_where "BREAK_START" (removelast evs)))).
  - destruct (getitem_first_last e0 rest) as [H0 Hl]. fold evs in H0, Hl.
    rewrite H0. cbn [bind]. rewrite Hl. cbn [bind].
    assert (He0 : In e0 evs) by now left.
    assert (Hel : In (last evs e0) evs).
    { assert (Hne : evs <> []) by discriminate.
      rewrite (app_removelast_last e0 Hne) at 2. apply in_or_app. right. now left. }
    set (a := if is_type "BREAK_STOP" e0 then ([0], [eegoffset e0]) else ([], [])).
    set (b := if is_type "BREAK_START" (last evs e0)
              then ([eegoffset (last evs e0)], [n_times eeg - 1]) else ([], [])).
    destruct (foldM_pair_step evs eeg (np_where "BREAK_STOP" (tl evs))
                (np_where "BREAK_START" (removelast evs)) 0
                (on0 ++ fst a ++ fst b) (off0 ++ snd a ++ snd b))
      as [ox [oy [Hf [Hl' [Hox Hoy]]]]].
    + lia.
    + intros idx Hin. apply np_where_spec in Hin. destruct Hin as [Hin _].
      assert (length (removelast evs) <= length evs)%nat.
      { unfold evs. rewrite (app_removelast_last e0 (l := e0 :: rest)) at 2 by discriminate.
        rewrite length_app. lia. }
      lia.
    + intros kk Hin. apply np_where_spec in Hin. destruct Hin as [Hin _].
      unfold evs in *. simpl in *. lia.
    + simpl. exact Hlen.
    + exists (fst a ++ fst b ++ ox), (snd a ++ snd b ++ oy).
      split; [|split; [|split]].
      * unfold enumerate.
        replace (let '(onsets, offsets) :=
                   if is_type "BREAK_STOP" e0
                   then (on0 ++ [0], off0 ++ [eegoffset e0]) else (on0, off0) in
                 _) with
          (st <- foldM (pair_step evs (np_where "BREAK_STOP" (tl evs)))
                   (enumerate_from 0 (np_where "BREAK_START" (removelast evs)))
                   (on0 ++ fst a ++ fst b, off0 ++ snd a ++ snd b) ;;
           Ok (fst st, snd st, ss)).
        { rewrite Hf. cbn [bind fst snd]. now rewrite <- !app_assoc. }
        unfold a, b.
        destruct (is_type "BREAK_STOP" e0), (is_type "BREAK_START" (last evs e0));
          cbn [fst snd]; rewrite ?app_nil_r, <- ?app_assoc; reflexivity.
      * unfold a, b.
        destruct (is_type "BREAK_STOP" e0), (is_type "BREAK_START" (last evs e0));
          cbn [fst snd]; rewrite ?length_app; simpl; lia.
      * unfold a, b.
        destruct (is_type "BREAK_STOP" e0), (is_type "BREAK_START" (last evs e0));
          cbn [fst snd app]; repeat apply Forall_cons; try exact Hox;
          first [now left | right; eexists; split; [exact Hel|reflexivity]].
      * unfold a, b.
        destruct (is_type "BREAK_STOP" e0), (is_type "BREAK_START" (last evs e0));
          cbn [fst snd app]; repeat apply Forall_cons; try exact Hoy;
          first [now left | right; eexists; split; [exact He0|reflexivity]].
  - exists [], []. rewrite !app_nil_r. repeat split; constructor.
Qed.

(** *** The paired-marker branch in closed form *)

(** The branches of lines 106-135 when no [REST_REWET] marker is present. *)
Lemma mark_exclusions_paired (e0 : event) (rest : list event) (eeg : recording) :
  np_where "REST_REWET" (e0 :: rest) = [] ->
  mark_exclusions (e0 :: rest) eeg =
  let '(on0, off0, ss) := session_marks e0 (last (e0 :: rest) e0) eeg in
  let '(on1, off1) := open_break_marks e0 (last (e0 :: rest) e0) eeg in
  if 0 <? Z.of_nat (length (np_where "BREAK_START" (removelast (e0 :: rest)))) then
    st <- foldM (pair_step (e0 :: rest) (np_where "BREAK_STOP" (tl (e0 :: rest))))
            (enumerate (np_where "BREAK_START" (removelast (e0 :: rest))))
            (on0 ++ on1, off0 ++ off1) ;;
    Ok (fst st, snd st, ss)
  else Ok (on0, off0, ss).
Proof.
  intros Hr. set (evs := e0 :: rest) in *.
  unfold mark_exclusions. fold evs.
  unfold evs at 1. rewrite mark_session_ok. fold evs. cbn [bind].
  destruct (session_marks e0 (last evs e0) eeg) as [[on0 off0] ss].
  rewrite Hr. cbn [length Z.of_nat Z.ltb Z.compare].
  unfold open_break_marks.
  destruct (0 <? Z.of_nat (length (np_where "BREAK_START" (removelast evs)))).
  - destruct (getitem_first_last e0 rest) as [H0 Hl]. fold evs in H0, Hl.
    rewrite H0. cbn [bind]. rewrite Hl. cbn [bind].
    destruct (is_type "BREAK_STOP" e0), (is_type "BREAK_START" (last evs e0));
      cbn [app]; rewrite ?app_nil_r, <- ?app_assoc; reflexivity.
  - destruct (is_type "BREAK_STOP" e0), (is_type "BREAK_START" (last evs e0)); reflexivity.
Qed.

Lemma getitem_in {A} (l : list A) (i : Z) (x : A) : getitem l i = Ok x -> In x l.
Proof.
  unfold getitem. destruct (index (Z.of_nat (length l)) i) as [k|]; cbn [bind]; [|discriminate].
  destruct (nth_error l (Z.to_nat k)) as [y|] eqn:E; [|discriminate].
  intros H. injection H as <-. eapply nth_error_In; eauto.
Qed.

Lemma getitem_out_of_range {A} (l : list A) (i : Z) :
  Z.of_nat (length l) <= i -> getitem l i = Raise IndexError.
Proof.
  intros H. unfold getitem, index.
  destruct (Z.leb_spec 0 i); [|lia]. destruct (Z.ltb_spec i (Z.of_nat (length l))); [lia|].
  cbn [andb]. destruct (Z.leb_spec (- Z.of_nat (length l)) i); cbn [andb];
    destruct (Z.ltb_spec i 0); try lia; reflexivity.
Qed.

Lemma skipn_nth_cons {A} (l : list A) (k : nat) (x : A) :
  nth_error l k = Some x -> skipn k l = x :: skipn (S k) l.
Proof.
  revert l. induction k as [|k IH]; intros [|y l] H; simpl in *; try discriminate.
  - now injection H as ->.
  - now apply IH.
Qed.

Lemma last_in_list {A} (l : list A) (d : A) : l <> [] -> In (last l d) l.
Proof.
  induction l as [|x l IH]; intros H; [congruence|].
  destruct l as [|y l]; [now left|]. right. apply IH. discriminate.
Qed.

Section PairLoop.
Variable evs : list event.
Variable stops : list Z.
Hypothesis stops_valid : forall k, In k stops -> 0 <= k < Z.of_nat (length evs).

(** The loop of lines 133-135 in closed form, when it has a stop marker
    for every start marker. *)
Lemma foldM_pair_step_exact :
  forall (starts : list Z) (k : nat) (on off : list Z),
    (forall idx, In idx starts -> 0 <= idx < Z.of_nat (length evs)) ->
    (k + length starts <= length stops)%nat ->
    foldM (pair_step evs stops) (enumerate_from (Z.of_nat k) starts) (on, off) =
    Ok (on ++ map (offset_at evs) starts,
        off ++ map (offset_at evs) (firstn (length starts) (skipn k stops))).
Proof.
  induction starts as [|idx starts IH]; intros k on off Hs Hl.
  - simpl. now rewrite !app_nil_r.
  - cbn [enumerate_from foldM]. unfold pair_step at 1.
    pose proof (getitem_offset_at evs idx (Hs idx (or_introl eq_refl))) as H1.
    destruct (getitem evs idx) as [bs|]; cbn [bind] in H1 |- *; [|discriminate].
    injection H1 as H1.
    destruct (nth_error stops k) as [kk|] eqn:Ek.
    2:{ apply nth_error_None in Ek. simpl in Hl. lia. }
    rewrite (getitem_nth stops (Z.of_nat k) kk) by (lia || now rewrite Nat2Z.id).
    cbn [bind].
    pose proof (getitem_offset_at evs kk (stops_valid kk (nth_error_In _ _ Ek))) as H2.
    destruct (getitem evs kk) as [be|]; cbn [bind] in H2 |- *; [|discriminate].
    injection H2 as H2.
    replace (Z.of_nat k + 1) with (Z.of_nat (S k)) by lia.
    rewrite IH; [|intros; apply Hs; now right|simpl in Hl; lia].
    rewrite H1, H2, <- !app_assoc. cbn [app map length].
    now rewrite (skipn_nth_cons stops k kk Ek).
Qed.

(** The same loop when the stop markers run out: the look-up of line 135
    fails. *)
Lemma foldM_pair_step_runs_out :
  forall (starts : list Z) (k : nat) (st : list Z * list Z),
    (forall idx, In idx starts -> 0 <= idx < Z.of_nat (length evs)) ->
    (k <= length stops < k + length starts)%nat ->
    foldM (pair_step evs stops) (enumerate_from (Z.of_nat k) starts) st = Raise IndexError.
Proof.
  induction starts as [|idx starts IH]; intros k [on off] Hs Hl; [simpl in Hl; lia|].
  cbn [enumerate_from foldM]. unfold pair_step at 1.
  pose proof (getitem_offset_at evs idx (Hs idx (or_introl eq_refl))) as H1.
  destruct (getitem evs idx) as [bs|]; cbn [bind] in H1 |- *; [|discriminate].
  destruct (nth_error stops k) as [kk|] eqn:Ek.
  - rewrite (getitem_nth stops (Z.of_nat k) kk) by (lia || now rewrite Nat2Z.id).
    cbn [bind].
    pose proof (getitem_offset_at evs kk (stops_valid kk (nth_error_In _ _ Ek))) as H2.
    destruct (getitem evs kk) as [be|]; cbn [bind] in H2 |- *; [|discriminate].
    replace (Z.of_nat k + 1) with (Z.of_nat (S k)) by lia.
    apply IH; [intros; apply Hs; now right|].
    assert (k < length stops)%nat by (apply nth_error_Some; congruence).
    simpl in Hl. lia.
  - apply nth_error_None in Ek. now rewrite getitem_out_of_range by lia.
Qed.

End PairLoop.

Lemma starts_valid (evs : list event) (idx : Z) :
  In idx (np_where "BREAK_START" (removelast evs)) -> 0 <= idx < Z.of_nat (length evs).
Proof.
  intros H. apply np_where_spec in H. destruct H as [H _].
  assert (length (removelast evs) <= length evs)%nat.
  { destruct evs as [|e evs]; [simpl; lia|].
    rewrite (app_removelast_last e (l := e :: evs)) at 2 by discriminate.
    rewrite length_app. lia. }
  lia.
Qed.

Lemma stops_valid_in (evs : list event) (k : Z) :
  In k (np_where "BREAK_STOP" (tl evs)) ->
  0 <= k /\ k + 1 < Z.of_nat (length evs) /\
  exists stop, nth_error evs (Z.to_nat (k + 1)) = Some stop /\
               is_type "BREAK_STOP" stop = true.
Proof.
  intros H. apply np_where_spec in H. destruct H as [H [e [He Ht]]].
  destruct evs as [|e0 evs]; [simpl in H; lia|]. cbn [tl length] in *.
  split; [lia|]. split; [lia|]. exists e. split; [|exact Ht].
  replace (Z.to_nat (k + 1)) with (S (Z.to_nat k)) by lia. exact He.
Qed.

Lemma chronological_bounds (e0 : event) (rest : list event) (e : event) :
  chronological (e0 :: rest) -> In e (e0 :: rest) ->
  eegoffset e0 <= eegoffset e <= eegoffset (last (e0 :: rest) e0).
Proof.
  intros Hs Hin. split.
  - apply StronglySorted_inv in Hs. destruct Hs as [_ Hf].
    destruct Hin as [<-|Hin]; [lia|]. rewrite Forall_forall in Hf. now apply Hf.
  - assert (Hne : e0 :: rest <> []) by discriminate.
    unfold chronological in Hs. rewrite (app_removelast_last e0 Hne) in Hs, Hin.
    apply in_app_or in Hin. destruct Hin as [Hin|[<-|[]]]; [|lia].
    exact (sorted_snoc_last _ _ _ Hs e Hin).
Qed.

(** *** Claims on the segmenter *)

(** C1 (the code departs from the claim).  With [skip_breaks] set, the
    pieces cut by the loop of lines 151-165 should partition the samples
    [0 .. total_samples - 1] of the recording, the last piece running to the
    end.  They do not.  On a recording of 10000 samples whose last marker is
    not a session end, the only piece cut is [0 .. 3500]: 3501 samples of
    the 10000, sample 9999 in none.  On the third scenario of the
    specification ([SESS_START], a break, [SESS_END] at the last sample) the
    loop raises [IndexError].  With no break and no session marker nothing
    is excluded, the empty [onsets] is sorted into an array of floats, and
    the look-up of line 140 raises [IndexError] before any piece is cut. *)
Theorem split_loses_samples :
  segment true [ev "SESS_START" 100; ev "BREAK_START" 3000; ev "WORD" 3500;
                ev "BREAK_STOP" 4000; ev "WORD" 9000] rec10000
  = Ok {| annotations := [(0, 100); (3000, 3500)];
          phases := [(0, 3500)];
          fits := [{| fit_first := 0; fit_last := 3500;
                      reject_by_annotation := Some true |}] |}
  /\ Z.of_nat (length (concatenated [(0, 3500)])) = 3501
  /\ Z.of_nat (length (all_samples rec10000)) = 10000
  /\ ~ In 9999 (concatenated [(0, 3500)])
  /\ segment true [ev "SESS_START" 0; ev "BREAK_START" 3000; ev "BREAK_STOP" 4000;
                   ev "SESS_END" 9999] rec10000 = Raise IndexError
  /\ segment true [ev "WORD" 100] rec10000 = Raise IndexError.
Proof.
  split; [vm_compute; reflexivity|].
  split; [vm_compute; reflexivity|].
  split; [vm_compute; reflexivity|].
  split; [|split; vm_compute; reflexivity].
  unfold concatenated. cbn [flat_map]. rewrite app_nil_r. unfold piece_samples.
  intros H. apply in_map_iff in H. destruct H as [k [Hk Hin]].
  apply in_seq in Hin. cbn [fst snd] in Hk, Hin. lia.
Qed.

(** C2 (amended).  Under the single-marker convention the [i]-th
    [REST_REWET] marker, at position [idx] of the events, gives the [i]-th
    onset, its own offset, and the [i]-th offset appended by the loop of
    lines 108-118: five seconds ([5 * samp_rate] samples) before the offset
    of the next marker, or the last sample [n_times - 1] when the marker is
    the last one; an end that falls before the onset is replaced by the
    onset plus one ([rest_end]). *)
Theorem rest_break_interval (evs : list event) (eeg : recording) (i : nat) (idx : Z) :
  nth_error (np_where "REST_REWET" evs) i = Some idx ->
  exists onsets offsets ss,
    mark_exclusions evs eeg = Ok (onsets, offsets, ss) /\
    nth_error onsets i = Some (offset_at evs idx) /\
    nth_error offsets (length offsets - length onsets + i) =
      Some (rest_end (n_times eeg - 1) evs eeg idx).
Proof.
  intros Hi. destruct evs as [|e0 rest]; [destruct i; discriminate|].
  assert (Hne : np_where "REST_REWET" (e0 :: rest) <> []).
  { intros E. rewrite E in Hi. destruct i; discriminate. }
  pose proof (mark_exclusions_rest e0 rest eeg Hne) as Hm. cbv zeta in Hm.
  destruct (session_marks e0 (last (e0 :: rest) e0) eeg) as [[on0 off0] ss].
  eexists; eexists; eexists. split; [exact Hm|]. split.
  - now apply map_nth_error.
  - rewrite length_app, !length_map.
    replace (length off0 + length (np_where "REST_REWET" (e0 :: rest))
             - length (np_where "REST_REWET" (e0 :: rest)) + i)%nat
      with (length off0 + i)%nat by lia.
    rewrite nth_error_app2 by lia.
    replace (length off0 + i - length off0)%nat with i by lia.
    now apply map_nth_error.
Qed.

Lemma rest_break_interval_witness :
  nth_error (np_where "REST_REWET"
               [ev "WORD" 1000; ev "REST_REWET" 3000; ev "WORD" 9000]) 0 = Some 1 /\
  exists onsets offsets ss,
    mark_exclusions [ev "WORD" 1000; ev "REST_REWET" 3000; ev "WORD" 9000] rec10000
      = Ok (onsets, offsets, ss) /\
    nth_error onsets 0 = Some 3000 /\
    nth_error offsets (length offsets - length onsets + 0) = Some 7720.
Proof.
  split; [reflexivity|].
  exact (rest_break_interval [ev "WORD" 1000; ev "REST_REWET" 3000; ev "WORD" 9000]
           rec10000 0 1 eq_refl).
Defined.

Lemma rest_break_not_to_total_samples :
  ~ single_marker_rule (n_times rec10000) [ev "WORD" 1000; ev "REST_REWET" 3000] rec10000.
Proof.
  intros H. destruct (H 0%nat 1 eq_refl) as [on [off [ss [Hm [_ Hoff]]]]].
  vm_compute in Hm. injection Hm as <- <- <-. vm_compute in Hoff. discriminate.
Qed.

Definition session_with_break : list event :=
  [ev "BREAK_START" 3000; ev "WORD" 3500; ev "BREAK_STOP" 4000; ev "SESS_END" 9000].

Lemma trailing_exclusion_stops_short :
  ~ trailing_exclusion_to_total_samples
      [ev "SESS_START" 100; ev "WORD" 200; ev "SESS_END" 9000] rec10000.
Proof.
  intros H.
  destruct (H _ _ eq_refl eq_refl eq_refl) as [ann [offs [ss [He Hin]]]].
  vm_compute in He. injection He as <- <- <-.
  simpl in Hin. destruct Hin as [Hin|[Hin|[]]]; discriminate Hin.
Qed.

(** The single-marker branch replaces [onsets] and keeps [offsets]: with a
    session marker in the recording the two lists differ in length, and the
    subtraction of line 142 is refused. *)
Lemma rest_branch_drops_session_onsets :
  mark_exclusions [ev "SESS_START" 100; ev "REST_REWET" 3000; ev "WORD" 3100;
                   ev "REST_REWET" 5000; ev "WORD" 5100] rec10000
    = Ok ([3000; 5000], [100; 3001; 5001], true)
  /\ excluded_periods [ev "SESS_START" 100; ev "REST_REWET" 3000; ev "WORD" 3100;
                       ev "REST_REWET" 5000; ev "WORD" 5100] rec10000
     = Raise ValueError.
Proof. split; vm_compute; reflexivity. Qed.

(** C4 (amended).  A marker sequence that holds both [REST_REWET] and
    [BREAK_START]/[BREAK_STOP] markers is not refused: the single-marker
    branch is taken, the onsets are the offsets of the [REST_REWET] markers
    alone, and the segmentation is the one of the same sequence with its
    paired markers read as ordinary events. *)
Theorem mixed_conventions_single_marker_wins (evs : list event) (eeg : recording) :
  mixed_conventions evs ->
  segment true evs eeg = segment true (map forget_paired evs) eeg /\
  exists offsets ss,
    mark_exclusions evs eeg =
      Ok (map (offset_at evs) (np_where "REST_REWET" evs), offsets, ss).
Proof.
  intros [[e [Hin Ht]] _].
  assert (Hne : np_where "REST_REWET" evs <> [])
    by (eapply where_from_nonempty; eauto).
  split.
  - unfold segment, excluded_periods.
    now rewrite mark_exclusions_forget, offsets_hold_float_forget.
  - destruct evs as [|e0 rest]; [contradiction|].
    rewrite (mark_exclusions_rest e0 rest eeg Hne).
    destruct (session_marks e0 (last (e0 :: rest) e0) eeg) as [[on0 off0] ss].
    eexists; eexists; reflexivity.
Qed.

Lemma mixed_markers_mixed : mixed_conventions mixed_markers.
Proof.
  split.
  - exists (ev "REST_REWET" 3000). split; [simpl; tauto|reflexivity].
  - exists (ev "BREAK_START" 1000). split; [simpl; tauto|reflexivity].
Defined.

Lemma mixed_conventions_single_marker_wins_witness :
  mixed_conventions mixed_markers /\
  (segment true mixed_markers rec10000
     = segment true (map forget_paired mixed_markers) rec10000 /\
   exists offsets ss,
     mark_exclusions mixed_markers rec10000 =
       Ok (map (offset_at mixed_markers) (np_where "REST_REWET" mixed_markers), offsets, ss)).
Proof.
  split; [exact mixed_markers_mixed|].
  exact (mixed_conventions_single_marker_wins mixed_markers rec10000 mixed_markers_mixed).
Defined.

Lemma mixed_markers_are_segmented : ~ fails_fast mixed_markers rec10000.
Proof.
  intros H. destruct (H mixed_markers_mixed) as [e He].
  vm_compute in He. discriminate He.
Qed.

(** C9.  With [skip_breaks] unset, whatever the markers, the segmenter
    returns no excluded interval and exactly one piece, the samples
    [0 .. n_times - 1] of the whole recording, and exactly one decomposition
    is fitted, on that piece. *)
Theorem no_skip_single_phase (evs : list event) (eeg : recording) :
  exists seg,
    segment false evs eeg = Ok seg /\
    annotations seg = [] /\
    phases seg = [(0, n_times eeg - 1)] /\
    concatenated (phases seg) = all_samples eeg /\
    fits seg = [{| fit_first := 0; fit_last := n_times eeg - 1;
                   reject_by_annotation := None |}].
Proof.
  eexists. split; [reflexivity|]. cbn [annotations phases fits].
  repeat split.
  unfold concatenated, all_samples, piece_samples. cbn [flat_map fst snd].
  rewrite app_nil_r.
  replace (n_times eeg - 1 - 0 + 1) with (n_times eeg) by lia.
  apply map_ext. intros k. lia.
Qed.

(** *** The splitting loop *)

Lemma enumerate_from_fst {A} (xs : list A) :
  forall k it, In it (enumerate_from k xs) -> k <= fst it.
Proof.
  induction xs as [|x xs IH]; intros k it H; [contradiction|].
  destruct H as [<-|H]; [simpl; lia|]. apply IH in H. lia.
Qed.

(** Once a piece has been cut, [start] holds a time stamp and the next
    piece cannot be cut. *)
Lemma phase_step_after_first (eeg : recording) (ss : bool) (st : loop_state) (k : Z) :
  start st = Seconds k ->
  forall l, (forall it, In it l -> 1 <= fst it) -> l <> [] ->
  foldM (phase_step eeg ss) l st = Raise IndexError.
Proof.
  intros Hs [|[i stop] l] Hi Hne; [congruence|].
  cbn [foldM]. unfold phase_step at 1.
  specialize (Hi (i, stop) (or_introl eq_refl)). cbn [fst] in Hi.
  destruct (Z.eqb_spec i 0); [lia|]. cbn [andb]. now rewrite Hs.
Qed.

Lemma split_loop_at_most_one (eeg : recording) (ss : bool) (offsets : list Z)
    (st : loop_state) :
  foldM (phase_step eeg ss) (enumerate offsets)
        {| eeg_list := []; ica_list := []; start := Sample 0 |} = Ok st ->
  (length (eeg_list st) <= 1)%nat.
Proof.
  unfold enumerate. destruct offsets as [|s0 rest]; cbn [enumerate_from foldM].
  - intros H. injection H as <-. simpl. lia.
  - set (st0 := {| eeg_list := []; ica_list := []; start := Sample 0 |}).
    assert (Hcut : forall i stop l st1,
              phase_step eeg false st0 (i, stop) = Ok st1 ->
              (forall it, In it l -> 1 <= fst it) ->
              foldM (phase_step eeg ss) l st1 = Ok st ->
              (length (eeg_list st) <= 1)%nat).
    { intros i stop l st1 H1 Hl H2. unfold phase_step in H1. rewrite andb_false_r in H1.
      destruct (times_getitem eeg (start st0)) as [tmin|]; cbn [bind] in H1; [|discriminate].
      destruct (times_getitem eeg (Sample stop)) as [tmax|]; cbn [bind] in H1; [|discriminate].
      destruct (times_getitem eeg (Sample (stop + 1))) as [nxt|]; cbn [bind] in H1;
        [|discriminate].
      injection H1 as <-.
      destruct l as [|it l].
      - injection H2 as <-. simpl. lia.
      - rewrite (phase_step_after_first eeg ss _ nxt) in H2;
          [discriminate|reflexivity|exact Hl|discriminate]. }
    destruct ss.
    + assert (Hskip : phase_step eeg true st0 (0, s0) = Ok st0) by reflexivity.
      rewrite Hskip. cbn [bind].
      destruct rest as [|s1 rest]; cbn [enumerate_from foldM].
      * intros H. injection H as <-. simpl. lia.
      * intros H.
        destruct (phase_step eeg true st0 (0 + 1, s1)) as [st1|] eqn:E1;
          cbn [bind] in H; [|discriminate].
        apply (Hcut (0 + 1) s1 (enumerate_from (0 + 1 + 1) rest) st1); [|
          intros it Hit; apply enumerate_from_fst in Hit; lia|exact H].
        unfold phase_step in E1 |- *. now rewrite andb_false_r.
    + intros H.
      destruct (phase_step eeg false st0 (0, s0)) as [st1|] eqn:E1;
        cbn [bind] in H; [|discriminate].
      apply (Hcut 0 s0 (enumerate_from (0 + 1) rest) st1 E1); [|exact H].
      intros it Hit. apply enumerate_from_fst in Hit. lia.
Qed.

(** Whatever the markers, a run that splits at breaks and does not raise
    has fitted at most one piece. *)
Lemma split_never_yields_two_phases (evs : list event) (eeg : recording)
    (seg : segmentation) :
  segment true evs eeg = Ok seg -> (length (phases seg) <= 1)%nat.
Proof.
  unfold segment.
  destruct (excluded_periods evs eeg) as [[[ann offsets] ss]|]; cbn [bind]; [|discriminate].
  destruct (foldM _ _ _) as [st|] eqn:E; cbn [bind]; [|discriminate].
  intros H. injection H as <-. cbn [phases]. eapply split_loop_at_most_one; eauto.
Qed.

(** *** Sorting leaves the single-marker lists as they are *)

Lemma sorted_perm_eq (l l' : list Z) :
  StronglySorted Z.le l -> StronglySorted Z.le l' -> Permutation l l' -> l = l'.
Proof.
  revert l'. induction l as [|a t IH]; intros l' Hs Hs' Hp.
  - now apply Permutation_nil in Hp.
  - destruct l' as [|b t']; [now apply Permutation_sym, Permutation_nil in Hp|].
    apply StronglySorted_inv in Hs. destruct Hs as [Hst Ha].
    apply StronglySorted_inv in Hs'. destruct Hs' as [Hst' Hb].
    rewrite Forall_forall in Ha, Hb.
    assert (a = b).
    { assert (Hin : In a (b :: t')) by (eapply Permutation_in; [exact Hp|now left]).
      assert (Hin' : In b (a :: t))
        by (eapply Permutation_in; [apply Permutation_sym, Hp|now left]).
      destruct Hin as [->|Hin]; [reflexivity|].
      destruct Hin' as [->|Hin']; [reflexivity|].
      specialize (Ha _ Hin'). specialize (Hb _ Hin). lia. }
    subst b. f_equal. apply IH; try assumption.
    now apply Permutation_cons_inv in Hp.
Qed.

Lemma np_sort_sorted_id (l : list Z) : StronglySorted Z.le l -> np_sort l = l.
Proof.
  intros H. symmetry. apply sorted_perm_eq; [exact H|apply np_sort_sorted|apply np_sort_perm].
Qed.

Lemma where_from_increasing (s : string) (evs : list event) :
  forall i, StronglySorted Z.lt (where_from i s evs).
Proof.
  induction evs as [|e evs IH]; intros i; simpl; [constructor|].
  destruct (is_type s e); [|apply IH].
  constructor; [apply IH|]. apply Forall_forall. intros idx Hin.
  apply where_from_spec in Hin. lia.
Qed.

Lemma sorted_map {A B} (R : A -> A -> Prop) (R' : B -> B -> Prop) (f : A -> B) (l : list A) :
  (forall x y, In x l -> In y l -> R x y -> R' (f x) (f y)) ->
  StronglySorted R l -> StronglySorted R' (map f l).
Proof.
  intros Hf Hs. induction Hs as [|a t Hs IH Ha]; simpl; constructor.
  - apply IH. intros x y Hx Hy. apply Hf; now right.
  - rewrite Forall_forall in *. intros y Hy. apply in_map_iff in Hy.
    destruct Hy as [x [<- Hx]]. apply Hf; [now left|now right|now apply Ha].
Qed.

(** Offsets of markers in strictly increasing time order. *)
Lemma offset_at_increasing (evs : list event) :
  StronglySorted (fun a b => eegoffset a < eegoffset b) evs ->
  forall i j, 0 <= i < j -> j < Z.of_nat (length evs) ->
    offset_at evs i < offset_at evs j.
Proof.
  intros Hs. induction Hs as [|e evs Hs IH He]; intros i j Hij Hj; [simpl in Hj; lia|].
  unfold offset_at.
  replace (Z.to_nat j) with (S (Z.to_nat (j - 1))) by lia.
  cbn [nth_error length] in *.
  destruct (nth_error evs (Z.to_nat (j - 1))) as [ej|] eqn:Ej.
  2:{ apply nth_error_None in Ej. lia. }
  destruct (Z.eq_dec i 0) as [->|Hi].
  - cbn [Z.to_nat nth_error]. rewrite Forall_forall in He. apply He.
    eapply nth_error_In; eauto.
  - replace (Z.to_nat i) with (S (Z.to_nat (i - 1))) by lia. cbn [nth_error].
    specialize (IH (i - 1) (j - 1) ltac:(lia) ltac:(lia)).
    unfold offset_at in IH. now rewrite Ej in IH.
Qed.

Section SingleMarker.
Variable evs : list event.
Variable eeg : recording.
Hypothesis in_order : StronglySorted (fun a b => eegoffset a < eegoffset b) evs.
Hypothesis inside : in_recording eeg evs.
Hypothesis rate : 0 <= samp_rate eeg.

Lemma offset_at_inside (idx : Z) :
  0 <= idx < Z.of_nat (length evs) -> 0 <= offset_at evs idx <= n_times eeg - 1.
Proof.
  intros H. unfold offset_at.
  destruct (nth_error evs (Z.to_nat idx)) as [e|] eqn:E.
  - unfold in_recording in inside. rewrite Forall_forall in inside.
    apply inside. eapply nth_error_In; eauto.
  - apply nth_error_None in E. lia.
Qed.

Lemma rest_end_bounds (idx : Z) :
  0 <= idx < Z.of_nat (length evs) ->
  offset_at evs idx <= rest_end (n_times eeg - 1) evs eeg idx /\
  rest_end (n_times eeg - 1) evs eeg idx <= n_times eeg - 1 /\
  (idx + 1 < Z.of_nat (length evs) ->
   rest_end (n_times eeg - 1) evs eeg idx <= offset_at evs (idx + 1)).
Proof.
  intros H. pose proof (offset_at_inside idx H) as Hb. unfold rest_end.
  destruct (Z.eqb_spec (Z.of_nat (length evs)) (idx + 1)) as [Hl|Hl].
  - destruct (Z.ltb_spec (n_times eeg - 1) (offset_at evs idx)); lia.
  - pose proof (offset_at_inside (idx + 1) ltac:(lia)) as Hb'.
    pose proof (offset_at_increasing evs in_order idx (idx + 1) ltac:(lia) ltac:(lia)).
    destruct (Z.ltb_spec (offset_at evs (idx + 1) - 5 * samp_rate eeg) (offset_at evs idx));
      lia.
Qed.

Lemma rest_ends_sorted (idxs : list Z) :
  StronglySorted Z.lt idxs ->
  (forall idx, In idx idxs -> 0 <= idx < Z.of_nat (length evs)) ->
  StronglySorted Z.le (map (offset_at evs) idxs) /\
  StronglySorted Z.le (map (rest_end (n_times eeg - 1) evs eeg) idxs).
Proof.
  intros Hs Hv. split.
  - apply (sorted_map Z.lt); [|exact Hs]. intros x y Hx Hy Hxy.
    pose proof (offset_at_increasing evs in_order x y).
    specialize (Hv x Hx) as Hvx. specialize (Hv y Hy) as Hvy. lia.
  - apply (sorted_map Z.lt); [|exact Hs]. intros x y Hx Hy Hxy.
    specialize (Hv x Hx) as Hvx. specialize (Hv y Hy) as Hvy.
    destruct (rest_end_bounds x Hvx) as [_ [_ Hnext]].
    destruct (rest_end_bounds y Hvy) as [Hon _].
    specialize (Hnext ltac:(lia)).
    assert (offset_at evs (x + 1) <= offset_at evs y).
    { destruct (Z.eq_dec (x + 1) y) as [->|Hne]; [lia|].
      pose proof (offset_at_increasing evs in_order (x + 1) y). lia. }
    lia.
Qed.

End SingleMarker.

(** A float among the ends of the breaks: the exclusions are marked, and
    the look-up of line 140 or of line 141 raises. *)
Lemma float_end_raises (evs : list event) (eeg : recording) :
  offsets_hold_float evs eeg = true ->
  excluded_periods evs eeg = Raise IndexError /\
  segment true evs eeg = Raise IndexError.
Proof.
  intros Hf.
  assert (Hne : np_where "REST_REWET" evs <> []).
  { intros E. unfold offsets_hold_float in Hf. rewrite E in Hf. discriminate. }
  destruct evs as [|e0 rest]; [now elim Hne|].
  assert (He : excluded_periods (e0 :: rest) eeg = Raise IndexError).
  { unfold excluded_periods.
    pose proof (mark_exclusions_rest e0 rest eeg Hne) as Hm. cbv zeta in Hm.
    destruct (session_marks e0 (last (e0 :: rest) e0) eeg) as [[on0 off0] ss].
    rewrite Hm, Hf. cbn [bind]. now rewrite annotate_floats. }
  split; [exact He|]. unfold segment. now rewrite He.
Qed.

(** X8.  The single-marker convention with no session marker in the
    recording and markers in strictly increasing time order.  If the end
    of some break is computed at line 114 and kept (the break is not the
    last marker and lasts five seconds or more), [offsets] holds a float and
    the look-up of line 141 raises [IndexError].  Otherwise every end is an
    integer and the annotated exclusions are, marker by marker, the
    intervals of [rest_end]. *)
Lemma rest_breaks_annotated (e0 : event) (rest : list event) (eeg : recording) :
  np_where "REST_REWET" (e0 :: rest) <> [] ->
  is_type "SESS_START" e0 = false ->
  is_type "SESS_END" (last (e0 :: rest) e0) = false ->
  StronglySorted (fun a b => eegoffset a < eegoffset b) (e0 :: rest) ->
  in_recording eeg (e0 :: rest) ->
  0 <= samp_rate eeg ->
  excluded_periods (e0 :: rest) eeg =
  if offsets_hold_float (e0 :: rest) eeg then Raise IndexError
  else
    Ok (map (fun idx => (offset_at (e0 :: rest) idx,
                         rest_end (n_times eeg - 1) (e0 :: rest) eeg idx))
            (np_where "REST_REWET" (e0 :: rest)),
        map (rest_end (n_times eeg - 1) (e0 :: rest) eeg) (np_where "REST_REWET" (e0 :: rest)),
        false).
Proof.
  intros Hne Hs0 Hs1 Hord Hin Hrate.
  destruct (offsets_hold_float (e0 :: rest) eeg) eqn:Hf;
    [exact (proj1 (float_end_raises _ _ Hf))|].
  set (evs := e0 :: rest) in *. set (ridx := np_where "REST_REWET" evs) in *.
  unfold excluded_periods.
  pose proof (mark_exclusions_rest e0 rest eeg Hne) as Hm. cbv zeta in Hm.
  fold evs in Hm. fold ridx in Hm. unfold session_marks in Hm. rewrite Hs0, Hs1 in Hm.
  rewrite Hm, Hf. cbn [bind app].
  assert (Hv : forall idx, In idx ridx -> 0 <= idx < Z.of_nat (length evs)).
  { intros idx Hidx. now apply np_where_spec in Hidx. }
  destruct (rest_ends_sorted evs eeg Hord Hin Hrate ridx) as [Hon Hoff];
    [apply where_from_increasing|exact Hv|].
  rewrite !np_sort_sorted_id by assumption.
  rewrite annotate_in_range.
  - cbn [bind]. f_equal. f_equal. f_equal.
    clear. induction ridx as [|i l IH]; simpl; [reflexivity|now rewrite IH].
  - destruct ridx; [congruence|discriminate].
  - apply Forall_forall. intros y Hy. apply in_map_iff in Hy.
    destruct Hy as [idx [<- Hidx]]. apply (offset_at_inside evs eeg Hin). now apply Hv.
  - apply Forall_forall. intros y Hy. apply in_map_iff in Hy.
    destruct Hy as [idx [<- Hidx]].
    pose proof (offset_at_inside evs eeg Hin idx (Hv idx Hidx)).
    destruct (rest_end_bounds evs eeg Hord Hin Hrate idx (Hv idx Hidx)) as [? [? _]]. lia.
  - now rewrite !length_map.
Qed.

(** *** Session and break exclusions, annotated *)

Lemma sorted_app (l1 l2 : list Z) :
  StronglySorted Z.le l1 -> StronglySorted Z.le l2 ->
  (forall x y, In x l1 -> In y l2 -> x <= y) ->
  StronglySorted Z.le (l1 ++ l2).
Proof.
  intros H1 H2 H. induction H1 as [|x l1 Hs IH Hx]; [exact H2|].
  simpl. constructor.
  - apply IH. intros a b Ha Hb. apply H; [now right|exact Hb].
  - apply Forall_app. split; [exact Hx|].
    apply Forall_forall. intros y Hy. apply H; [now left|exact Hy].
Qed.

Lemma sorted_constant (c : Z) (l : list Z) :
  Forall (eq c) l -> StronglySorted Z.le l.
Proof.
  induction 1 as [|x l Hx Hl IH]; constructor; [exact IH|].
  subst x. eapply Forall_impl; [|exact Hl]. intros y <-. lia.
Qed.

Lemma sorted_firstn {A} (R : A -> A -> Prop) (l : list A) :
  StronglySorted R l -> forall n, StronglySorted R (firstn n l).
Proof.
  induction 1 as [|x l Hs IH Hx]; intros [|n]; simpl; try constructor; [apply IH|].
  rewrite Forall_forall in *. intros y Hy. apply Hx.
  rewrite <- (firstn_skipn n l). apply in_or_app. now left.
Qed.

(** The sorted form of a list made of low entries, high entries and
    entries in between that are already in order. *)
Lemma np_sort_arrangement (s a m e b : list Z) (lo hi : Z) :
  Forall (eq lo) s -> Forall (eq lo) a -> Forall (eq hi) e -> Forall (eq hi) b ->
  StronglySorted Z.le m -> Forall (fun x => lo <= x <= hi) m -> lo <= hi ->
  np_sort (s ++ e ++ a ++ b ++ m) = s ++ a ++ m ++ e ++ b.
Proof.
  intros Hs Ha He Hb Hm Hbd Hle. symmetry. apply sorted_perm_eq.
  - assert (Hlo : Forall (eq lo) (s ++ a)) by (apply Forall_app; now split).
    assert (Hhi : Forall (eq hi) (e ++ b)) by (apply Forall_app; now split).
    rewrite app_assoc. apply sorted_app.
    + eapply sorted_constant; eauto.
    + apply sorted_app; [exact Hm|eapply sorted_constant; eauto|].
      intros x y Hx Hy. rewrite Forall_forall in Hbd, Hhi.
      specialize (Hbd x Hx). specialize (Hhi y Hy). lia.
    + intros x y Hx Hy. rewrite Forall_forall in Hlo, Hbd, Hhi.
      specialize (Hlo x Hx). apply in_app_or in Hy. destruct Hy as [Hy|Hy].
      * specialize (Hbd y Hy). lia.
      * specialize (Hhi y Hy). lia.
  - apply np_sort_sorted.
  - eapply Permutation_trans; [|apply np_sort_perm].
    apply Permutation_app_head.
    apply Permutation_trans with ((a ++ b ++ m) ++ e); [|apply Permutation_app_comm].
    rewrite <- !app_assoc. apply Permutation_app_head.
    rewrite (app_assoc m e b). apply Permutation_app_comm.
Qed.

Lemma combine_app_same {A B} (l1 l2 : list A) (r1 r2 : list B) :
  length l1 = length r1 ->
  combine (l1 ++ l2) (r1 ++ r2) = combine l1 r1 ++ combine l2 r2.
Proof.
  revert r1. induction l1 as [|x l1 IH]; intros [|y r1] H; simpl in H; try discriminate.
  - reflexivity.
  - simpl. f_equal. apply IH. lia.
Qed.

Lemma offset_at_event (evs : list event) (idx : Z) :
  0 <= idx < Z.of_nat (length evs) ->
  exists e, In e evs /\ offset_at evs idx = eegoffset e.
Proof.
  intros H. unfold offset_at.
  destruct (nth_error evs (Z.to_nat idx)) as [e|] eqn:E.
  - exists e. split; [eapply nth_error_In; eauto|reflexivity].
  - apply nth_error_None in E. lia.
Qed.

Lemma offset_at_monotone (evs : list event) :
  chronological evs ->
  forall i j, 0 <= i <= j -> j < Z.of_nat (length evs) ->
    offset_at evs i <= offset_at evs j.
Proof.
  unfold chronological.
  intros Hs. induction Hs as [|e evs Hs IH He]; intros i j Hij Hj; [simpl in Hj; lia|].
  destruct (Z.eq_dec i j) as [->|Hne]; [lia|].
  unfold offset_at.
  destruct (Z.to_nat j) as [|nj] eqn:Ej; [lia|].
  destruct (Z.to_nat i) as [|ni] eqn:Ei; cbn [nth_error].
  - destruct (nth_error evs nj) as [ej|] eqn:E.
    + rewrite Forall_forall in He. apply He. eapply nth_error_In; eauto.
    + apply nth_error_None in E. simpl in Hj. lia.
  - specialize (IH (Z.of_nat ni) (Z.of_nat nj)). unfold offset_at in IH.
    rewrite !Nat2Z.id in IH. apply IH; [lia|]. simpl in Hj. lia.
Qed.


(** What lines 91-97 and 124-131 mark, entry by entry. *)
Lemma session_marks_parts (e0 el : event) (eeg : recording) :
  session_marks e0 el eeg
  = ((if is_type "SESS_START" e0 then [0] else [])
       ++ (if is_type "SESS_END" el then [eegoffset el] else []),
     (if is_type "SESS_START" e0 then [eegoffset e0] else [])
       ++ (if is_type "SESS_END" el then [n_times eeg - 1] else []),
     is_type "SESS_START" e0).
Proof.
  unfold session_marks.
  now destruct (is_type "SESS_START" e0), (is_type "SESS_END" el).
Qed.

Lemma open_break_marks_parts (e0 el : event) (eeg : recording) :
  open_break_marks e0 el eeg
  = ((if is_type "BREAK_STOP" e0 then [0] else [])
       ++ (if is_type "BREAK_START" el then [eegoffset el] else []),
     (if is_type "BREAK_STOP" e0 then [eegoffset e0] else [])
       ++ (if is_type "BREAK_START" el then [n_times eeg - 1] else [])).
Proof.
  unfold open_break_marks.
  now destruct (is_type "BREAK_STOP" e0), (is_type "BREAK_START" el).
Qed.

Lemma all_equal_if (c : bool) (x : Z) : Forall (eq x) (if c then [x] else []).
Proof. destruct c; repeat constructor. Qed.

(** C3 (amended).  With [skip_breaks] set and no [REST_REWET] marker among
    the events (markers in time order and inside the recording, a stop
    marker for every start marker the loop looks up), and with at least one
    exclusion to mark (a [SESS_START] first, a [SESS_END] last, or a
    [BREAK_START] before the last marker), the exclusions are annotated.
    They contain the pair [(0, start_offset)] when the first marker is
    [SESS_START] and the pair [(end_offset, n_times - 1)] when the last
    marker is [SESS_END], next to the exclusions of the paired-marker
    convention: one pair for each [BREAK_START] marker, as lines 133-135
    record it, and the pairs of lines 124-131 for a recording that starts or
    ends inside a break. *)
Theorem session_exclusions_annotated (e0 : event) (rest : list event) (eeg : recording) :
  np_where "REST_REWET" (e0 :: rest) = [] ->
  chronological (e0 :: rest) ->
  in_recording eeg (e0 :: rest) ->
  stops_cover_starts (e0 :: rest) ->
  is_type "SESS_START" e0 = true \/ is_type "SESS_END" (last (e0 :: rest) e0) = true \/
    np_where "BREAK_START" (removelast (e0 :: rest)) <> [] ->
  exists ann offsets,
    excluded_periods (e0 :: rest) eeg = Ok (ann, offsets, is_type "SESS_START" e0) /\
    (is_type "SESS_START" e0 = true -> In (0, eegoffset e0) ann) /\
    (is_type "SESS_END" (last (e0 :: rest) e0) = true ->
     In (eegoffset (last (e0 :: rest) e0), n_times eeg - 1) ann) /\
    (forall (i : nat) (idx k : Z),
       nth_error (np_where "BREAK_START" (removelast (e0 :: rest))) i = Some idx ->
       nth_error (np_where "BREAK_STOP" (tl (e0 :: rest))) i = Some k ->
       In (offset_at (e0 :: rest) idx, offset_at (e0 :: rest) k) ann) /\
    (np_where "BREAK_START" (removelast (e0 :: rest)) <> [] ->
     (is_type "BREAK_STOP" e0 = true -> In (0, eegoffset e0) ann) /\
     (is_type "BREAK_START" (last (e0 :: rest) e0) = true ->
      In (eegoffset (last (e0 :: rest) e0), n_times eeg - 1) ann)).
Proof.
  intros Hr Hc Hb Hp Hex.
  set (evs := e0 :: rest) in *. set (el := last evs e0) in *.
  set (starts := np_where "BREAK_START" (removelast evs)) in *.
  set (stops := np_where "BREAK_STOP" (tl evs)) in *.
  assert (He0 : In e0 evs) by now left.
  assert (Hel : In el evs) by (apply last_in_list; discriminate).
  assert (Hev : forall e, In e evs ->
            0 <= eegoffset e0 <= eegoffset e /\ eegoffset e <= eegoffset el <= n_times eeg - 1).
  { intros e He. pose proof (chronological_bounds e0 rest e Hc He) as H1.
    fold evs el in H1. unfold in_recording in Hb. rewrite Forall_forall in Hb.
    pose proof (Hb e0 He0). pose proof (Hb el Hel). lia. }
  pose proof (Hev e0 He0) as Hb0.
  assert (Hat : forall i, 0 <= i < Z.of_nat (length evs) ->
            0 <= eegoffset e0 <= offset_at evs i /\
            offset_at evs i <= eegoffset el <= n_times eeg - 1).
  { intros i Hi. destruct (offset_at_event evs i Hi) as [e [He ->]]. now apply Hev. }
  (* what the proof uses of the two index lists *)
  pose proof (mark_exclusions_paired e0 rest eeg Hr) as Hm. fold evs el starts stops in Hm.
  unfold stops_cover_starts in Hp. fold evs starts stops in Hp.
  assert (Hsv : forall i, In i starts -> 0 <= i < Z.of_nat (length evs))
    by (intros i Hi; now apply (starts_valid evs)).
  assert (Hstv : forall k, In k stops -> 0 <= k < Z.of_nat (length evs))
    by (intros k Hk; apply stops_valid_in in Hk; lia).
  assert (Hsts : StronglySorted Z.lt starts) by apply where_from_increasing.
  assert (Hsps : StronglySorted Z.lt stops) by apply where_from_increasing.
  clearbody starts stops.
  (* the lists before they are sorted *)
  set (has := negb (length starts =? 0)%nat).
  set (s_on := if is_type "SESS_START" e0 then [0] else []).
  set (s_off := if is_type "SESS_START" e0 then [eegoffset e0] else []).
  set (e_on := if is_type "SESS_END" el then [eegoffset el] else []).
  set (e_off := if is_type "SESS_END" el then [n_times eeg - 1] else []).
  set (a_on := if has && is_type "BREAK_STOP" e0 then [0] else []).
  set (a_off := if has && is_type "BREAK_STOP" e0 then [eegoffset e0] else []).
  set (b_on := if has && is_type "BREAK_START" el then [eegoffset el] else []).
  set (b_off := if has && is_type "BREAK_START" el then [n_times eeg - 1] else []).
  set (m_on := map (offset_at evs) starts).
  set (m_off := map (offset_at evs) (firstn (length starts) stops)).
  assert (Hm' : mark_exclusions evs eeg
                = Ok (s_on ++ e_on ++ a_on ++ b_on ++ m_on,
                      s_off ++ e_off ++ a_off ++ b_off ++ m_off,
                      is_type "SESS_START" e0)).
  { rewrite session_marks_parts, open_break_marks_parts in Hm.
    fold s_on s_off e_on e_off in Hm.
    unfold a_on, a_off, b_on, b_off, m_on, m_off, has.
    destruct starts as [|st0 sts].
    - cbn [length Z.of_nat Z.ltb Z.compare] in Hm. rewrite Hm.
      cbn [length Nat.eqb negb andb map firstn app]. now rewrite !app_nil_r.
    - replace (0 <? Z.of_nat (length (st0 :: sts))) with true in Hm
        by (symmetry; apply Z.ltb_lt; simpl length; lia).
      unfold enumerate in Hm. change 0 with (Z.of_nat 0) in Hm at 1.
      rewrite (foldM_pair_step_exact evs stops) in Hm; [|exact Hstv|exact Hsv|exact Hp].
      cbn [bind fst snd skipn] in Hm. rewrite Hm.
      cbn [length Nat.eqb negb andb]. now rewrite <- !app_assoc. }
  clear Hm. rename Hm' into Hm.
  (* the entries between the low and the high ones *)
  assert (Hkv : forall k, In k (firstn (length starts) stops) ->
                          0 <= k < Z.of_nat (length evs)).
  { intros k Hk. apply Hstv.
    rewrite <- (firstn_skipn (length starts) stops). apply in_or_app. now left. }
  assert (Hm_on : StronglySorted Z.le m_on /\
                  Forall (fun x => 0 <= x <= eegoffset el) m_on).
  { split.
    - apply (sorted_map Z.lt Z.le); [|exact Hsts].
      intros x y Hx Hy Hxy. apply (offset_at_monotone evs Hc).
      + specialize (Hsv x Hx). lia.
      + specialize (Hsv y Hy). lia.
    - apply Forall_forall. intros x Hx. apply in_map_iff in Hx. destruct Hx as [i [<- Hi]].
      specialize (Hat i (Hsv i Hi)). lia. }
  assert (Hm_off : StronglySorted Z.le m_off /\
                   Forall (fun x => eegoffset e0 <= x <= n_times eeg - 1) m_off).
  { split.
    - apply (sorted_map Z.lt Z.le); [|now apply sorted_firstn].
      intros x y Hx Hy Hxy. apply (offset_at_monotone evs Hc).
      + specialize (Hkv x Hx). lia.
      + specialize (Hkv y Hy). lia.
    - apply Forall_forall. intros x Hx. apply in_map_iff in Hx. destruct Hx as [i [<- Hi]].
      specialize (Hat i (Hkv i Hi)). lia. }
  destruct Hm_on as [Hon1 Hon2]. destruct Hm_off as [Hoff1 Hoff2].
  assert (Hson : np_sort (s_on ++ e_on ++ a_on ++ b_on ++ m_on)
                 = s_on ++ a_on ++ m_on ++ e_on ++ b_on).
  { apply (np_sort_arrangement _ _ _ _ _ 0 (eegoffset el));
      try apply all_equal_if; try assumption. lia. }
  assert (Hsoff : np_sort (s_off ++ e_off ++ a_off ++ b_off ++ m_off)
                  = s_off ++ a_off ++ m_off ++ e_off ++ b_off).
  { apply (np_sort_arrangement _ _ _ _ _ (eegoffset e0) (n_times eeg - 1));
      try apply all_equal_if; try assumption. lia. }
  assert (Ls : length s_on = length s_off)
    by (unfold s_on, s_off; now destruct (is_type "SESS_START" e0)).
  assert (Le : length e_on = length e_off)
    by (unfold e_on, e_off; now destruct (is_type "SESS_END" el)).
  assert (La : length a_on = length a_off)
    by (unfold a_on, a_off; now destruct (has && is_type "BREAK_STOP" e0)).
  assert (Lb : length b_on = length b_off)
    by (unfold b_on, b_off; now destruct (has && is_type "BREAK_START" el)).
  assert (Lm : length m_on = length m_off).
  { unfold m_on, m_off. rewrite !length_map, length_firstn. lia. }
  assert (Hhas : starts <> [] -> has = true)
    by (unfold has; destruct starts; [congruence|reflexivity]).
  exists (combine s_on s_off ++ combine a_on a_off ++ combine m_on m_off
          ++ combine e_on e_off ++ combine b_on b_off),
         (s_off ++ a_off ++ m_off ++ e_off ++ b_off).
  split; [|split; [|split; [|split]]].
  - unfold excluded_periods. fold evs. rewrite Hm. cbn [bind]. rewrite Hson, Hsoff.
    unfold offsets_hold_float. rewrite Hr. cbn [existsb].
    rewrite annotate_in_range.
    + cbn [bind]. now rewrite !combine_app_same by assumption.
    + destruct Hex as [H|[H|H]].
      * unfold s_on. rewrite H. discriminate.
      * unfold e_on. fold el in H. rewrite H.
        destruct s_on, a_on, m_on; discriminate.
      * unfold m_on. destruct starts; [congruence|].
        destruct s_on, a_on; discriminate.
    + repeat (apply Forall_app; split);
        try (eapply Forall_impl; [|apply all_equal_if]; intros y <-; lia).
      eapply Forall_impl; [|exact Hon2]. intros y Hy. simpl in Hy. lia.
    + repeat (apply Forall_app; split);
        try (eapply Forall_impl; [|apply all_equal_if]; intros y <-; lia).
      eapply Forall_impl; [|exact Hoff2]. intros y Hy. simpl in Hy. lia.
    + rewrite !length_app. lia.
  - intros Ht. apply in_or_app. left. unfold s_on, s_off. rewrite Ht. now left.
  - intros Ht. do 3 (apply in_or_app; right). apply in_or_app. left.
    unfold e_on, e_off. rewrite Ht. now left.
  - intros i idx k Hi Hk. do 2 (apply in_or_app; right). apply in_or_app. left.
    apply (in_combine_nth _ _ i).
    + unfold m_on. now apply map_nth_error.
    + unfold m_off. apply map_nth_error. rewrite nth_error_firstn.
      assert (i < length starts)%nat by (apply nth_error_Some; congruence).
      destruct (Nat.ltb_spec i (length starts)); [exact Hk|lia].
  - intros Hne. specialize (Hhas Hne). split; intros Ht.
    + apply in_or_app. right. apply in_or_app. left.
      unfold a_on, a_off. rewrite Hhas, Ht. now left.
    + do 4 (apply in_or_app; right).
      unfold b_on, b_off. rewrite Hhas, Ht. now left.
Qed.

(** X19.  A recording with no session marker at either end and no break:
    nothing is excluded, [onsets] is empty, sorted it is an array of floats,
    and the look-up of line 140 raises [IndexError]. *)
Lemma unmarked_recording_raises (e0 : event) (rest : list event) (eeg : recording) :
  is_type "SESS_START" e0 = false ->
  is_type "SESS_END" (last (e0 :: rest) e0) = false ->
  np_where "REST_REWET" (e0 :: rest) = [] ->
  np_where "BREAK_START" (removelast (e0 :: rest)) = [] ->
  excluded_periods (e0 :: rest) eeg = Raise IndexError /\
  segment true (e0 :: rest) eeg = Raise IndexError.
Proof.
  intros Hs He Hr Hb.
  assert (H : excluded_periods (e0 :: rest) eeg = Raise IndexError).
  { pose proof (mark_exclusions_paired e0 rest eeg Hr) as Hm.
    rewrite Hb in Hm. cbn [length Z.of_nat Z.ltb Z.compare] in Hm.
    unfold session_marks in Hm. rewrite Hs, He in Hm.
    destruct (open_break_marks e0 (last (e0 :: rest) e0) eeg) as [on1 off1].
    unfold excluded_periods. rewrite Hm. reflexivity. }
  split; [exact H|]. unfold segment. now rewrite H.
Qed.

Lemma unmarked_recording_raises_witness :
  excluded_periods [ev "WORD" 100; ev "WORD" 5000] rec10000 = Raise IndexError /\
  segment true [ev "WORD" 100; ev "WORD" 5000] rec10000 = Raise IndexError.
Proof.
  apply (unmarked_recording_raises (ev "WORD" 100) [ev "WORD" 5000] rec10000);
    reflexivity.
Defined.

Lemma session_exclusions_annotated_witness :
  (np_where "REST_REWET" (ev "SESS_START" 100 :: session_with_break) = [] /\
   chronological (ev "SESS_START" 100 :: session_with_break) /\
   in_recording rec10000 (ev "SESS_START" 100 :: session_with_break) /\
   stops_cover_starts (ev "SESS_START" 100 :: session_with_break)) /\
  exists ann offsets,
    excluded_periods (ev "SESS_START" 100 :: session_with_break) rec10000
      = Ok (ann, offsets, true) /\
    In (0, 100) ann /\ In (9000, 9999) ann /\ In (3000, 3500) ann.
Proof.
  assert (H1 : np_where "REST_REWET" (ev "SESS_START" 100 :: session_with_break) = [])
    by reflexivity.
  assert (H2 : chronological (ev "SESS_START" 100 :: session_with_break)).
  { unfold chronological.
    repeat (constructor; [|repeat constructor; simpl; lia]). constructor. }
  assert (H3 : in_recording rec10000 (ev "SESS_START" 100 :: session_with_break))
    by (unfold in_recording; repeat constructor; simpl; lia).
  assert (H4 : stops_cover_starts (ev "SESS_START" 100 :: session_with_break))
    by (unfold stops_cover_starts; vm_compute; lia).
  split; [repeat split; assumption|].
  destruct (session_exclusions_annotated (ev "SESS_START" 100) session_with_break rec10000
              H1 H2 H3 H4 (or_introl eq_refl))
    as [ann [offsets [He [Hs [Hend [Hbreak _]]]]]].
  exists ann, offsets. split; [exact He|]. split; [exact (Hs eq_refl)|].
  split; [exact (Hend eq_refl)|]. exact (Hbreak 0%nat 1 2 eq_refl eq_refl).
Defined.

End SegmenterFacts.

(** ** Facts about [lcf] *)

Module LcfFacts.
Import Np.
Import Lcf.
Local Open Scope Q_scope.

Lemma Qltb_lt (x y : Q) : Qltb x y = true <-> x < y.
Proof.
  unfold Qltb. rewrite negb_true_iff. split; intros H.
  - apply Qnot_le_lt. intros Hle. apply Qle_bool_iff in Hle. congruence.
  - destruct (Qle_bool y x) eqn:E; [|reflexivity].
    apply Qle_bool_iff in E. exfalso. eapply Qlt_not_le; eauto.
Qed.

Lemma Qltb_ge (x y : Q) : y <= x -> Qltb x y = false.
Proof.
  intros H. destruct (Qltb x y) eqn:E; [|reflexivity].
  apply Qltb_lt in E. exfalso. eapply Qlt_not_le; eauto.
Qed.

(** *** Percentiles of a constant row *)

Lemma sort_all (P : Q -> Prop) (row : list Q) :
  Forall P row -> Forall P (QSort.sort row).
Proof.
  intros H. rewrite Forall_forall in *. intros x Hx. apply H.
  eapply Permutation_in; [apply Permutation_sym, QSort.Permuted_sort|exact Hx].
Qed.

Lemma nth_all (c : Q) (l : list Q) (i : nat) :
  Forall (fun x => x == c) l -> (i < length l)%nat -> nth i l 0 == c.
Proof.
  intros H Hi. rewrite Forall_forall in H. apply H. now apply nth_In.
Qed.

Lemma percentile_constant (c : Q) (row : list Q) (q : Z) :
  (0 <= q <= 100)%Z -> row <> [] -> Forall (fun x => x == c) row ->
  percentile row q == c.
Proof.
  intros Hq Hne Hc. unfold percentile.
  pose proof (sort_all _ _ Hc) as Hs.
  assert (Hlen : length (QSort.sort row) = length row)
    by (symmetry; apply Permutation_length, QSort.Permuted_sort).
  assert (Hpos : (0 < length row)%nat) by (destruct row; [congruence|simpl; lia]).
  set (ap := QSort.sort row) in *.
  set (Nx := Z.of_nat (length ap)).
  assert (HNx : (1 <= Nx)%Z) by (unfold Nx; lia).
  set (indices := inject_Z q / 100 * inject_Z (Nx - 1)).
  assert (Hq1 : 0 <= inject_Z q / 100 <= 1).
  { assert (0 <= inject_Z q) by (change 0 with (inject_Z 0); rewrite <- Zle_Qle; lia).
    assert (inject_Z q <= 100) by (change 100 with (inject_Z 100); rewrite <- Zle_Qle; lia).
    split.
    - apply Qle_shift_div_l; [reflexivity|]. lra.
    - apply Qle_shift_div_r; [reflexivity|]. lra. }
  assert (HN0 : 0 <= inject_Z (Nx - 1))
    by (change 0 with (inject_Z 0); rewrite <- Zle_Qle; lia).
  assert (Hi : 0 <= indices <= inject_Z (Nx - 1)) by (unfold indices; nra).
  assert (Hfl : (0 <= Qfloor indices <= Nx - 1)%Z).
  { split.
    - change 0%Z with (Qfloor 0). apply Qfloor_resp_le. tauto.
    - rewrite <- (Qfloor_Z (Nx - 1)). apply Qfloor_resp_le. tauto. }
  rewrite (nth_all c ap), (nth_all c ap); try assumption.
  - ring.
  - unfold Nx in *. lia.
  - unfold Nx in *. lia.
Qed.

Lemma thresholds_constant (c k : Q) (row : list Q) :
  row <> [] -> Forall (fun x => x == c) row ->
  pos_thresh k row == c /\ neg_thresh k row == c.
Proof.
  intros Hne Hc. unfold pos_thresh, neg_thresh.
  rewrite !(percentile_constant c row) by (assumption || lia). split; ring.
Qed.

(** C5.  For every row of the activations, sample [t] is marked exactly
    when its value is strictly greater than [p75 + k * (p75 - p25)] or
    strictly less than [p25 - k * (p75 - p25)], [p25] and [p75] being the
    percentiles of that row and [k] the IQR multiplier; the mask of a
    constant row is all zero. *)
Theorem classifier_marks_outliers (iqr_multiplier : Q) (activations : matrix)
    (component : nat) (row : list Q) :
  nth_error activations component = Some row ->
  let p75 := percentile row 75 in
  let p25 := percentile row 25 in
  let mask := nth component (classify iqr_multiplier activations) [] in
  length mask = length row /\
  (forall (t : nat) (x : Q), nth_error row t = Some x ->
     (nth_error mask t = Some true <->
        p75 + iqr_multiplier * (p75 - p25) < x \/ x < p25 - iqr_multiplier * (p75 - p25)) /\
     (nth_error mask t = Some false <->
        ~ (p75 + iqr_multiplier * (p75 - p25) < x \/ x < p25 - iqr_multiplier * (p75 - p25)))) /\
  (forall c : Q, Forall (fun x => x == c) row -> mask = repeat false (length row)).
Proof.
  intros Hrow p75 p25 mask.
  assert (Hmask : mask = classify_row iqr_multiplier row).
  { unfold mask, classify. apply nth_error_nth. now apply map_nth_error. }
  assert (Hup : pos_thresh iqr_multiplier row == p75 + iqr_multiplier * (p75 - p25))
    by (unfold pos_thresh; fold p75 p25; ring).
  assert (Hlo : neg_thresh iqr_multiplier row == p25 - iqr_multiplier * (p75 - p25))
    by (unfold neg_thresh; fold p75 p25; ring).
  rewrite Hmask. split; [apply length_map|]. split.
  - intros t x Hx. unfold classify_row.
    rewrite (map_nth_error _ _ _ Hx).
    rewrite <- Hup, <- Hlo.
    destruct (Qltb (pos_thresh iqr_multiplier row) x
              || Qltb x (neg_thresh iqr_multiplier row)) eqn:E.
    + apply orb_true_iff in E. rewrite !Qltb_lt in E.
      split; split; intros H; try reflexivity; try discriminate; tauto.
    + apply orb_false_iff in E. destruct E as [E1 E2].
      assert (N1 : ~ pos_thresh iqr_multiplier row < x)
        by (intros H; apply Qltb_lt in H; congruence).
      assert (N2 : ~ x < neg_thresh iqr_multiplier row)
        by (intros H; apply Qltb_lt in H; congruence).
      split; split; intros H; try reflexivity; try discriminate; tauto.
  - intros c Hc. unfold classify_row.
    destruct row as [|r0 row']; [reflexivity|].
    destruct (thresholds_constant c iqr_multiplier (r0 :: row')) as [Hp Hn];
      [discriminate|exact Hc|].
    clear Hrow Hmask Hup Hlo mask p75 p25.
    set (up := pos_thresh iqr_multiplier (r0 :: row')) in *.
    set (lo := neg_thresh iqr_multiplier (r0 :: row')) in *.
    clearbody up lo.
    induction Hc as [|x l Hx Hl IH]; [reflexivity|].
    simpl. rewrite IH. f_equal.
    rewrite !Qltb_ge; [reflexivity| |].
    + rewrite Hn, Hx. apply Qle_refl.
    + rewrite Hp, Hx. apply Qle_refl.
Qed.

(** *** Loops that may raise *)


(** *** Convolution *)

Lemma zget_all (P : Q -> Prop) (a : list Q) (t : Z) :
  P 0 -> Forall P a -> P (zget a t).
Proof.
  intros H0 Ha. unfold zget. destruct (t <? 0)%Z; [exact H0|].
  destruct (Nat.lt_ge_cases (Z.to_nat t) (length a)) as [Hl|Hl].
  - rewrite Forall_forall in Ha. apply Ha. now apply nth_In.
  - now rewrite nth_overflow.
Qed.



Lemma convolve_same_ok (a v : list Q) :
  a <> [] -> v <> [] ->
  convolve_same a v =
  Ok (map (fun k => conv_at a v
                      (Z.of_nat k + Z.of_nat ((Nat.min (length a) (length v) - 1) / 2)))
          (seq 0 (Nat.max (length a) (length v)))).
Proof. destruct a, v; intros; try congruence; reflexivity. Qed.

Lemma assign_row_same (n : nat) (r : list Q) : length r = n -> assign_row n r = Ok r.
Proof. intros H. unfold assign_row. now rewrite (proj2 (Nat.eqb_eq _ _) H). Qed.


(** *** The steps of the mixer, one row at a time *)






Lemma slice_trim_length {A} (l : list A) (n : nat) (p : Z) :
  (1 <= p)%Z -> length l = (n + 2 * Z.to_nat p)%nat ->
  length (slice l p (- p)) = n.
Proof.
  intros Hp Hl. unfold slice.
  destruct (Z.ltb_spec p 0); [lia|]. destruct (Z.ltb_spec (- p) 0); [|lia].
  rewrite length_firstn, length_skipn. lia.
Qed.

Lemma pad_size_value (transition_width : Z) :
  (0 <= transition_width)%Z ->
  int (inject_Z transition_width / 2 + 1) = (transition_width / 2 + 1)%Z.
Proof.
  intros H. unfold int, Qdiv, Qmult, Qplus, Qinv, inject_Z. cbn [Qnum Qden].
  change (Z.pos (1 * 2 * 1)) with 2%Z. change (Z.pos (1 * 2)) with 2%Z.
  rewrite Z.quot_div_nonneg by lia.
  replace (transition_width * 1 * 1 + 1 * 2)%Z with (transition_width + 1 * 2)%Z by lia.
  now rewrite Z.div_add by lia.
Qed.


Lemma sum_scaled (l : list Q) (s : Q) :
  sum (map (fun w => w / s) l) == sum l / s.
Proof.
  induction l as [|w l IH]; simpl.
  - unfold Qdiv. ring.
  - rewrite IH. unfold Qdiv. ring.
Qed.

Section Window.
Variable hann : Z -> list Q.
Variable transition_width : Z.
Hypothesis width_pos : (1 <= transition_width)%Z.
Hypothesis hann_length : length (hann transition_width) = Z.to_nat transition_width.
Hypothesis hann_sum : ~ sum (hann transition_width) == 0.


End Window.


Lemma mapM_compose {A B C} (f : A -> result B) (g : B -> result C) (xs : list A) :
  forall zs, mapM (fun x => y <- f x ;; g y) xs = Ok zs ->
             (ys <- mapM f xs ;; mapM g ys) = Ok zs.
Proof.
  induction xs as [|x xs IH]; intros zs H; simpl in *; [exact H|].
  destruct (f x) as [y|e]; simpl in *; [|discriminate].
  destruct (g y) as [z|e] eqn:Eg; simpl in *; [|discriminate].
  destruct (mapM (fun x => y <- f x ;; g y) xs) as [zs'|e] eqn:E; simpl in *; [|discriminate].
  specialize (IH zs' eq_refl).
  destruct (mapM f xs) as [ys|e]; simpl in *; [|discriminate].
  rewrite Eg. simpl. now rewrite IH.
Qed.

Lemma mapM_compose_with {A B C} (f : A -> result B) (g : B -> result C)
    (G : list B -> result (list C)) (xs : list A) (zs : list C) :
  (forall ys zs', mapM g ys = Ok zs' -> G ys = Ok zs') ->
  mapM (fun x => y <- f x ;; g y) xs = Ok zs ->
  (ys <- mapM f xs ;; G ys) = Ok zs.
Proof.
  intros HG H. apply mapM_compose in H.
  destruct (mapM f xs) as [ys|e]; simpl in *; [now apply HG|discriminate].
Qed.

Lemma mapM_then_map {A B C} (f : A -> result B) (h : B -> C) (xs : list A) :
  forall zs, mapM (fun x => y <- f x ;; Ok (h y)) xs = Ok zs ->
             (ys <- mapM f xs ;; Ok (map h ys)) = Ok zs.
Proof.
  induction xs as [|x xs IH]; intros zs H; simpl in *; [exact H|].
  destruct (f x) as [y|e]; simpl in *; [|discriminate].
  destruct (mapM (fun x => y <- f x ;; Ok (h y)) xs) as [zs'|e] eqn:E; simpl in *; [|discriminate].
  specialize (IH zs' eq_refl).
  destruct (mapM f xs) as [ys|e]; simpl in *; [|discriminate].
  injection IH as <-. exact H.
Qed.

Section Control.
Variable hann : Z -> list Q.
Variables dilator_width transition_width : Z.
Hypothesis dilator_pos : (1 <= dilator_width)%Z.
Hypothesis width_pos : (1 <= transition_width)%Z.
Hypothesis hann_length : length (hann transition_width) = Z.to_nat transition_width.
Hypothesis hann_sum : ~ sum (hann transition_width) == 0.

Let pad_size := int (inject_Z transition_width / 2 + 1).



End Control.

(** *** Applying the control signal *)




Lemma classify_lengths (k : Q) (n : nat) (S feat : matrix) :
  Forall2 (fun s f => length s = length f /\ (n <= length f)%nat) S feat ->
  Forall (fun m => (n <= length m)%nat) (classify k feat).
Proof.
  intros H. unfold classify. apply Forall_forall. intros m Hm.
  apply in_map_iff in Hm. destruct Hm as [f [<- Hf]].
  unfold classify_row. rewrite length_map.
  clear -H Hf. induction H as [|s f' S feat [_ Hn] H IH]; [contradiction|].
  destruct Hf as [->|Hf]; auto.
Qed.

(** *** Claims on the mixer *)





(** *** Concrete runs *)

Lemma classifier_marks_outliers_witness :
  nth_error [spike_row] 0 = Some spike_row /\
  nth_error (nth 0 (classify 3 [spike_row]) []) 10 = Some true /\
  nth_error (nth 0 (classify 3 [spike_row]) []) 9 = Some false.
Proof.
  split; [reflexivity|].
  destruct (classifier_marks_outliers 3 [spike_row] 0 spike_row eq_refl) as [_ [H _]].
  split.
  - apply (H 10%nat 100 eq_refl). left. vm_compute. reflexivity.
  - apply (H 9%nat 2 eq_refl). intros [C|C]; vm_compute in C; discriminate C.
Defined.



(** A transition window of two points sums to zero: its normalisation
    leaves no finite control signal. *)
Lemma two_point_window_not_finite :
  sum (hann_rational 2) == 0 /\
  build_control hann_rational [[false; false; false; false]] 2 2 = Raise NonFinite.
Proof. split; vm_compute; reflexivity. Qed.


End LcfFacts.

(** ** Facts about [reconstruct_signal] *)

Module ReconstructorFacts.
Import Np.
Import Reconstructor.
Local Open Scope Q_scope.

Lemma sum_seq_shift (f : nat -> Q) (n : nat) :
  sum (map f (seq 1 n)) = sum (map (fun j => f (S j)) (seq 0 n)).
Proof. now rewrite <- seq_shift, map_map. Qed.

Lemma inner_as_sum (u v : list Q) :
  length u = length v ->
  inner u v = sum (map (fun j => nth j u 0 * nth j v 0) (seq 0 (length u))).
Proof.
  revert v. induction u as [|a u IH]; intros [|b v] H; simpl in H; try lia; [reflexivity|].
  unfold inner in *. cbn [combine map sum fold_right length seq fst snd nth].
  f_equal. rewrite sum_seq_shift. apply IH. lia.
Qed.

Lemma entry_map_rows {A} (g : A -> nat -> Q) (rows : list A) (d : A) (T r t : nat) :
  (r < length rows)%nat -> (t < T)%nat ->
  entry (map (fun a => map (g a) (seq 0 T)) rows) r t = g (nth r rows d) t.
Proof.
  intros Hr Ht. unfold entry.
  rewrite (nth_indep _ [] (map (g d) (seq 0 T))) by now rewrite length_map.
  rewrite (map_nth (fun a => map (g a) (seq 0 T))).
  rewrite (nth_indep _ 0 (g (nth r rows d) 0%nat)) by now rewrite length_map, length_seq.
  rewrite (map_nth (g (nth r rows d))). now rewrite seq_nth.
Qed.

Lemma column_nth (B : matrix) (t j : nat) : nth j (column t B) 0 = entry B j t.
Proof.
  unfold column, entry.
  destruct (Nat.lt_ge_cases j (length B)) as [H|H].
  - rewrite (nth_indep _ 0 (nth t [] 0)) by now rewrite length_map.
    now rewrite (map_nth (fun r => nth t r 0)).
  - rewrite (nth_overflow (map _ B)) by now rewrite length_map.
    rewrite (nth_overflow B) by assumption. now destruct t.
Qed.

Section Dot.
Variables A B : matrix.
Variable T : nat.
Hypothesis A_rows : Forall (fun r => length r = length B) A.
Hypothesis B_rows : Forall (fun r => length r = T) B.
Hypothesis B_width : length (hd [] B) = T.

Lemma dot_ok :
  dot A B = Ok (map (fun ra => map (fun t => inner ra (column t B)) (seq 0 T)) A).
Proof.
  unfold dot. rewrite B_width.
  replace (forallb (fun r => (length r =? length B)%nat) A) with true.
  2:{ symmetry. apply forallb_forall. intros r Hr. rewrite Forall_forall in A_rows.
      apply Nat.eqb_eq. now apply A_rows. }
  replace (forallb (fun r => (length r =? T)%nat) B) with true.
  2:{ symmetry. apply forallb_forall. intros r Hr. rewrite Forall_forall in B_rows.
      apply Nat.eqb_eq. now apply B_rows. }
  reflexivity.
Qed.

Lemma dot_entry (r t : nat) :
  (r < length A)%nat -> (t < T)%nat ->
  entry (map (fun ra => map (fun t => inner ra (column t B)) (seq 0 T)) A) r t
  = product_entry A B (length B) r t.
Proof.
  intros Hr Ht.
  rewrite (entry_map_rows (fun ra t => inner ra (column t B)) A [] T r t Hr Ht).
  assert (Hl : length (nth r A []) = length B).
  { rewrite Forall_forall in A_rows. apply A_rows. now apply nth_In. }
  rewrite inner_as_sum by (unfold column; now rewrite length_map).
  rewrite Hl. unfold product_entry. f_equal. apply map_ext. intros j.
  now rewrite column_nth.
Qed.

End Dot.

Lemma broadcast_to_same {A} (n : nat) (b : list A) :
  length b = n -> broadcast_to n b = Ok b.
Proof. intros H. unfold broadcast_to. now rewrite (proj2 (Nat.eqb_eq _ _) H). Qed.

Lemma broadcast_to_single {A} (T : nat) (m : A) : broadcast_to T [m] = Ok (repeat m T).
Proof.
  unfold broadcast_to. simpl length.
  destruct (Nat.eqb_spec 1 T) as [<-|_]; reflexivity.
Qed.

Lemma combine_repeat (f : Q -> Q -> Q) (row : list Q) (m : Q) :
  map (fun xy => f (fst xy) (snd xy)) (combine row (repeat m (length row)))
  = map (fun x => f x m) row.
Proof. induction row as [|x row IH]; simpl; [reflexivity|now rewrite IH]. Qed.

Lemma in_place_column (f : Q -> Q -> Q) (data : matrix) (v : list Q) :
  length v = length data ->
  in_place f data (map (fun m => [m]) v) = Ok (with_column f data v).
Proof.
  intros Hl. unfold in_place, with_column.
  rewrite broadcast_to_same by now rewrite length_map. cbn [bind].
  revert v Hl. induction data as [|row data IH]; intros [|m v] Hl; simpl in Hl; try lia.
  - reflexivity.
  - cbn [map combine mapM fst snd]. rewrite broadcast_to_single. cbn [bind].
    rewrite combine_repeat. rewrite IH by lia. reflexivity.
Qed.

Lemma with_column_length (f : Q -> Q -> Q) (data : matrix) (v : list Q) :
  length v = length data -> length (with_column f data v) = length data.
Proof. intros H. unfold with_column. rewrite length_map, length_combine. lia. Qed.

Lemma with_column_rows (f : Q -> Q -> Q) (data : matrix) (v : list Q) (T : nat) :
  Forall (fun r => length r = T) data ->
  Forall (fun r => length r = T) (with_column f data v).
Proof.
  intros H. unfold with_column. apply Forall_forall. intros r Hr.
  apply in_map_iff in Hr. destruct Hr as [[row m] [<- Hin]].
  apply in_combine_l in Hin. rewrite Forall_forall in H.
  simpl. rewrite length_map. now apply H.
Qed.

Lemma with_column_entry (f : Q -> Q -> Q) (data : matrix) (v : list Q) (T r t : nat) :
  length v = length data -> Forall (fun r => length r = T) data ->
  (r < length data)%nat -> (t < T)%nat ->
  entry (with_column f data v) r t = f (entry data r t) (nth r v 0).
Proof.
  intros Hl Hrows Hr Ht. unfold with_column, entry.
  rewrite (nth_indep _ [] ((fun rv => map (fun x => f x (snd rv)) (fst rv)) ([], 0)))
    by (rewrite length_map, length_combine; lia).
  rewrite (map_nth (fun rv => map (fun x => f x (snd rv)) (fst rv))).
  rewrite combine_nth by lia. cbn [fst snd].
  assert (Hlen : length (nth r data []) = T).
  { rewrite Forall_forall in Hrows. apply Hrows. now apply nth_In. }
  rewrite (nth_indep _ 0 (f 0 (nth r v 0))) by (rewrite length_map; lia).
  now rewrite (map_nth (fun x => f x (nth r v 0))).
Qed.

Lemma column_matrix (pw : matrix) :
  Forall (fun r => length r = 1%nat) pw ->
  pw = map (fun m => [m]) (map (hd 0) pw).
Proof.
  induction 1 as [|r pw Hr _ IH]; [reflexivity|].
  destruct r as [|w [|? ?]]; simpl in Hr; try lia. simpl. now rewrite <- IH.
Qed.

Lemma column_matrix_entry (pw : matrix) (r : nat) :
  nth r (map (hd 0) pw) 0 = entry pw r 0.
Proof.
  unfold entry. destruct (Nat.lt_ge_cases r (length pw)) as [H|H].
  - rewrite (nth_indep _ 0 (hd 0 [])) by now rewrite length_map.
    rewrite (map_nth (hd 0)). now destruct (nth r pw []).
  - rewrite (nth_overflow (map _ pw)) by now rewrite length_map.
    now rewrite (nth_overflow pw) by assumption.
Qed.

(** C8.  On arrays of matching shapes [reconstruct_signal] returns, entry
    by entry, the sources multiplied by the mixing matrix, then by the
    inverse of the whitening transform, then increased by the mean of the
    channel, then multiplied by the scale factor of the channel
    ([reconstructed_entry]). *)
Theorem reconstruct_in_order (inv : matrix -> result matrix) (sources : matrix)
    (ica : ica) (unwhiten : matrix) (T : nat) :
  inv (pca_components_ ica) = Ok unwhiten ->
  Forall (fun r => length r = T) sources ->
  length (hd [] sources) = T ->
  length (mixing_matrix_ ica) = length sources ->
  Forall (fun r => length r = length sources) (mixing_matrix_ ica) ->
  Forall (fun r => length r = length sources) unwhiten ->
  length (pca_mean_ ica) = length unwhiten ->
  length (pre_whitener_ ica) = length unwhiten ->
  Forall (fun r => length r = 1%nat) (pre_whitener_ ica) ->
  exists data,
    reconstruct_signal inv sources ica = Ok data /\
    length data = length unwhiten /\
    Forall (fun r => length r = T) data /\
    forall ch t, (ch < length unwhiten)%nat -> (t < T)%nat ->
      entry data ch t = reconstructed_entry ica unwhiten sources (length sources) ch t.
Proof.
  intros Hinv Hs Hw Hm Hmr Hu Hmean Hpw Hpwr.
  set (n := length sources) in *.
  set (D1 := map (fun ra => map (fun t => inner ra (column t sources)) (seq 0 T))
                 (mixing_matrix_ ica)).
  set (D2 := map (fun ra => map (fun t => inner ra (column t D1)) (seq 0 T)) unwhiten).
  assert (HD1len : length D1 = n) by (unfold D1; now rewrite length_map).
  assert (HD1rows : Forall (fun r => length r = T) D1).
  { unfold D1. apply Forall_forall. intros r Hr. apply in_map_iff in Hr.
    destruct Hr as [ra [<- _]]. now rewrite length_map, length_seq. }
  assert (HD1w : length (hd [] D1) = T).
  { unfold D1. destruct (mixing_matrix_ ica) as [|ra M] eqn:E.
    - simpl in Hm. unfold n in Hm. destruct sources; [exact Hw|discriminate].
    - simpl. now rewrite length_map, length_seq. }
  assert (HD2len : length D2 = length unwhiten) by (unfold D2; now rewrite length_map).
  assert (HD2rows : Forall (fun r => length r = T) D2).
  { unfold D2. apply Forall_forall. intros r Hr. apply in_map_iff in Hr.
    destruct Hr as [ra [<- _]]. now rewrite length_map, length_seq. }
  assert (Hdot1 : dot (mixing_matrix_ ica) sources = Ok D1)
    by (apply dot_ok; assumption).
  assert (Hdot2 : dot unwhiten D1 = Ok D2).
  { apply dot_ok; try assumption. now rewrite HD1len. }
  set (D3 := with_column Qplus D2 (pca_mean_ ica)).
  set (D4 := with_column Qmult D3 (map (hd 0) (pre_whitener_ ica))).
  assert (HD3len : length D3 = length unwhiten)
    by (unfold D3; rewrite with_column_length; lia).
  assert (HD3rows : Forall (fun r => length r = T) D3)
    by (unfold D3; now apply with_column_rows).
  exists D4. split; [|split; [|split]].
  - unfold reconstruct_signal. rewrite Hdot1. cbn [bind]. rewrite Hinv. cbn [bind].
    rewrite Hdot2. cbn [bind]. rewrite in_place_column by lia. cbn [bind]. fold D3.
    rewrite (column_matrix _ Hpwr) at 1.
    apply in_place_column. rewrite length_map. lia.
  - unfold D4. rewrite with_column_length; [exact HD3len|rewrite length_map; lia].
  - unfold D4. now apply with_column_rows.
  - intros ch t Hch Ht. unfold D4.
    rewrite (with_column_entry _ _ _ T) by (rewrite ?length_map; (assumption || lia)).
    unfold D3. rewrite (with_column_entry _ _ _ T) by (assumption || lia).
    rewrite column_matrix_entry. unfold reconstructed_entry. f_equal. f_equal.
    unfold D2. rewrite (dot_entry unwhiten D1 T) by (rewrite ?HD1len; assumption).
    unfold product_entry at 1. rewrite HD1len. f_equal.
    apply map_ext_in. intros j Hj. apply in_seq in Hj. f_equal.
    unfold D1. rewrite (dot_entry (mixing_matrix_ ica) sources T); try assumption.
    + reflexivity.
    + lia.
Qed.

(** *** A concrete run *)

Lemma reconstruct_in_order_witness :
  exists data,
    reconstruct_signal inv2 sources2 ica2 = Ok data /\
    length data = 2%nat /\
    Forall (fun r => length r = 3%nat) data /\
    forall ch t, (ch < 2)%nat -> (t < 3)%nat ->
      entry data ch t
      = reconstructed_entry ica2 [[4 # 8; 0 # 8]; [0 # 8; 2 # 8]] sources2 2 ch t.
Proof.
  refine (reconstruct_in_order inv2 sources2 ica2
            [[4 # 8; 0 # 8]; [0 # 8; 2 # 8]] 3 _ _ _ _ _ _ _ _ _).
  - vm_compute. reflexivity.
  - repeat constructor.
  - reflexivity.
  - reflexivity.
  - repeat constructor.
  - repeat constructor.
  - reflexivity.
  - reflexivity.
  - repeat constructor.
Defined.

(** The order of the last two steps shows in the result: the mean is added
    before the scale factor is applied, so it is scaled with the signal. *)
Lemma mean_is_scaled_too :
  exists data,
    reconstruct_signal inv2 sources2 ica2 = Ok data /\
    entry data 0 0 == ((1 # 2) + 10) * 3 /\
    ~ entry data 0 0 == (1 # 2) * 3 + 10.
Proof.
  eexists. split; [vm_compute; reflexivity|]. split.
  - vm_compute. reflexivity.
  - intros C. vm_compute in C. discriminate C.
Qed.

End ReconstructorFacts.

(** * Further properties of the segmenter *)

Module SegmenterMore.
Import Segmenter.
Import SegmenterFacts.

(** X5.  The paired-marker convention, marker by marker: the [i]-th
    [BREAK_START] marker gives an exclusion that starts at its own offset
    and ends at the offset of the marker at position [k], where [k + 1] is
    the position of the [i]-th [BREAK_STOP] marker counted from the second
    event on: the indices of line 103 are taken on [evs[1:]] and used on
    [evs]. *)
Theorem paired_break_interval (e0 : event) (rest : list event) (eeg : recording)
    (i : nat) (idx k : Z) :
  np_where "REST_REWET" (e0 :: rest) = [] ->
  stops_cover_starts (e0 :: rest) ->
  nth_error (np_where "BREAK_START" (removelast (e0 :: rest))) i = Some idx ->
  nth_error (np_where "BREAK_STOP" (tl (e0 :: rest))) i = Some k ->
  (exists stop, nth_error (e0 :: rest) (Z.to_nat (k + 1)) = Some stop /\
                is_type "BREAK_STOP" stop = true) /\
  exists onsets offsets ss,
    mark_exclusions (e0 :: rest) eeg = Ok (onsets, offsets, ss) /\
    length onsets = length offsets /\
    let pre := (length onsets
                - length (np_where "BREAK_START" (removelast (e0 :: rest))))%nat in
    nth_error onsets (pre + i) = Some (offset_at (e0 :: rest) idx) /\
    nth_error offsets (pre + i) = Some (offset_at (e0 :: rest) k).
Proof.
  intros Hr Hc Hi Hk. set (evs := e0 :: rest) in *.
  split; [apply (stops_valid_in evs k), (nth_error_In _ _ Hk)|].
  pose proof (mark_exclusions_paired e0 rest eeg Hr) as Hm. fold evs in Hm.
  assert (Hlen0 : length (fst (fst (session_marks e0 (last evs e0) eeg)))
                  = length (snd (fst (session_marks e0 (last evs e0) eeg)))).
  { unfold session_marks.
    destruct (is_type "SESS_START" e0), (is_type "SESS_END" (last evs e0)); reflexivity. }
  assert (Hlen1 : length (fst (open_break_marks e0 (last evs e0) eeg))
                  = length (snd (open_break_marks e0 (last evs e0) eeg))).
  { unfold open_break_marks.
    destruct (is_type "BREAK_STOP" e0), (is_type "BREAK_START" (last evs e0)); reflexivity. }
  destruct (session_marks e0 (last evs e0) eeg) as [[on0 off0] ss].
  destruct (open_break_marks e0 (last evs e0) eeg) as [on1 off1].
  cbn [fst snd] in Hlen0, Hlen1.
  set (starts := np_where "BREAK_START" (removelast evs)) in *.
  set (stops := np_where "BREAK_STOP" (tl evs)) in *.
  assert (Hpos : (0 <? Z.of_nat (length starts)) = true).
  { apply Z.ltb_lt. destruct starts; [destruct i; discriminate|simpl; lia]. }
  rewrite Hpos in Hm. unfold enumerate in Hm.
  change 0 with (Z.of_nat 0) in Hm.
  rewrite (foldM_pair_step_exact evs stops) in Hm.
  - cbn [bind fst snd skipn] in Hm.
    exists (on0 ++ on1 ++ map (offset_at evs) starts),
           (off0 ++ off1 ++ map (offset_at evs) (firstn (length starts) stops)),
           ss.
    split; [now rewrite !app_assoc|].
    replace (length (on0 ++ on1 ++ map (offset_at evs) starts) - length starts)%nat
      with (length on0 + length on1)%nat
      by (rewrite !length_app, length_map; lia).
    cbv zeta. split; [|split].
    + rewrite !length_app, !length_map, length_firstn.
      unfold stops_cover_starts in Hc. fold evs starts stops in Hc. lia.
    + rewrite app_assoc, nth_error_app2 by (rewrite length_app; lia).
      rewrite length_app.
      replace (length on0 + length on1 + i - (length on0 + length on1))%nat with i by lia.
      now apply map_nth_error.
    + rewrite app_assoc, nth_error_app2 by (rewrite length_app; lia).
      rewrite length_app.
      replace (length on0 + length on1 + i - (length off0 + length off1))%nat with i by lia.
      apply map_nth_error. rewrite nth_error_firstn.
      assert (i < length starts)%nat by (apply nth_error_Some; congruence).
      destruct (Nat.ltb_spec i (length starts)); [exact Hk|lia].
  - intros kk Hin. apply stops_valid_in in Hin. lia.
  - apply starts_valid.
  - exact Hc.
Qed.

(** X6.  A [BREAK_START] marker without its [BREAK_STOP]: when the start
    markers before the last event outnumber the stop markers after the
    first, marking the exclusions raises [IndexError], and so does the
    segmentation. *)
Theorem unmatched_break_start_raises (e0 : event) (rest : list event) (eeg : recording) :
  np_where "REST_REWET" (e0 :: rest) = [] ->
  (length (np_where "BREAK_STOP" (tl (e0 :: rest)))
     < length (np_where "BREAK_START" (removelast (e0 :: rest))))%nat ->
  mark_exclusions (e0 :: rest) eeg = Raise IndexError /\
  segment true (e0 :: rest) eeg = Raise IndexError.
Proof.
  intros Hr Hlt. set (evs := e0 :: rest) in *.
  assert (Hm : mark_exclusions evs eeg = Raise IndexError).
  { pose proof (mark_exclusions_paired e0 rest eeg Hr) as Hm. fold evs in Hm.
    destruct (session_marks e0 (last evs e0) eeg) as [[on0 off0] ss].
    destruct (open_break_marks e0 (last evs e0) eeg) as [on1 off1].
    set (starts := np_where "BREAK_START" (removelast evs)) in *.
    set (stops := np_where "BREAK_STOP" (tl evs)) in *.
    assert (Hpos : (0 <? Z.of_nat (length starts)) = true) by (apply Z.ltb_lt; lia).
    rewrite Hpos in Hm. unfold enumerate in Hm. change 0 with (Z.of_nat 0) in Hm.
    rewrite (foldM_pair_step_runs_out evs stops) in Hm; [exact Hm| | |lia].
    - intros kk Hin. apply stops_valid_in in Hin. lia.
    - apply starts_valid. }
  split; [exact Hm|]. unfold segment, excluded_periods. now rewrite Hm.
Qed.


(** *** What the segmentation never returns *)

Lemma annotate_raises (eeg : recording) (onsets offsets : list Z) (floats : bool) :
  length onsets <> length offsets ->
  exists e, annotate eeg onsets offsets floats = Raise e /\
            (e = IndexError \/ e = ValueError).
Proof.
  intros Hl. unfold annotate.
  destruct (times_take eeg false onsets) as [a|r] eqn:Ea; cbn [bind].
  2:{ exists r. split; [reflexivity|left; eapply times_take_raises; eauto]. }
  destruct (times_take eeg floats offsets) as [b|r] eqn:Eb; cbn [bind].
  2:{ exists r. split; [reflexivity|left; eapply times_take_raises; eauto]. }
  apply times_take_length in Ea, Eb. destruct Ea as [Ea _], Eb as [Eb _].
  destruct (Nat.eqb_spec (length a) (length b)); [lia|].
  exists ValueError. split; [reflexivity|now right].
Qed.

Lemma np_sort_length (l : list Z) : length (np_sort l) = length l.
Proof. symmetry. apply Permutation_length, np_sort_perm. Qed.

(** X7.  Under the single-marker convention a recording that holds the start or
    the end of the session is never segmented: line 107 replaces [onsets]
    while [offsets] keeps the entries of lines 94 and 97, and the two lists
    no longer have one length. *)
Theorem single_marker_with_session_raises (e0 : event) (rest : list event)
    (eeg : recording) :
  np_where "REST_REWET" (e0 :: rest) <> [] ->
  is_type "SESS_START" e0 = true \/ is_type "SESS_END" (last (e0 :: rest) e0) = true ->
  exists e,
    excluded_periods (e0 :: rest) eeg = Raise e /\
    segment true (e0 :: rest) eeg = Raise e /\
    (e = IndexError \/ e = ValueError).
Proof.
  intros Hne Hs. set (evs := e0 :: rest) in *.
  pose proof (mark_exclusions_rest e0 rest eeg Hne) as Hm. cbv zeta in Hm. fold evs in Hm.
  assert (Hoff : (1 <= length (snd (fst (session_marks e0 (last evs e0) eeg))))%nat).
  { unfold session_marks.
    destruct (is_type "SESS_START" e0), (is_type "SESS_END" (last evs e0));
      cbn [fst snd app length]; try lia. }
  destruct (session_marks e0 (last evs e0) eeg) as [[on0 off0] ss]. cbn [fst snd] in Hoff.
  destruct (annotate_raises eeg
              (np_sort (map (offset_at evs) (np_where "REST_REWET" evs)))
              (np_sort (off0 ++ map (rest_end (n_times eeg - 1) evs eeg)
                                    (np_where "REST_REWET" evs)))
              (offsets_hold_float evs eeg))
    as [e [He Hk]].
  { rewrite !np_sort_length, length_app, !length_map. lia. }
  exists e. unfold segment, excluded_periods. rewrite Hm. cbn [bind]. rewrite He.
  repeat split; auto.
Qed.


Lemma foldM_pair_step_offsets (evs : list event) (stops : list Z) (P : Z -> Prop) :
  (forall e, In e evs -> P (eegoffset e)) ->
  forall (its : list (Z * Z)) (st st' : list Z * list Z),
    foldM (pair_step evs stops) its st = Ok st' ->
    Forall P (snd st) -> Forall P (snd st').
Proof.
  intros HP. induction its as [|[i idx] its IH]; intros [on off] st' H Hf.
  - simpl in H. now injection H as <-.
  - cbn [foldM] in H. unfold pair_step at 1 in H.
    destruct (getitem evs idx) as [bs|]; cbn [bind] in H; [|discriminate].
    destruct (getitem stops i) as [k|]; cbn [bind] in H; [|discriminate].
    destruct (getitem evs k) as [be|] eqn:Ek; cbn [bind] in H; [|discriminate].
    apply (IH _ _ H). cbn [snd] in *. apply Forall_app. split; [exact Hf|].
    constructor; [|constructor]. apply HP. eapply getitem_in; eauto.
Qed.

Lemma rest_end_after_onset (last_end : Z) (evs : list event) (eeg : recording) (idx : Z) :
  offset_at evs idx <= rest_end last_end evs eeg idx.
Proof.
  unfold rest_end.
  destruct (Z.of_nat (length evs) =? idx + 1);
    match goal with |- context [?a <? ?b] => destruct (Z.ltb_spec a b) end; lia.
Qed.

(** No offset handed to the splitting loop is negative when the markers
    lie inside the recording. *)
Lemma marked_offsets_nonneg (evs : list event) (eeg : recording)
    (onsets offsets : list Z) (ss : bool) :
  in_recording eeg evs ->
  mark_exclusions evs eeg = Ok (onsets, offsets, ss) ->
  Forall (fun o => 0 <= o) offsets.
Proof.
  intros Hin Hm. destruct evs as [|e0 rest]; [discriminate Hm|].
  set (evs := e0 :: rest) in *.
  assert (Hev : forall e, In e evs -> 0 <= eegoffset e <= n_times eeg - 1).
  { unfold in_recording in Hin. now rewrite Forall_forall in Hin. }
  assert (He0 : In e0 evs) by now left.
  assert (Hel : In (last evs e0) evs) by (apply last_in_list; discriminate).
  pose proof (Hev _ He0) as B0. pose proof (Hev _ Hel) as Bl.
  assert (Hs : Forall (fun o => 0 <= o) (snd (fst (session_marks e0 (last evs e0) eeg)))).
  { unfold session_marks.
    destruct (is_type "SESS_START" e0), (is_type "SESS_END" (last evs e0));
      cbn [fst snd app]; repeat apply Forall_cons; try apply Forall_nil; lia. }
  destruct (np_where "REST_REWET" evs) as [|r rs] eqn:Hr.
  - pose proof (mark_exclusions_paired e0 rest eeg Hr) as Hp. fold evs in Hp.
    rewrite Hp in Hm. clear Hp.
    assert (Hb : Forall (fun o => 0 <= o) (snd (open_break_marks e0 (last evs e0) eeg))).
    { unfold open_break_marks.
      destruct (is_type "BREAK_STOP" e0), (is_type "BREAK_START" (last evs e0));
        cbn [fst snd app]; repeat apply Forall_cons; try apply Forall_nil; lia. }
    destruct (session_marks e0 (last evs e0) eeg) as [[on0 off0] ss0].
    destruct (open_break_marks e0 (last evs e0) eeg) as [on1 off1].
    cbn [fst snd] in Hs, Hb.
    destruct (0 <? Z.of_nat (length (np_where "BREAK_START" (removelast evs)))).
    + destruct (foldM _ _ _) as [st|] eqn:Ef; cbn [bind] in Hm; [|discriminate].
      injection Hm as <- <- <-.
      apply (foldM_pair_step_offsets evs _ (fun o => 0 <= o)) in Ef.
      * exact Ef.
      * intros e He. specialize (Hev e He). lia.
      * cbn [snd]. apply Forall_app. now split.
    + injection Hm as <- <- <-. exact Hs.
  - assert (Hne : np_where "REST_REWET" evs <> []) by (rewrite Hr; discriminate).
    pose proof (mark_exclusions_rest e0 rest eeg Hne) as Hp. cbv zeta in Hp.
    fold evs in Hp. rewrite Hp in Hm. clear Hp.
    destruct (session_marks e0 (last evs e0) eeg) as [[on0 off0] ss0].
    cbn [fst snd] in Hs. rewrite Hr in Hm. injection Hm as <- <- <-.
    apply Forall_app. split; [exact Hs|].
    apply Forall_forall. intros o Ho.
    apply (in_map_iff (rest_end (n_times eeg - 1) evs eeg) (r :: rs)) in Ho.
    destruct Ho as [idx [<- Hidx]].
    pose proof (rest_end_after_onset (n_times eeg - 1) evs eeg idx).
    rewrite <- Hr in Hidx. apply np_where_spec in Hidx. destruct Hidx as [Hb [e [He _]]].
    assert (0 <= offset_at evs idx).
    { unfold offset_at. rewrite He. apply Hev. eapply nth_error_In; eauto. }
    lia.
Qed.

(** The state the splitting loop ends in, when it ends: no piece, or one
    piece from sample 0 to a stop whose successor is still a sample. *)
Lemma split_loop_piece (eeg : recording) (ss : bool) (offsets : list Z) (st : loop_state) :
  foldM (phase_step eeg ss) (enumerate offsets)
        {| eeg_list := []; ica_list := []; start := Sample 0 |} = Ok st ->
  eeg_list st = [] \/
  exists stop tmax nxt,
    In stop offsets /\
    index (n_times eeg) stop = Ok tmax /\ index (n_times eeg) (stop + 1) = Ok nxt /\
    eeg_list st = [(0, tmax)].
Proof.
  set (st0 := {| eeg_list := []; ica_list := []; start := Sample 0 |}).
  assert (Hcut : forall i stop l st1,
            phase_step eeg false st0 (i, stop) = Ok st1 ->
            (forall it, In it l -> 1 <= fst it) ->
            foldM (phase_step eeg ss) l st1 = Ok st ->
            exists tmax nxt,
              index (n_times eeg) stop = Ok tmax /\
              index (n_times eeg) (stop + 1) = Ok nxt /\ eeg_list st = [(0, tmax)]).
  { intros i stop l st1 H1 Hl H2. unfold phase_step in H1. rewrite andb_false_r in H1.
    cbn [start st0 times_getitem] in H1.
    destruct (index (n_times eeg) 0) as [tmin|] eqn:E0; cbn [bind] in H1; [|discriminate].
    assert (tmin = 0).
    { unfold index in E0. destruct ((0 <=? 0) && (0 <? n_times eeg)); [congruence|].
      destruct ((- n_times eeg <=? 0) && (0 <? 0)) eqn:E; [|discriminate].
      apply andb_true_iff in E. destruct E as [_ E]. discriminate. }
    subst tmin.
    destruct (index (n_times eeg) stop) as [tmax|]; cbn [bind] in H1; [|discriminate].
    destruct (index (n_times eeg) (stop + 1)) as [nxt|]; cbn [bind] in H1; [|discriminate].
    injection H1 as <-. exists tmax, nxt. split; [reflexivity|]. split; [reflexivity|].
    destruct l as [|it l].
    - now injection H2 as <-.
    - rewrite (phase_step_after_first eeg ss _ nxt) in H2;
        [discriminate|reflexivity|exact Hl|discriminate]. }
  unfold enumerate. destruct offsets as [|s0 rest]; cbn [enumerate_from foldM].
  - intros H. injection H as <-. now left.
  - destruct ss.
    + assert (Hskip : phase_step eeg true st0 (0, s0) = Ok st0) by reflexivity.
      rewrite Hskip. cbn [bind].
      destruct rest as [|s1 rest]; cbn [enumerate_from foldM].
      * intros H. injection H as <-. now left.
      * intros H.
        destruct (phase_step eeg true st0 (0 + 1, s1)) as [st1|] eqn:E1;
          cbn [bind] in H; [|discriminate].
        destruct (Hcut (0 + 1) s1 (enumerate_from (0 + 1 + 1) rest) st1)
          as [tmax [nxt [Ha [Hb Hc]]]];
          [unfold phase_step in E1 |- *; now rewrite andb_false_r
          |intros it Hit; apply enumerate_from_fst in Hit; lia|exact H|].
        right. exists s1, tmax, nxt. repeat split; auto. right. now left.
    + intros H.
      destruct (phase_step eeg false st0 (0, s0)) as [st1|] eqn:E1;
        cbn [bind] in H; [|discriminate].
      destruct (Hcut 0 s0 (enumerate_from (0 + 1) rest) st1 E1)
        as [tmax [nxt [Ha [Hb Hc]]]];
        [intros it Hit; apply enumerate_from_fst in Hit; lia|exact H|].
      right. exists s0, tmax, nxt. repeat split; auto. now left.
Qed.

(** X2.  With [skip_breaks] set and the markers inside the recording, the last
    sample of the recording is in no piece the segmentation returns: the
    loop cuts a piece only up to a stop it can step past (line 165), and
    never adds the piece that follows the last stop. *)
Theorem split_never_reaches_last_sample (evs : list event) (eeg : recording)
    (seg : segmentation) :
  in_recording eeg evs ->
  segment true evs eeg = Ok seg ->
  ~ In (n_times eeg - 1) (concatenated (phases seg)) /\
  concatenated (phases seg) <> all_samples eeg.
Proof.
  intros Hin Hseg.
  assert (Hn : 1 <= n_times eeg).
  { destruct evs as [|e0 rest]; [discriminate Hseg|].
    unfold in_recording in Hin. apply Forall_inv in Hin. lia. }
  assert (Hno : ~ In (n_times eeg - 1) (concatenated (phases seg))).
  { unfold segment, excluded_periods in Hseg.
    destruct (mark_exclusions evs eeg) as [[[on off] ss]|] eqn:Em;
      cbn [bind] in Hseg; [|discriminate].
    destruct (annotate eeg (np_sort on) (np_sort off) _) as [ann|];
      cbn [bind] in Hseg; [|discriminate].
    destruct (foldM _ _ _) as [st|] eqn:Ef; cbn [bind] in Hseg; [|discriminate].
    injection Hseg as <-. cbn [phases].
    pose proof (marked_offsets_nonneg evs eeg on off ss Hin Em) as Hoff.
    destruct (split_loop_piece eeg ss (np_sort off) st Ef)
      as [->|[stop [tmax [nxt [Hs [H1 [H2 ->]]]]]]]; [intros []|].
    assert (0 <= stop).
    { rewrite Forall_forall in Hoff. apply Hoff.
      eapply Permutation_in; [apply Permutation_sym, np_sort_perm|exact Hs]. }
    assert (stop + 1 < n_times eeg /\ tmax = stop).
    { unfold index in H1, H2.
      destruct (Z.leb_spec 0 stop); [|lia]. destruct (Z.leb_spec 0 (stop + 1)); [|lia].
      destruct (Z.ltb_spec stop (n_times eeg)); cbn [andb] in H1.
      - injection H1 as <-.
        destruct (Z.ltb_spec (stop + 1) (n_times eeg)); cbn [andb] in H2; [lia|].
        destruct (Z.ltb_spec (stop + 1) 0); [lia|].
        rewrite andb_false_r in H2. discriminate.
      - destruct (Z.ltb_spec stop 0); [lia|]. rewrite andb_false_r in H1. discriminate. }
    unfold concatenated. cbn [flat_map]. rewrite app_nil_r. unfold piece_samples.
    intros H'. apply in_map_iff in H'. destruct H' as [k [Hk Hk']].
    apply in_seq in Hk'. cbn [fst snd] in Hk, Hk'. lia. }
  split; [exact Hno|]. intros Heq. apply Hno. rewrite Heq.
  unfold all_samples. apply in_map_iff. exists (Z.to_nat (n_times eeg - 1)).
  split; [lia|]. apply in_seq. lia.
Qed.


(** *** Recordings that end in an exclusion, or hold none *)

Lemma foldM_pair_step_extends (evs : list event) (stops : list Z) :
  forall (its : list (Z * Z)) (st st' : list Z * list Z),
    foldM (pair_step evs stops) its st = Ok st' ->
    exists oy, snd st' = snd st ++ oy.
Proof.
  induction its as [|[i idx] its IH]; intros [on off] st' H.
  - simpl in H. injection H as <-. exists []. now rewrite app_nil_r.
  - cbn [foldM] in H. unfold pair_step at 1 in H.
    destruct (getitem evs idx) as [bs|]; cbn [bind] in H; [|discriminate].
    destruct (getitem stops i) as [k|]; cbn [bind] in H; [|discriminate].
    destruct (getitem evs k) as [be|]; cbn [bind] in H; [|discriminate].
    destruct (IH _ _ H) as [oy Hoy]. cbn [snd] in *.
    exists ([eegoffset be] ++ oy). now rewrite Hoy, <- app_assoc.
Qed.

(** The offsets of a recording whose last marker is [SESS_END] hold the
    last sample, and hold two entries when the first marker is
    [SESS_START]. *)
Lemma session_end_offsets (e0 : event) (rest : list event) (eeg : recording)
    (onsets offsets : list Z) (ss : bool) :
  is_type "SESS_END" (last (e0 :: rest) e0) = true ->
  mark_exclusions (e0 :: rest) eeg = Ok (onsets, offsets, ss) ->
  In (n_times eeg - 1) offsets /\ (ss = true -> (2 <= length offsets)%nat).
Proof.
  intros Hend Hm. set (evs := e0 :: rest) in *.
  assert (Hs : exists off0 on0,
             session_marks e0 (last evs e0) eeg = (on0, off0, is_type "SESS_START" e0) /\
             In (n_times eeg - 1) off0 /\
             (is_type "SESS_START" e0 = true -> (2 <= length off0)%nat)).
  { unfold session_marks. rewrite Hend.
    destruct (is_type "SESS_START" e0); eexists; eexists;
      (split; [reflexivity|]); cbn [app length In]; split; auto; intros; try lia;
      discriminate. }
  destruct Hs as [off0 [on0 [Hs [Hin Hlen]]]].
  destruct (np_where "REST_REWET" evs) as [|r rs] eqn:Hr.
  - pose proof (mark_exclusions_paired e0 rest eeg Hr) as Hp. fold evs in Hp.
    rewrite Hp, Hs in Hm. clear Hp.
    destruct (open_break_marks e0 (last evs e0) eeg) as [on1 off1].
    destruct (0 <? Z.of_nat (length (np_where "BREAK_START" (removelast evs)))).
    + destruct (foldM _ _ _) as [st|] eqn:Ef; cbn [bind] in Hm; [|discriminate].
      injection Hm as <- <- <-.
      destruct (foldM_pair_step_extends _ _ _ _ _ Ef) as [oy ->]. cbn [snd].
      split.
      * apply in_or_app. left. apply in_or_app. now left.
      * intros H. specialize (Hlen H). rewrite !length_app. lia.
    + injection Hm as <- <- <-. now split.
  - assert (Hne : np_where "REST_REWET" evs <> []) by (rewrite Hr; discriminate).
    pose proof (mark_exclusions_rest e0 rest eeg Hne) as Hp. cbv zeta in Hp.
    fold evs in Hp. rewrite Hp, Hs in Hm. clear Hp.
    injection Hm as <- <- <-. split.
    + apply in_or_app. now left.
    + intros H. specialize (Hlen H). rewrite length_app. lia.
Qed.

(** The stops the loop of lines 154-165 can go through without raising:
    none, or one whose successor is still a sample of the recording. *)
Lemma split_loop_stops (eeg : recording) (ss : bool) (offsets : list Z) (st : loop_state) :
  foldM (phase_step eeg ss) (enumerate offsets)
        {| eeg_list := []; ica_list := []; start := Sample 0 |} = Ok st ->
  match skipn (if ss then 1 else 0)%nat offsets with
  | [] => True
  | [stop] => exists tmax nxt, index (n_times eeg) stop = Ok tmax /\
                               index (n_times eeg) (stop + 1) = Ok nxt
  | _ => False
  end.
Proof.
  set (st0 := {| eeg_list := []; ica_list := []; start := Sample 0 |}).
  assert (Hcut : forall i stop l st1,
            phase_step eeg false st0 (i, stop) = Ok st1 ->
            (forall it, In it l -> 1 <= fst it) ->
            foldM (phase_step eeg ss) l st1 = Ok st ->
            l = [] /\
            exists tmax nxt, index (n_times eeg) stop = Ok tmax /\
                             index (n_times eeg) (stop + 1) = Ok nxt).
  { intros i stop l st1 H1 Hl H2. unfold phase_step in H1. rewrite andb_false_r in H1.
    cbn [start st0 times_getitem] in H1.
    destruct (index (n_times eeg) 0) as [tmin|]; cbn [bind] in H1; [|discriminate].
    destruct (index (n_times eeg) stop) as [tmax|]; cbn [bind] in H1; [|discriminate].
    destruct (index (n_times eeg) (stop + 1)) as [nxt|]; cbn [bind] in H1; [|discriminate].
    injection H1 as <-. split; [|now exists tmax, nxt].
    destruct l as [|it l]; [reflexivity|].
    rewrite (phase_step_after_first eeg ss _ nxt) in H2;
      [discriminate|reflexivity|exact Hl|discriminate]. }
  unfold enumerate. destruct offsets as [|s0 rest]; cbn [enumerate_from foldM].
  - intros _. now destruct ss.
  - destruct ss.
    + assert (Hskip : phase_step eeg true st0 (0, s0) = Ok st0) by reflexivity.
      rewrite Hskip. cbn [bind skipn].
      destruct rest as [|s1 rest]; cbn [enumerate_from foldM]; [trivial|].
      intros H.
      destruct (phase_step eeg true st0 (0 + 1, s1)) as [st1|] eqn:E1;
        cbn [bind] in H; [|discriminate].
      destruct (Hcut (0 + 1) s1 (enumerate_from (0 + 1 + 1) rest) st1)
        as [Hnil Hidx];
        [unfold phase_step in E1 |- *; now rewrite andb_false_r
        |intros it Hit; apply enumerate_from_fst in Hit; lia|exact H|].
      destruct rest; [exact Hidx|discriminate].
    + intros H. cbn [skipn].
      destruct (phase_step eeg false st0 (0, s0)) as [st1|] eqn:E1;
        cbn [bind] in H; [|discriminate].
      destruct (Hcut 0 s0 (enumerate_from (0 + 1) rest) st1 E1) as [Hnil Hidx];
        [intros it Hit; apply enumerate_from_fst in Hit; lia|exact H|].
      destruct rest; [exact Hidx|discriminate].
Qed.

Lemma index_ok_below (len i t : Z) : index len i = Ok t -> i < len.
Proof.
  unfold index. destruct (Z.ltb_spec i len); [lia|]. rewrite andb_false_r.
  destruct (Z.ltb_spec i 0); [|rewrite andb_false_r; discriminate].
  destruct (Z.leb_spec (- len) i); [lia|discriminate].
Qed.

(** X3.  With [skip_breaks] set, a recording whose last marker is
    [SESS_END] is never segmented: line 97 makes the last sample a stop, and
    the loop of lines 154-165 either reads the time stamp after it (line
    165) or has already replaced [start] by a time stamp; either way an
    exception is raised. *)
Theorem session_end_marker_raises (e0 : event) (rest : list event) (eeg : recording) :
  is_type "SESS_END" (last (e0 :: rest) e0) = true ->
  exists e, segment true (e0 :: rest) eeg = Raise e.
Proof.
  intros Hend. destruct (segment true (e0 :: rest) eeg) as [seg|e] eqn:Hseg;
    [exfalso|now exists e].
  unfold segment, excluded_periods in Hseg.
  destruct (mark_exclusions (e0 :: rest) eeg) as [[[on off] ss]|] eqn:Em;
    cbn [bind] in Hseg; [|discriminate].
  destruct (annotate eeg (np_sort on) (np_sort off) _) as [ann|];
    cbn [bind] in Hseg; [|discriminate].
  destruct (foldM _ _ _) as [st|] eqn:Ef; cbn [bind] in Hseg; [|discriminate].
  destruct (session_end_offsets e0 rest eeg on off ss Hend Em) as [Hin Hlen].
  apply split_loop_stops in Ef.
  pose proof (np_sort_sorted off) as Hsorted.
  pose proof (np_sort_length off) as Hl.
  assert (Hin' : In (n_times eeg - 1) (np_sort off))
    by (eapply Permutation_in; [apply np_sort_perm|exact Hin]).
  set (k := (if ss then 1 else 0)%nat) in *.
  assert (Hk : (k < length (np_sort off))%nat).
  { rewrite Hl. unfold k. destruct ss; [specialize (Hlen eq_refl); lia|].
    destruct off; [contradiction|simpl; lia]. }
  rewrite <- (firstn_skipn k (np_sort off)) in Hsorted, Hin'.
  destruct (skipn k (np_sort off)) as [|stop [|s2 tl]] eqn:Es; try contradiction.
  - apply (f_equal (@length Z)) in Es. rewrite length_skipn in Es. simpl in Es. lia.
  - destruct Ef as [tmax [nxt [H1 H2]]].
    apply index_ok_below in H1, H2.
    assert (n_times eeg - 1 <= stop).
    { apply in_app_or in Hin'. destruct Hin' as [Hin'|[<-|[]]]; [|lia].
      apply (sorted_snoc_last Z.le _ _ Hsorted _ Hin'). }
    lia.
Qed.

(** X4.  With [skip_breaks] set, a recording that opens with
    [SESS_START], holds no break marker the code reads ([REST_REWET]
    anywhere, [BREAK_START] before the last marker) and does not end with
    [SESS_END] yields no piece at all: the only stop is the one of
    [SESS_START], which the loop skips (line 156), so that nothing is left
    to clean. *)
Theorem unbroken_recording_yields_no_piece (e0 : event) (rest : list event)
    (eeg : recording) :
  is_type "SESS_START" e0 = true ->
  is_type "SESS_END" (last (e0 :: rest) e0) = false ->
  np_where "REST_REWET" (e0 :: rest) = [] ->
  np_where "BREAK_START" (removelast (e0 :: rest)) = [] ->
  0 <= eegoffset e0 < n_times eeg ->
  segment true (e0 :: rest) eeg
  = Ok {| annotations := [(0, eegoffset e0)]; phases := []; fits := [] |}.
Proof.
  intros Hs Hend Hr Hb Hoff.
  pose proof (mark_exclusions_paired e0 rest eeg Hr) as Hp.
  rewrite Hb in Hp. cbn [length Z.of_nat Z.ltb Z.compare] in Hp.
  unfold session_marks in Hp. rewrite Hend, Hs in Hp.
  destruct (open_break_marks e0 (last (e0 :: rest) e0) eeg) as [on1 off1].
  unfold segment, excluded_periods. rewrite Hp. cbn [bind].
  change (np_sort [0]) with [0]. change (np_sort [eegoffset e0]) with [eegoffset e0].
  unfold offsets_hold_float. rewrite Hr. cbn [existsb].
  rewrite annotate_in_range; [reflexivity|discriminate| | |reflexivity].
  - repeat constructor; lia.
  - repeat constructor; lia.
Qed.

(** *** Concrete runs *)

Definition pyepl_markers : list event :=
  [ev "WORD" 1000; ev "REST_REWET" 3000; ev "WORD" 9000].

Lemma paired_break_interval_witness :
  nth_error (np_where "BREAK_START" (removelast (ev "SESS_START" 100 :: session_with_break)))
            0 = Some 1 /\
  nth_error (np_where "BREAK_STOP" (tl (ev "SESS_START" 100 :: session_with_break)))
            0 = Some 2 /\
  offset_at (ev "SESS_START" 100 :: session_with_break) 2 = 3500 /\
  exists onsets offsets ss,
    mark_exclusions (ev "SESS_START" 100 :: session_with_break) rec10000
      = Ok (onsets, offsets, ss) /\
    length onsets = length offsets /\
    let pre := (length onsets
                - length (np_where "BREAK_START"
                            (removelast (ev "SESS_START" 100 :: session_with_break))))%nat in
    nth_error onsets (pre + 0) = Some (offset_at (ev "SESS_START" 100 :: session_with_break) 1) /\
    nth_error offsets (pre + 0) = Some (offset_at (ev "SESS_START" 100 :: session_with_break) 2).
Proof.
  split; [reflexivity|]. split; [reflexivity|]. split; [reflexivity|].
  refine (proj2 (paired_break_interval (ev "SESS_START" 100) session_with_break rec10000
                   0 1 2 _ _ _ _)).
  - reflexivity.
  - unfold stops_cover_starts. vm_compute. lia.
  - reflexivity.
  - reflexivity.
Defined.

Lemma unmatched_break_start_raises_witness :
  mark_exclusions [ev "BREAK_START" 1000; ev "WORD" 2000; ev "WORD" 3000] rec10000
    = Raise IndexError /\
  segment true [ev "BREAK_START" 1000; ev "WORD" 2000; ev "WORD" 3000] rec10000
    = Raise IndexError.
Proof.
  refine (unmatched_break_start_raises (ev "BREAK_START" 1000)
            [ev "WORD" 2000; ev "WORD" 3000] rec10000 _ _).
  - reflexivity.
  - vm_compute. lia.
Defined.

Lemma single_marker_with_session_raises_witness :
  exists e,
    excluded_periods (ev "SESS_START" 100 :: pyepl_markers) rec10000 = Raise e /\
    segment true (ev "SESS_START" 100 :: pyepl_markers) rec10000 = Raise e /\
    (e = IndexError \/ e = ValueError).
Proof.
  refine (single_marker_with_session_raises (ev "SESS_START" 100) pyepl_markers rec10000 _ _).
  - vm_compute. discriminate.
  - left. reflexivity.
Defined.

Lemma mixed_markers_in_recording : in_recording rec10000 mixed_markers.
Proof. unfold in_recording. repeat constructor; simpl; lia. Defined.

Definition mixed_segmentation : segmentation :=
  {| annotations := [(3000, 3001)]; phases := [(0, 3001)];
     fits := [{| fit_first := 0; fit_last := 3001; reject_by_annotation := Some true |}] |}.

Lemma split_never_reaches_last_sample_witness :
  in_recording rec10000 mixed_markers /\
  segment true mixed_markers rec10000 = Ok mixed_segmentation /\
  ~ In (n_times rec10000 - 1) (concatenated (phases mixed_segmentation)) /\
  concatenated (phases mixed_segmentation) <> all_samples rec10000.
Proof.
  assert (H : segment true mixed_markers rec10000 = Ok mixed_segmentation)
    by (vm_compute; reflexivity).
  split; [exact mixed_markers_in_recording|]. split; [exact H|].
  exact (split_never_reaches_last_sample mixed_markers rec10000 mixed_segmentation
           mixed_markers_in_recording H).
Defined.

Lemma split_never_yields_two_phases_witness :
  segment true mixed_markers rec10000 = Ok mixed_segmentation /\
  (length (phases mixed_segmentation) <= 1)%nat.
Proof.
  assert (H : segment true mixed_markers rec10000 = Ok mixed_segmentation)
    by (vm_compute; reflexivity).
  split; [exact H|].
  exact (split_never_yields_two_phases mixed_markers rec10000 mixed_segmentation H).
Defined.

Definition short_rest_break : list event :=
  [ev "WORD" 1000; ev "REST_REWET" 3000; ev "WORD" 3100].

Lemma rest_breaks_annotated_witness :
  excluded_periods pyepl_markers rec10000 = Raise IndexError /\
  excluded_periods short_rest_break rec10000 = Ok ([(3000, 3001)], [3001], false).
Proof.
  split.
  - refine (rest_breaks_annotated (ev "WORD" 1000)
              [ev "REST_REWET" 3000; ev "WORD" 9000] rec10000 _ _ _ _ _ _).
    + vm_compute. discriminate.
    + reflexivity.
    + reflexivity.
    + repeat (constructor; [|repeat constructor; simpl; lia]). constructor.
    + unfold in_recording. repeat constructor; simpl; lia.
    + simpl. lia.
  - refine (rest_breaks_annotated (ev "WORD" 1000)
              [ev "REST_REWET" 3000; ev "WORD" 3100] rec10000 _ _ _ _ _ _).
    + vm_compute. discriminate.
    + reflexivity.
    + reflexivity.
    + repeat (constructor; [|repeat constructor; simpl; lia]). constructor.
    + unfold in_recording. repeat constructor; simpl; lia.
    + simpl. lia.
Defined.

Definition whole_session : list event :=
  [ev "SESS_START" 0; ev "BREAK_START" 3000; ev "BREAK_STOP" 4000; ev "SESS_END" 9999].

Lemma session_end_marker_raises_witness :
  exists e, segment true whole_session rec10000 = Raise e.
Proof.
  refine (session_end_marker_raises (ev "SESS_START" 0)
            [ev "BREAK_START" 3000; ev "BREAK_STOP" 4000; ev "SESS_END" 9999] rec10000 _).
  reflexivity.
Defined.

Definition session_opening : list event :=
  [ev "SESS_START" 100; ev "WORD" 200; ev "WORD" 300].

Lemma unbroken_recording_yields_no_piece_witness :
  segment true session_opening rec10000
  = Ok {| annotations := [(0, 100)]; phases := []; fits := [] |}.
Proof.
  refine (unbroken_recording_yields_no_piece (ev "SESS_START" 100)
            [ev "WORD" 200; ev "WORD" 300] rec10000 _ _ _ _ _).
  - reflexivity.
  - reflexivity.
  - reflexivity.
  - reflexivity.
  - simpl. lia.
Defined.

End SegmenterMore.

Module AnnotationFacts.
Import Segmenter.
Import SegmenterFacts.
Import SegmenterMore.

(** *** Sorting onsets and offsets on their own (lines 138-139) *)

(** The number of entries before [v]. *)
Definition count_before (v : Z) (l : list Z) : nat :=
  length (filter (fun x => x <? v) l).

Lemma count_before_perm (v : Z) (l l' : list Z) :
  Permutation l l' -> count_before v l = count_before v l'.
Proof.
  unfold count_before. induction 1 as [|x l l' _ IH|x y l|l l' l'' _ IH1 _ IH2]; simpl.
  - reflexivity.
  - destruct (x <? v); simpl; now rewrite IH.
  - destruct (x <? v), (y <? v); reflexivity.
  - now rewrite IH1.
Qed.

Lemma count_before_none (v : Z) (l : list Z) :
  Forall (fun x => v <= x) l -> count_before v l = 0%nat.
Proof.
  unfold count_before. induction 1 as [|x l Hx _ IH]; simpl; [reflexivity|].
  destruct (Z.ltb_spec x v); [lia|exact IH].
Qed.

Lemma sorted_count_before (v : Z) (l : list Z) :
  StronglySorted Z.le l ->
  forall i, (i < length l)%nat -> (nth i l 0 < v <-> (i < count_before v l)%nat).
Proof.
  induction 1 as [|x l Hs IH Hx]; intros i Hi; [simpl in Hi; lia|].
  destruct (Z.ltb_spec x v) as [Hlt|Hge].
  - assert (E : count_before v (x :: l) = S (count_before v l)).
    { unfold count_before. simpl. destruct (Z.ltb_spec x v); [reflexivity|lia]. }
    rewrite E. destruct i as [|i]; simpl.
    + split; [lia|intros _; exact Hlt].
    + simpl in Hi. rewrite (IH i) by lia. lia.
  - assert (Hall : Forall (fun y => v <= y) (x :: l)).
    { constructor; [exact Hge|]. eapply Forall_impl; [|exact Hx]. intros y Hy. simpl in Hy. lia. }
    rewrite (count_before_none v _ Hall). split; [|lia].
    intros Hlt.
    assert (Hn : v <= nth i (x :: l) 0).
    { rewrite Forall_forall in Hall. apply Hall. now apply nth_In. }
    lia.
Qed.

Lemma count_before_le (v : Z) (a b : list Z) :
  Forall2 Z.le a b -> (count_before v b <= count_before v a)%nat.
Proof.
  unfold count_before. induction 1 as [|x y a b Hxy _ IH]; simpl; [lia|].
  destruct (Z.ltb_spec y v), (Z.ltb_spec x v); simpl; lia.
Qed.

(** Sorting two lists on their own keeps them in order rank by rank, if
    they were in order entry by entry. *)
Lemma sort_keeps_order (a b : list Z) (i : nat) :
  Forall2 Z.le a b -> (i < length a)%nat ->
  nth i (np_sort a) 0 <= nth i (np_sort b) 0.
Proof.
  intros Hab Hi.
  destruct (Z.lt_ge_cases (nth i (np_sort b) 0) (nth i (np_sort a) 0)) as [Hlt|Hge]; [|lia].
  exfalso.
  assert (Hia : (i < length (np_sort a))%nat) by now rewrite np_sort_length.
  assert (Hib : (i < length (np_sort b))%nat)
    by (rewrite np_sort_length, <- (Forall2_length Hab); exact Hi).
  apply (sorted_count_before _ _ (np_sort_sorted b) i Hib) in Hlt.
  rewrite <- (count_before_perm _ _ _ (np_sort_perm b)) in Hlt.
  pose proof (count_before_le (nth i (np_sort a) 0) a b Hab) as Hle.
  rewrite (count_before_perm _ _ _ (np_sort_perm a)) in Hle.
  assert (Hc : (i < count_before (nth i (np_sort a) 0%Z) (np_sort a))%nat) by lia.
  apply (sorted_count_before _ _ (np_sort_sorted a) i Hia) in Hc. lia.
Qed.

(** X16.  Lines 138-145 sort [onsets] and [offsets] each on its own and
    pair them again by rank.  If there is an excluded period, no end of a
    break is a float, and every period ends no earlier than it starts and
    lies inside the recording, the annotation is built, holds one entry for
    each period, and every entry has a duration that is not negative. *)
Theorem annotations_keep_duration (evs : list event) (eeg : recording)
    (onsets offsets : list Z) (ss : bool) :
  mark_exclusions evs eeg = Ok (onsets, offsets, ss) ->
  onsets <> [] ->
  offsets_hold_float evs eeg = false ->
  Forall2 Z.le onsets offsets ->
  Forall (fun i => 0 <= i <= n_times eeg - 1) onsets ->
  Forall (fun i => 0 <= i <= n_times eeg - 1) offsets ->
  exists ann,
    excluded_periods evs eeg = Ok (ann, np_sort offsets, ss) /\
    length ann = length onsets /\
    Forall (fun p => fst p <= snd p) ann.
Proof.
  intros Hm Hne Hfl Hle Hon Hoff.
  assert (Hl : length onsets = length offsets) by exact (Forall2_length Hle).
  assert (Hin : forall l, Forall (fun i => 0 <= i <= n_times eeg - 1) l ->
                          Forall (fun i => 0 <= i <= n_times eeg - 1) (np_sort l)).
  { intros l H. rewrite Forall_forall in *. intros x Hx. apply H.
    eapply Permutation_in; [apply Permutation_sym, np_sort_perm|exact Hx]. }
  exists (combine (np_sort onsets) (np_sort offsets)). split; [|split].
  - unfold excluded_periods. rewrite Hm, Hfl. cbn [bind].
    rewrite annotate_in_range;
      [reflexivity|now apply np_sort_nonempty|now apply Hin|now apply Hin|].
    now rewrite !np_sort_length.
  - rewrite length_combine, !np_sort_length. lia.
  - apply Forall_forall. intros [x y] Hp.
    destruct (In_nth _ _ (0, 0) Hp) as [i [Hi Hnth]].
    rewrite length_combine, !np_sort_length in Hi.
    rewrite combine_nth in Hnth by now rewrite !np_sort_length.
    injection Hnth as <- <-. cbn [fst snd].
    apply sort_keeps_order; [exact Hle|lia].
Qed.

Lemma annotations_keep_duration_witness :
  exists ann,
    excluded_periods (ev "SESS_START" 100 :: session_with_break) rec10000
      = Ok (ann, np_sort [100; 9999; 3500], true) /\
    length ann = 3%nat /\
    Forall (fun p => fst p <= snd p) ann.
Proof.
  refine (annotations_keep_duration (ev "SESS_START" 100 :: session_with_break) rec10000
            [0; 9000; 3000] [100; 9999; 3500] true _ _ _ _ _ _).
  - vm_compute. reflexivity.
  - discriminate.
  - reflexivity.
  - repeat constructor; lia.
  - repeat constructor; simpl; lia.
  - repeat constructor; simpl; lia.
Defined.

End AnnotationFacts.

Module BreakFacts.
Import Segmenter.
Import SegmenterFacts.
Import SegmenterMore.

(** *** One break, and more than one *)

Lemma foldM_pair_step_grows (evs : list event) (stops : list Z) :
  forall (its : list (Z * Z)) (st st' : list Z * list Z),
    foldM (pair_step evs stops) its st = Ok st' ->
    length (snd st') = (length (snd st) + length its)%nat.
Proof.
  induction its as [|[i idx] its IH]; intros [on off] st' H.
  - simpl in H. injection H as <-. simpl. lia.
  - cbn [foldM] in H. unfold pair_step at 1 in H.
    destruct (getitem evs idx) as [bs|]; cbn [bind] in H; [|discriminate].
    destruct (getitem stops i) as [k|]; cbn [bind] in H; [|discriminate].
    destruct (getitem evs k) as [be|]; cbn [bind] in H; [|discriminate].
    rewrite (IH _ _ H). cbn [snd length]. rewrite length_app. simpl. lia.
Qed.

Lemma enumerate_from_length {A} (xs : list A) :
  forall k, length (enumerate_from k xs) = length xs.
Proof. induction xs as [|x xs IH]; intros k; simpl; [reflexivity|now rewrite IH]. Qed.

(** The offsets hold one entry for [SESS_START] and one for every break. *)
Lemma offsets_count_breaks (e0 : event) (rest : list event) (eeg : recording)
    (onsets offsets : list Z) (ss : bool) :
  mark_exclusions (e0 :: rest) eeg = Ok (onsets, offsets, ss) ->
  ((if ss then 1 else 0) + length (np_where "REST_REWET" (e0 :: rest)) <= length offsets)%nat /\
  (np_where "REST_REWET" (e0 :: rest) = [] ->
   ((if ss then 1 else 0) + length (np_where "BREAK_START" (removelast (e0 :: rest)))
    <= length offsets)%nat).
Proof.
  intros Hm. set (evs := e0 :: rest) in *.
  assert (Hs : exists on0 off0,
             session_marks e0 (last evs e0) eeg = (on0, off0, is_type "SESS_START" e0) /\
             ((if is_type "SESS_START" e0 then 1 else 0) <= length off0)%nat).
  { unfold session_marks.
    destruct (is_type "SESS_START" e0), (is_type "SESS_END" (last evs e0));
      eexists; eexists; (split; [reflexivity|]); cbn [app length]; lia. }
  destruct Hs as [on0 [off0 [Hs Hlen]]].
  destruct (np_where "REST_REWET" evs) as [|r rs] eqn:Hr.
  - pose proof (mark_exclusions_paired e0 rest eeg Hr) as Hp. fold evs in Hp.
    rewrite Hp, Hs in Hm. clear Hp.
    destruct (open_break_marks e0 (last evs e0) eeg) as [on1 off1].
    destruct (0 <? Z.of_nat (length (np_where "BREAK_START" (removelast evs)))) eqn:Hb.
    + destruct (foldM _ _ _) as [st|] eqn:Ef; cbn [bind] in Hm; [|discriminate].
      injection Hm as <- <- <-.
      apply foldM_pair_step_grows in Ef. cbn [snd] in Ef.
      unfold enumerate in Ef. rewrite enumerate_from_length, length_app in Ef.
      split; [cbn [length]; lia|intros _; lia].
    + injection Hm as <- <- <-. apply Z.ltb_ge in Hb.
      split; [cbn [length]; lia|intros _; lia].
  - assert (Hne : np_where "REST_REWET" evs <> []) by (rewrite Hr; discriminate).
    pose proof (mark_exclusions_rest e0 rest eeg Hne) as Hp. cbv zeta in Hp.
    fold evs in Hp. rewrite Hp, Hs in Hm. clear Hp.
    injection Hm as <- <- <-. rewrite Hr in *.
    split; [|intros C; discriminate C].
    rewrite length_app, length_map. lia.
Qed.

(** X17.  With [skip_breaks] set, a recording with two breaks or more is
    never segmented, under either convention: the parts announced by the
    comment of lines 147-150 are not produced.  After the first piece
    [start] holds a time stamp (line 165), and the next piece cannot be
    cropped. *)
Theorem two_breaks_always_raise (e0 : event) (rest : list event) (eeg : recording) :
  (2 <= length (np_where "REST_REWET" (e0 :: rest)))%nat \/
  (np_where "REST_REWET" (e0 :: rest) = [] /\
   (2 <= length (np_where "BREAK_START" (removelast (e0 :: rest))))%nat) ->
  exists e, segment true (e0 :: rest) eeg = Raise e.
Proof.
  intros Hbreaks. destruct (segment true (e0 :: rest) eeg) as [seg|e] eqn:Hseg;
    [exfalso|now exists e].
  unfold segment, excluded_periods in Hseg.
  destruct (mark_exclusions (e0 :: rest) eeg) as [[[on off] ss]|] eqn:Em;
    cbn [bind] in Hseg; [|discriminate].
  destruct (annotate eeg (np_sort on) (np_sort off) _) as [ann|];
    cbn [bind] in Hseg; [|discriminate].
  destruct (foldM _ _ _) as [st|] eqn:Ef; cbn [bind] in Hseg; [|discriminate].
  destruct (offsets_count_breaks e0 rest eeg on off ss Em) as [Hrest Hpair].
  assert (Hlen : ((if ss then 1 else 0) + 2 <= length (np_sort off))%nat).
  { rewrite np_sort_length. destruct Hbreaks as [H|[H0 H]]; [lia|].
    specialize (Hpair H0). lia. }
  apply split_loop_stops in Ef.
  set (k := (if ss then 1 else 0)%nat) in *.
  assert (Hsk : length (skipn k (np_sort off)) = (length (np_sort off) - k)%nat)
    by apply length_skipn.
  destruct (skipn k (np_sort off)) as [|stop [|s2 tl]]; simpl in Hsk; try contradiction; lia.
Qed.

(** X18.  The run that works: a recording that opens with [SESS_START],
    holds one break marked by [BREAK_START] and [BREAK_STOP], and does not
    end in an exclusion.  The exclusions annotated are the time before the
    session and the break, the latter ending at the marker that precedes
    [BREAK_STOP]; the one piece fitted runs from sample 0 (not from the
    start of the session) to the end recorded for the break, and nothing
    after the break is handed to the LCF stage. *)
Theorem one_break_one_piece (e0 : event) (rest : list event) (eeg : recording)
    (idx k : Z) :
  is_type "SESS_START" e0 = true ->
  is_type "SESS_END" (last (e0 :: rest) e0) = false ->
  is_type "BREAK_START" (last (e0 :: rest) e0) = false ->
  np_where "REST_REWET" (e0 :: rest) = [] ->
  np_where "BREAK_START" (removelast (e0 :: rest)) = [idx] ->
  nth_error (np_where "BREAK_STOP" (tl (e0 :: rest))) 0 = Some k ->
  0 <= eegoffset e0 <= offset_at (e0 :: rest) k ->
  0 <= offset_at (e0 :: rest) idx <= n_times eeg - 1 ->
  offset_at (e0 :: rest) k + 1 <= n_times eeg - 1 ->
  segment true (e0 :: rest) eeg
  = Ok {| annotations := [(0, eegoffset e0);
                          (offset_at (e0 :: rest) idx, offset_at (e0 :: rest) k)];
          phases := [(0, offset_at (e0 :: rest) k)];
          fits := [{| fit_first := 0; fit_last := offset_at (e0 :: rest) k;
                      reject_by_annotation := Some true |}] |}.
Proof.
  intros Hs Hend Hlast Hr Hb Hk Hoff Hidx Hnext. set (evs := e0 :: rest) in *.
  assert (Hstop0 : is_type "BREAK_STOP" e0 = false).
  { unfold is_type in *. apply String.eqb_eq in Hs. rewrite Hs. reflexivity. }
  pose proof (mark_exclusions_paired e0 rest eeg Hr) as Hp. fold evs in Hp.
  unfold session_marks, open_break_marks in Hp.
  rewrite Hs, Hend, Hlast, Hstop0, Hb in Hp.
  cbn [length Z.of_nat Pos.of_succ_nat Z.ltb Z.compare app] in Hp.
  unfold enumerate in Hp. change 0 with (Z.of_nat 0) in Hp at 1.
  destruct (np_where "BREAK_STOP" (tl evs)) as [|k0 stops] eqn:Est; [discriminate|].
  injection Hk as ->.
  rewrite (foldM_pair_step_exact evs (k :: stops)) in Hp.
  - cbn [bind fst snd map app length firstn skipn] in Hp.
    unfold segment, excluded_periods. rewrite Hp. cbn [bind].
    rewrite (np_sort_sorted_id [0; offset_at evs idx])
      by (repeat constructor; lia).
    rewrite (np_sort_sorted_id [eegoffset e0; offset_at evs k])
      by (repeat constructor; lia).
    unfold offsets_hold_float. rewrite Hr. cbn [existsb].
    rewrite annotate_in_range;
      [|discriminate|repeat constructor; lia|repeat constructor; lia|reflexivity].
    cbn [bind combine]. unfold enumerate. cbn [enumerate_from foldM].
    unfold phase_step. cbn [Z.eqb andb bind start times_getitem].
    change ((0 + 1 =? 0) && true) with false. cbv iota.
    rewrite !index_in_range by lia. reflexivity.
  - intros kk Hin. rewrite <- Est in Hin. apply stops_valid_in in Hin. lia.
  - intros i Hin. apply (starts_valid evs). rewrite Hb. exact Hin.
  - simpl. lia.
Qed.

Definition one_break_session : list event :=
  [ev "SESS_START" 100; ev "WORD" 500; ev "BREAK_START" 3000; ev "WORD" 3500;
   ev "BREAK_STOP" 4000; ev "WORD" 5000].

Definition two_break_session : list event :=
  [ev "SESS_START" 100; ev "BREAK_START" 3000; ev "BREAK_STOP" 4000;
   ev "BREAK_START" 6000; ev "BREAK_STOP" 7000; ev "WORD" 8000].

Lemma two_breaks_always_raise_witness :
  exists e, segment true two_break_session rec10000 = Raise e.
Proof.
  refine (two_breaks_always_raise (ev "SESS_START" 100)
            [ev "BREAK_START" 3000; ev "BREAK_STOP" 4000;
             ev "BREAK_START" 6000; ev "BREAK_STOP" 7000; ev "WORD" 8000] rec10000 _).
  right. split; [reflexivity|]. vm_compute. lia.
Defined.

Lemma one_break_one_piece_witness :
  segment true one_break_session rec10000
  = Ok {| annotations := [(0, 100); (3000, 3500)];
          phases := [(0, 3500)];
          fits := [{| fit_first := 0; fit_last := 3500;
                      reject_by_annotation := Some true |}] |}.
Proof.
  refine (one_break_one_piece (ev "SESS_START" 100)
            [ev "WORD" 500; ev "BREAK_START" 3000; ev "WORD" 3500;
             ev "BREAK_STOP" 4000; ev "WORD" 5000] rec10000 2 3 _ _ _ _ _ _ _ _ _).
  - reflexivity.
  - reflexivity.
  - reflexivity.
  - reflexivity.
  - reflexivity.
  - reflexivity.
  - vm_compute. split; discriminate.
  - vm_compute. split; discriminate.
  - vm_compute. discriminate.
Defined.

End BreakFacts.

(** * Further properties of [lcf] *)

Module LcfMore.
Import Np.
Import Lcf.
Import LcfFacts.
Local Open Scope Q_scope.

(** *** Percentiles of a sorted row *)

Lemma Qle_bool_trans : Transitive (fun x y => is_true (Qle_bool x y)).
Proof.
  intros x y z Hxy Hyz. apply Qle_bool_iff in Hxy, Hyz. apply Qle_bool_iff.
  eapply Qle_trans; eauto.
Qed.

Lemma sorted_nth_le (l : list Q) :
  StronglySorted (fun x y => is_true (Qle_bool x y)) l ->
  forall i j, (i <= j < length l)%nat -> nth i l 0 <= nth j l 0.
Proof.
  induction 1 as [|x l Hs IH Hx]; intros i j Hij; [simpl in Hij; lia|].
  destruct j as [|j].
  - replace i with 0%nat by lia. apply Qle_refl.
  - destruct i as [|i].
    + simpl. rewrite Forall_forall in Hx. apply Qle_bool_iff, Hx, nth_In.
      simpl in Hij. lia.
    + simpl. apply IH. simpl in Hij. lia.
Qed.

Lemma sort_nth_le (row : list Q) (i j : nat) :
  (i <= j < length (QSort.sort row))%nat ->
  nth i (QSort.sort row) 0 <= nth j (QSort.sort row) 0.
Proof.
  apply sorted_nth_le. apply QSort.StronglySorted_sort. exact Qle_bool_trans.
Qed.

(** [np.percentile] does not decrease with the rank asked. *)
Lemma percentile_mono (row : list Q) (q1 q2 : Z) :
  (0 <= q1 <= q2)%Z -> (q2 <= 100)%Z -> percentile row q1 <= percentile row q2.
Proof.
  intros Hq Hq2. unfold percentile.
  pose proof (sort_nth_le row) as Hsorted.
  set (ap := QSort.sort row) in *.
  set (Nx := Z.of_nat (length ap)).
  destruct (Z.eq_dec Nx 0) as [H0|H0].
  { assert (Hap : ap = []) by (destruct ap; [reflexivity|unfold Nx in H0; simpl in H0; lia]).
    rewrite Hap. destruct (Z.to_nat _), (Z.to_nat _), (Z.to_nat _), (Z.to_nat _);
      simpl; ring_simplify; apply Qle_refl. }
  assert (HNx : (1 <= Nx)%Z) by (unfold Nx in *; lia).
  assert (HN0 : 0 <= inject_Z (Nx - 1))
    by (change 0 with (inject_Z 0); rewrite <- Zle_Qle; lia).
  assert (Hb : forall q, (0 <= q <= 100)%Z ->
             0 <= inject_Z q / 100 * inject_Z (Nx - 1) <= inject_Z (Nx - 1)).
  { intros q Hq0.
    assert (0 <= inject_Z q) by (change 0 with (inject_Z 0); rewrite <- Zle_Qle; lia).
    assert (inject_Z q <= 100) by (change 100 with (inject_Z 100); rewrite <- Zle_Qle; lia).
    assert (0 <= inject_Z q / 100) by (apply Qle_shift_div_l; [reflexivity|]; lra).
    assert (inject_Z q / 100 <= 1) by (apply Qle_shift_div_r; [reflexivity|]; lra).
    nra. }
  assert (Hfl : forall x, 0 <= x <= inject_Z (Nx - 1) -> (0 <= Qfloor x <= Nx - 1)%Z).
  { intros x Hx. split.
    - change 0%Z with (Qfloor 0). apply Qfloor_resp_le. tauto.
    - rewrite <- (Qfloor_Z (Nx - 1)). apply Qfloor_resp_le. tauto. }
  set (x1 := inject_Z q1 / 100 * inject_Z (Nx - 1)).
  set (x2 := inject_Z q2 / 100 * inject_Z (Nx - 1)).
  assert (Hx1 := Hb q1 ltac:(lia)). assert (Hx2 := Hb q2 ltac:(lia)).
  fold x1 in Hx1. fold x2 in Hx2.
  assert (Hx12 : x1 <= x2).
  { unfold x1, x2.
    assert (inject_Z q1 <= inject_Z q2) by (rewrite <- Zle_Qle; lia).
    assert (inject_Z q1 / 100 <= inject_Z q2 / 100).
    { unfold Qdiv. apply Qmult_le_compat_r; [assumption|]. discriminate. }
    nra. }
  assert (Hf1 := Hfl x1 Hx1). assert (Hf2 := Hfl x2 Hx2).
  assert (Hf12 : (Qfloor x1 <= Qfloor x2)%Z) by now apply Qfloor_resp_le.
  pose proof (Qfloor_le x1) as Hl1. pose proof (Qlt_floor x1) as Hu1.
  pose proof (Qfloor_le x2) as Hl2. pose proof (Qlt_floor x2) as Hu2.
  rewrite inject_Z_plus in Hu1, Hu2. change (inject_Z 1) with 1 in Hu1, Hu2.
  set (b1 := Qfloor x1) in *. set (b2 := Qfloor x2) in *.
  set (a1 := Z.min (b1 + 1) (Nx - 1)). set (a2 := Z.min (b2 + 1) (Nx - 1)).
  assert (Hba1 : nth (Z.to_nat b1) ap 0 <= nth (Z.to_nat a1) ap 0)
    by (apply Hsorted; unfold a1, Nx in *; lia).
  assert (Hba2 : nth (Z.to_nat b2) ap 0 <= nth (Z.to_nat a2) ap 0)
    by (apply Hsorted; unfold a2, Nx in *; lia).
  destruct (Z.eq_dec b1 b2) as [E|E].
  - unfold a2 in *. rewrite <- E in *. fold a1 in Hba2 |- *.
    set (lo := nth (Z.to_nat b1) ap 0) in *. set (hi := nth (Z.to_nat a1) ap 0) in *.
    clearbody lo hi. nra.
  - assert (Ha1b2 : nth (Z.to_nat a1) ap 0 <= nth (Z.to_nat b2) ap 0)
      by (apply Hsorted; unfold a1, Nx in *; lia).
    set (lo1 := nth (Z.to_nat b1) ap 0) in *. set (hi1 := nth (Z.to_nat a1) ap 0) in *.
    set (lo2 := nth (Z.to_nat b2) ap 0) in *. set (hi2 := nth (Z.to_nat a2) ap 0) in *.
    clearbody lo1 hi1 lo2 hi2.
    assert (lo1 * (1 - (x1 - inject_Z b1)) + hi1 * (x1 - inject_Z b1) <= hi1) by nra.
    assert (lo2 <= lo2 * (1 - (x2 - inject_Z b2)) + hi2 * (x2 - inject_Z b2)) by nra.
    lra.
Qed.

(** X9.  With a multiplier that is not negative the thresholds lie outside the
    quartiles, and no sample between the quartiles is marked. *)
Theorem quartile_range_never_marked (iqr_thresh : Q) (row : list Q) :
  0 <= iqr_thresh ->
  neg_thresh iqr_thresh row <= percentile row 25 /\
  percentile row 25 <= percentile row 75 /\
  percentile row 75 <= pos_thresh iqr_thresh row /\
  forall (t : nat) (x : Q),
    nth_error row t = Some x ->
    percentile row 25 <= x <= percentile row 75 ->
    nth_error (classify_row iqr_thresh row) t = Some false.
Proof.
  intros Hk.
  assert (Hm : percentile row 25 <= percentile row 75) by (apply percentile_mono; lia).
  assert (Hn : neg_thresh iqr_thresh row <= percentile row 25)
    by (unfold neg_thresh; cbv zeta; nra).
  assert (Hp : percentile row 75 <= pos_thresh iqr_thresh row)
    by (unfold pos_thresh; cbv zeta; nra).
  repeat split; try assumption.
  intros t x Hx [H1 H2]. unfold classify_row.
  rewrite (map_nth_error _ _ _ Hx). f_equal.
  rewrite !Qltb_ge; [reflexivity| |]; lra.
Qed.

(** *** The control signal, sample by sample *)

(** The shift of [np.convolve(_, v, 'same')] for a kernel of [n] points no
    longer than the row. *)
Definition centre (n : Z) : Z := Z.of_nat ((Z.to_nat n - 1) / 2).

(** Lines 238-243: the dilated, binarized mask of one component. *)
Definition dilated (dilator_width : Z) (mask : list bool) : list Q :=
  map (fun k => as_float (Qltb 0 (conv_at (map as_float mask)
                                          (repeat 1 (Z.to_nat dilator_width))
                                          (Z.of_nat k + centre dilator_width))))
      (seq 0 (length mask)).

(** Line 259: the row with [p] copies of its first and of its last sample
    on either side. *)
Definition padded (p : Z) (row : list Q) : list Q :=
  repeat (hd 0 row) (Z.to_nat p) ++ row ++ repeat (last row 0) (Z.to_nat p).

(** Lines 263-264: the padded row convolved with the window [w]. *)
Definition smoothed (w row : list Q) : list Q :=
  map (fun k => conv_at row w (Z.of_nat k + Z.of_nat ((length w - 1) / 2)))
      (seq 0 (length row)).

Lemma dilate_row_closed (dilator_width : Z) (mask : list bool) :
  (1 <= dilator_width)%Z -> (Z.to_nat dilator_width <= length mask)%nat ->
  dilate_row (repeat 1 (Z.to_nat dilator_width)) mask = Ok (dilated dilator_width mask).
Proof.
  intros Hw Hl. unfold dilate_row, dilated, centre.
  assert (Hv : repeat 1 (Z.to_nat dilator_width) <> []).
  { destruct (Z.to_nat dilator_width) eqn:E; [lia|discriminate]. }
  assert (Ha : map as_float mask <> []).
  { destruct mask; [simpl in Hl; lia|discriminate]. }
  rewrite convolve_same_ok by assumption. cbn [bind].
  rewrite repeat_length, length_map, Nat.max_l, Nat.min_r by lia.
  rewrite assign_row_same by now rewrite length_map, length_seq.
  cbn [bind]. now rewrite map_map.
Qed.

Lemma pad_edge_closed (p : Z) (row : list Q) :
  (0 <= p)%Z -> row <> [] -> pad_edge p row = Ok (padded p row).
Proof.
  intros Hp Hne. unfold pad_edge, padded. destruct (Z.ltb_spec p 0); [lia|].
  destruct row; [congruence|reflexivity].
Qed.

Lemma smooth_row_closed (w row : list Q) :
  w <> [] -> (length w <= length row)%nat ->
  smooth_row (Some w) row = Ok (smoothed w row).
Proof.
  intros Hw Hl. unfold smooth_row, smoothed.
  assert (Ha : row <> []) by (destruct row, w; simpl in *; try congruence; lia).
  rewrite convolve_same_ok by assumption. cbn [bind].
  rewrite Nat.max_l, Nat.min_r by lia.
  apply assign_row_same. now rewrite length_map, length_seq.
Qed.

Lemma dilated_length (dilator_width : Z) (mask : list bool) :
  length (dilated dilator_width mask) = length mask.
Proof. unfold dilated. now rewrite length_map, length_seq. Qed.

Lemma padded_length (p : Z) (row : list Q) :
  length (padded p row) = (length row + 2 * Z.to_nat p)%nat.
Proof. unfold padded. rewrite !length_app, !repeat_length. lia. Qed.

Lemma smoothed_length (w row : list Q) : length (smoothed w row) = length row.
Proof. unfold smoothed. now rewrite length_map, length_seq. Qed.

(** Sample [t] of a row cut out of its padding. *)
Lemma nth_slice_trim (l : list Q) (n t : nat) (p : Z) :
  (1 <= p)%Z -> length l = (n + 2 * Z.to_nat p)%nat -> (t < n)%nat ->
  nth t (slice l p (- p)) 0 = nth (Z.to_nat p + t) l 0.
Proof.
  intros Hp Hl Ht. unfold slice.
  destruct (Z.ltb_spec p 0); [lia|]. destruct (Z.ltb_spec (- p) 0); [|lia].
  rewrite nth_firstn.
  match goal with |- context [(t <? ?k)%nat] => destruct (Nat.ltb_spec t k) end; [|lia].
  rewrite nth_skipn. f_equal. lia.
Qed.


(** Lines 235-271 for one component, with the normalized window [w]. *)
Definition control_row_of (w : list Q) (dilator_width transition_width : Z)
    (mask : list bool) : list Q :=
  let pad_size := int (inject_Z transition_width / 2 + 1) in
  slice (smoothed w (padded pad_size (dilated dilator_width mask)))
        pad_size (- pad_size).

Lemma normalized_window_value (hann : Z -> list Q) (transition_width : Z) :
  (1 <= transition_width)%Z ->
  length (hann transition_width) = Z.to_nat transition_width ->
  ~ sum (hann transition_width) == 0 ->
  normalized_window hann transition_width
  = Some (map (fun x => x / sum (hann transition_width)) (hann transition_width)).
Proof.
  intros Ht Hl Hs. unfold normalized_window.
  destruct (hann transition_width) as [|h0 w0] eqn:E; [simpl in Hl; lia|].
  destruct (Qeq_bool (sum (h0 :: w0)) 0) eqn:Hz; [|reflexivity].
  apply Qeq_bool_iff in Hz. contradiction.
Qed.

(** *** Convolution over a window *)

Lemma conv_at_zero_window (a v : list Q) :
  forall t, (forall j, (j < length v)%nat -> zget a (t - Z.of_nat j) == 0) ->
            conv_at a v t == 0.
Proof.
  induction v as [|x v IH]; intros t H; simpl; [reflexivity|].
  rewrite IH.
  - specialize (H 0%nat ltac:(simpl; lia)). rewrite Z.sub_0_r in H. rewrite H. ring.
  - intros j Hj. specialize (H (S j) ltac:(simpl; lia)).
    replace (t - 1 - Z.of_nat j)%Z with (t - Z.of_nat (S j))%Z by lia. exact H.
Qed.

Lemma conv_at_full_window (a v : list Q) :
  forall t, (forall j, (j < length v)%nat ->
                       nth j v 0 == 0 \/ zget a (t - Z.of_nat j) == 1) ->
            conv_at a v t == sum v.
Proof.
  induction v as [|x v IH]; intros t H; simpl; [reflexivity|].
  rewrite IH.
  - destruct (H 0%nat ltac:(simpl; lia)) as [H0|H0]; simpl in H0.
    + rewrite H0. ring.
    + rewrite Z.sub_0_r in H0. rewrite H0. ring.
  - intros j Hj. specialize (H (S j) ltac:(simpl; lia)).
    replace (t - 1 - Z.of_nat j)%Z with (t - Z.of_nat (S j))%Z by lia. exact H.
Qed.

Lemma conv_at_nonneg (a v : list Q) :
  Forall (fun x => 0 <= x) a -> Forall (fun x => 0 <= x) v ->
  forall t, 0 <= conv_at a v t.
Proof.
  intros Ha Hv. induction Hv as [|x v Hx Hv IH]; intros t; simpl; [lra|].
  specialize (IH (t - 1)%Z).
  assert (0 <= zget a t) by (apply zget_all; [lra|exact Ha]). nra.
Qed.

Lemma conv_at_ones_pos (a : list Q) (n : nat) :
  Forall (fun x => 0 <= x) a ->
  forall t j, (j < n)%nat -> 0 < zget a (t - Z.of_nat j) ->
              0 < conv_at a (repeat 1 n) t.
Proof.
  intros Ha. induction n as [|n IH]; intros t j Hj Hp; [lia|].
  cbn [repeat conv_at].
  assert (H0 : 0 <= zget a t) by (apply zget_all; [lra|exact Ha]).
  assert (H1 : 0 <= conv_at a (repeat 1 n) (t - 1)).
  { apply conv_at_nonneg; [exact Ha|].
    apply Forall_forall. intros x Hx. apply repeat_spec in Hx. subst x. lra. }
  destruct j as [|j].
  - rewrite Z.sub_0_r in Hp. lra.
  - specialize (IH (t - 1)%Z j ltac:(lia)).
    replace (t - 1 - Z.of_nat j)%Z with (t - Z.of_nat (S j))%Z in IH by lia.
    specialize (IH Hp). lra.
Qed.


(** *** The dilated mask and its padding, sample by sample *)

Lemma zget_mask (mask : list bool) (z : Z) :
  zget (map as_float mask) z
  = if (z <? 0)%Z then 0 else as_float (nth (Z.to_nat z) mask false).
Proof.
  unfold zget. destruct (z <? 0)%Z; [reflexivity|].
  change 0 with (as_float false). apply map_nth.
Qed.

Lemma mask_nonneg (mask : list bool) : Forall (fun x => 0 <= x) (map as_float mask).
Proof.
  apply Forall_forall. intros x Hx. apply in_map_iff in Hx.
  destruct Hx as [b [<- _]]. destruct b; simpl; lra.
Qed.

Lemma dilated_sample (dilator_width : Z) (mask : list bool) (b : nat) :
  (b < length mask)%nat ->
  nth b (dilated dilator_width mask) 0
  = as_float (Qltb 0 (conv_at (map as_float mask) (repeat 1 (Z.to_nat dilator_width))
                              (Z.of_nat b + centre dilator_width))).
Proof.
  intros Hb. unfold dilated.
  set (f := fun k => as_float (Qltb 0 (conv_at (map as_float mask)
                                (repeat 1 (Z.to_nat dilator_width))
                                (Z.of_nat k + centre dilator_width)))).
  rewrite (nth_indep _ 0 (f 0%nat)) by now rewrite length_map, length_seq.
  rewrite (map_nth f). now rewrite seq_nth.
Qed.

(** A marked sample marks the dilated mask on the whole width of the
    dilator around it. *)
Lemma dilated_covers (dilator_width : Z) (mask : list bool) (b s : nat) :
  (1 <= dilator_width)%Z -> (b < length mask)%nat ->
  nth s mask false = true ->
  (Z.of_nat b + centre dilator_width - (dilator_width - 1) <= Z.of_nat s
   <= Z.of_nat b + centre dilator_width)%Z ->
  nth b (dilated dilator_width mask) 0 = 1.
Proof.
  intros Hw Hb Hs Hr. rewrite dilated_sample by assumption.
  replace (Qltb 0 _) with true; [reflexivity|]. symmetry. apply Qltb_lt.
  apply (conv_at_ones_pos _ _ (mask_nonneg mask) _
           (Z.to_nat (Z.of_nat b + centre dilator_width - Z.of_nat s))); [lia|].
  rewrite zget_mask.
  replace (Z.of_nat b + centre dilator_width
           - Z.of_nat (Z.to_nat (Z.of_nat b + centre dilator_width - Z.of_nat s)))%Z
    with (Z.of_nat s) by lia.
  destruct (Z.ltb_spec (Z.of_nat s) 0); [lia|].
  rewrite Nat2Z.id, Hs. reflexivity.
Qed.

(** Where no sample is marked within the width of the dilator, the dilated
    mask is zero. *)
Lemma dilated_clear (dilator_width : Z) (mask : list bool) (b : nat) :
  (b < length mask)%nat ->
  (forall s : nat,
     (Z.of_nat b + centre dilator_width - (dilator_width - 1) <= Z.of_nat s
      <= Z.of_nat b + centre dilator_width)%Z -> nth s mask false = false) ->
  nth b (dilated dilator_width mask) 0 = 0.
Proof.
  intros Hb Hc. rewrite dilated_sample by assumption.
  replace (Qltb 0 _) with false; [reflexivity|]. symmetry. apply Qltb_ge.
  rewrite conv_at_zero_window; [apply Qle_refl|].
  intros j Hj. rewrite repeat_length in Hj. rewrite zget_mask.
  destruct (Z.ltb_spec (Z.of_nat b + centre dilator_width - Z.of_nat j) 0); [reflexivity|].
  rewrite (Hc (Z.to_nat (Z.of_nat b + centre dilator_width - Z.of_nat j))) by lia.
  reflexivity.
Qed.

Lemma last_as_nth (l : list Q) : last l 0 = nth (length l - 1) l 0.
Proof.
  induction l as [|x l IH]; [reflexivity|].
  destruct l as [|y l]; [reflexivity|].
  change (last (x :: y :: l) 0) with (last (y :: l) 0). rewrite IH.
  simpl length. replace (S (S (length l)) - 1)%nat with (S (length l)) by lia.
  replace (S (length l) - 1)%nat with (length l) by lia. reflexivity.
Qed.

(** A sample of the padded row is the sample of the row at the nearest
    position inside it. *)
Lemma zget_padded (p : Z) (row : list Q) (u : Z) :
  row <> [] -> (0 <= p)%Z -> (0 <= u < Z.of_nat (length row) + 2 * p)%Z ->
  zget (padded p row) u
  = nth (Z.to_nat (Z.max 0 (Z.min (Z.of_nat (length row) - 1) (u - p)))) row 0.
Proof.
  intros Hne Hp Hu. unfold zget, padded. destruct (Z.ltb_spec u 0); [lia|].
  assert (Hn : (0 < length row)%nat) by (destruct row; [congruence|simpl; lia]).
  destruct (Z.lt_ge_cases u p) as [H1|H1].
  - rewrite app_nth1 by (rewrite repeat_length; lia).
    rewrite nth_repeat_lt by lia.
    replace (Z.to_nat (Z.max 0 (Z.min (Z.of_nat (length row) - 1) (u - p)))) with 0%nat by lia.
    destruct row; [congruence|reflexivity].
  - rewrite app_nth2 by (rewrite repeat_length; lia). rewrite repeat_length.
    destruct (Z.lt_ge_cases (u - p) (Z.of_nat (length row))) as [H2|H2].
    + rewrite app_nth1 by lia. f_equal. lia.
    + rewrite app_nth2 by lia. rewrite nth_repeat_lt by lia.
      rewrite last_as_nth. f_equal. lia.
Qed.


Lemma centre_value (n : Z) : (1 <= n)%Z -> centre n = ((n - 1) / 2)%Z.
Proof.
  intros H. unfold centre. rewrite Nat2Z.inj_div, Nat2Z.inj_sub by lia.
  rewrite Z2Nat.id by lia. reflexivity.
Qed.

Section Closed.
Variable hann : Z -> list Q.
Variables dilator_width transition_width : Z.
Hypothesis dilator_pos : (1 <= dilator_width)%Z.
Hypothesis width_pos : (1 <= transition_width)%Z.
Hypothesis hann_length : length (hann transition_width) = Z.to_nat transition_width.
Hypothesis hann_sum : ~ sum (hann transition_width) == 0.

Let w := map (fun x => x / sum (hann transition_width)) (hann transition_width).
Let pad_size := int (inject_Z transition_width / 2 + 1).

Lemma pad_size_facts :
  pad_size = (transition_width / 2 + 1)%Z /\ (1 <= pad_size)%Z /\
  (transition_width <= 2 * pad_size - 1)%Z.
Proof.
  assert (Hp : pad_size = (transition_width / 2 + 1)%Z) by (apply pad_size_value; lia).
  split; [exact Hp|]. rewrite Hp.
  pose proof (Z.div_pos transition_width 2).
  pose proof (Z.mod_pos_bound transition_width 2).
  pose proof (Z.div_mod transition_width 2). lia.
Qed.

Lemma window_length : length w = Z.to_nat transition_width.
Proof. unfold w. now rewrite length_map. Qed.

Lemma window_sum : sum w == 1.
Proof. unfold w. rewrite sum_scaled. field. exact hann_sum. Qed.

Lemma build_control_closed (mask : list (list bool)) :
  Forall (fun m => (Z.to_nat dilator_width <= length m)%nat) mask ->
  build_control hann mask dilator_width transition_width
  = Ok (map (control_row_of w dilator_width transition_width) mask).
Proof.
  intros Hm.
  assert (Hc : mapM (fun m => d <- dilate_row (repeat 1 (Z.to_nat dilator_width)) m ;;
                              r <- pad_edge pad_size d ;;
                              r <- smooth_row (normalized_window hann transition_width) r ;;
                              Ok (slice r pad_size (- pad_size))) mask
               = Ok (map (control_row_of w dilator_width transition_width) mask)).
  { apply SegmenterFacts.mapM_map. intros m Hin.
    rewrite Forall_forall in Hm. specialize (Hm m Hin).
    destruct pad_size_facts as [_ [Hp1 Hp2]].
    rewrite dilate_row_closed by assumption. cbn [bind].
    rewrite pad_edge_closed.
    - cbn [bind]. rewrite normalized_window_value by assumption. fold w.
      rewrite smooth_row_closed; [reflexivity| |].
      + intros E. pose proof window_length as Hl. rewrite E in Hl. simpl in Hl. lia.
      + rewrite window_length, padded_length. lia.
    - lia.
    - intros E. pose proof (dilated_length dilator_width m) as Hl.
      rewrite E in Hl. simpl in Hl. lia. }
  unfold build_control, ones. destruct (Z.ltb_spec dilator_width 0); [lia|].
  cbn [bind]. fold pad_size.
  eapply mapM_compose_with; [|exact Hc].
  intros ys1 zs1 H1. eapply mapM_compose_with; [|exact H1].
  intros ys2 zs2 H2. now apply mapM_then_map.
Qed.

(** Sample [t] of the control signal of one component. *)
Lemma control_row_sample (mask : list bool) (t : nat) :
  (Z.to_nat dilator_width <= length mask)%nat -> (t < length mask)%nat ->
  length (control_row_of w dilator_width transition_width mask) = length mask /\
  nth t (control_row_of w dilator_width transition_width mask) 0
  = conv_at (padded pad_size (dilated dilator_width mask)) w
            (Z.of_nat t + pad_size + centre transition_width).
Proof.
  intros Hl Ht. destruct pad_size_facts as [_ [Hp1 Hp2]].
  unfold control_row_of. fold pad_size.
  assert (Hlen : length (smoothed w (padded pad_size (dilated dilator_width mask)))
                 = (length mask + 2 * Z.to_nat pad_size)%nat)
    by now rewrite smoothed_length, padded_length, dilated_length.
  split; [now apply slice_trim_length|].
  rewrite (nth_slice_trim _ (length mask)) by assumption.
  unfold smoothed.
  rewrite (nth_indep _ 0 ((fun k => conv_at (padded pad_size (dilated dilator_width mask)) w
                                      (Z.of_nat k + Z.of_nat ((length w - 1) / 2))) 0%nat))
    by (rewrite length_map, length_seq, padded_length, dilated_length; lia).
  rewrite (map_nth (fun k => conv_at _ w (Z.of_nat k + Z.of_nat ((length w - 1) / 2)))).
  rewrite seq_nth by (rewrite padded_length, dilated_length; lia).
  f_equal. unfold centre. rewrite window_length. lia.
Qed.

Lemma window_last :
  last (hann transition_width) 0 == 0 ->
  nth (Z.to_nat transition_width - 1) w 0 == 0.
Proof.
  intros Hl. unfold w.
  rewrite (nth_indep _ 0 ((fun x => x / sum (hann transition_width)) 0))
    by (rewrite length_map, hann_length; lia).
  rewrite (map_nth (fun x => x / sum (hann transition_width))).
  rewrite last_as_nth, hann_length in Hl. rewrite Hl.
  unfold Qdiv. ring.
Qed.

(** The padded, dilated mask read by the smoothing of sample [t] at the
    window position [j]. *)
Lemma smoothing_reads (mask : list bool) (t j : nat) :
  (t < length mask)%nat -> (j < Z.to_nat transition_width)%nat ->
  zget (padded pad_size (dilated dilator_width mask))
       (Z.of_nat t + pad_size + centre transition_width - Z.of_nat j)
  = nth (Z.to_nat (Z.max 0 (Z.min (Z.of_nat (length mask) - 1)
                      (Z.of_nat t + centre transition_width - Z.of_nat j))))
        (dilated dilator_width mask) 0.
Proof.
  intros Ht Hj. destruct pad_size_facts as [Hp [Hp1 Hp2]].
  rewrite zget_padded.
  - rewrite dilated_length. do 3 f_equal. clearbody pad_size. lia.
  - intros E. pose proof (dilated_length dilator_width mask) as Hl.
    rewrite E in Hl. simpl in Hl. lia.
  - lia.
  - rewrite dilated_length, centre_value by lia. clearbody pad_size.
    Z.div_mod_to_equations. lia.
Qed.

Lemma control_row_length (mask : list bool) :
  (Z.to_nat dilator_width <= length mask)%nat ->
  length (control_row_of w dilator_width transition_width mask) = length mask.
Proof.
  intros Hl. destruct pad_size_facts as [_ [Hp1 _]].
  unfold control_row_of. fold pad_size. apply slice_trim_length; [exact Hp1|].
  now rewrite smoothed_length, padded_length, dilated_length.
Qed.

(** At a marked sample the control signal is one, when the dilator is at
    least as wide as the transition window. *)
Lemma control_one (mask : list bool) (t : nat) :
  (transition_width <= dilator_width)%Z ->
  (Z.even transition_width = true -> last (hann transition_width) 0 == 0) ->
  (Z.to_nat dilator_width <= length mask)%nat ->
  nth_error mask t = Some true ->
  nth t (control_row_of w dilator_width transition_width mask) 0 == 1.
Proof.
  intros Hle Hev Hl Hm.
  assert (Ht : (t < length mask)%nat) by (apply nth_error_Some; congruence).
  assert (Hf : nth t mask false = true) by now apply nth_error_nth.
  destruct (control_row_sample mask t Hl Ht) as [_ ->].
  rewrite <- window_sum. apply conv_at_full_window.
  intros j Hj. rewrite window_length in Hj.
  destruct (Z.even transition_width) eqn:E.
  - apply Z.even_spec in E. destruct E as [k Hk].
    destruct (Nat.eq_dec j (Z.to_nat transition_width - 1)) as [->|Hne].
    + left. apply window_last. now apply Hev.
    + right. rewrite smoothing_reads by assumption.
      rewrite (dilated_covers dilator_width mask _ t); [reflexivity|lia| |exact Hf|].
      * lia.
      * rewrite !centre_value by lia. Z.div_mod_to_equations. lia.
  - right. rewrite smoothing_reads by assumption.
    assert (Ho : Z.odd transition_width = true) by (rewrite <- Z.negb_even, E; reflexivity).
    apply Z.odd_spec in Ho. destruct Ho as [k Hk].
    rewrite (dilated_covers dilator_width mask _ t); [reflexivity|lia| |exact Hf|].
    + lia.
    + rewrite !centre_value by lia. Z.div_mod_to_equations. lia.
Qed.

(** Where no sample is marked within reach of the two windows, the control
    signal is zero. *)
Lemma control_zero (mask : list bool) (t : nat) :
  (Z.to_nat dilator_width <= length mask)%nat -> (t < length mask)%nat ->
  (forall s : nat,
     (Z.of_nat t - (transition_width / 2 + dilator_width / 2) <= Z.of_nat s
      <= Z.of_nat t + ((transition_width - 1) / 2 + (dilator_width - 1) / 2))%Z ->
     nth s mask false = false) ->
  nth t (control_row_of w dilator_width transition_width mask) 0 == 0.
Proof.
  intros Hl Ht Hc.
  destruct (control_row_sample mask t Hl Ht) as [_ ->].
  apply conv_at_zero_window. intros j Hj. rewrite window_length in Hj.
  rewrite smoothing_reads by assumption.
  rewrite dilated_clear; [reflexivity|lia|].
  intros s Hs. apply Hc. rewrite !centre_value in Hs by lia.
  Z.div_mod_to_equations. lia.
Qed.

End Closed.

(** *** The cleaned sources, sample by sample *)

(** Line 274 on one component: [s * (1 - c)]. *)
Definition scaled (s c : list Q) : list Q :=
  map (fun xk => fst xk * (1 - snd xk)) (combine s c).

Lemma broadcast_row_closed (s c : list Q) :
  length s = length c ->
  broadcast (fun x k => Ok (x * k)) s (map (fun k => 1 - k) c) = Ok (scaled s c).
Proof.
  intros Hl. unfold broadcast, scaled. rewrite length_map, Hl, Nat.eqb_refl.
  revert c Hl. induction s as [|x s IH]; intros [|k c] Hl; simpl in Hl; try lia.
  - reflexivity.
  - simpl. rewrite IH by lia. reflexivity.
Qed.

Lemma mix_closed (S ctrl : matrix) :
  Forall2 (fun s c => length s = length c) S ctrl ->
  mix S ctrl = Ok (map (fun sc => scaled (fst sc) (snd sc)) (combine S ctrl)).
Proof.
  intros HF. unfold mix, multiply, broadcast at 1.
  rewrite length_map, (Forall2_length HF), Nat.eqb_refl.
  induction HF as [|s c S ctrl Hl HF IH]; [reflexivity|].
  simpl. rewrite broadcast_row_closed by assumption. cbn [bind].
  rewrite IH. reflexivity.
Qed.

Lemma scaled_sample (s c : list Q) (t : nat) :
  length s = length c -> (t < length s)%nat ->
  nth t (scaled s c) 0 = nth t s 0 * (1 - nth t c 0).
Proof.
  intros Hl Ht. unfold scaled.
  rewrite (nth_indep _ 0 ((fun xk => fst xk * (1 - snd xk)) (0, 0)))
    by (rewrite length_map, length_combine; lia).
  rewrite (map_nth (fun xk => fst xk * (1 - snd xk))).
  rewrite combine_nth by assumption. reflexivity.
Qed.

Lemma mixed_sample (g : list Q -> list Q) (S feat : matrix) :
  Forall2 (fun s f => length s = length (g f)) S feat ->
  forall i s f t,
    nth_error S i = Some s -> nth_error feat i = Some f -> (t < length s)%nat ->
    nth t (nth i (map (fun sc => scaled (fst sc) (snd sc)) (combine S (map g feat))) []) 0
    = nth t s 0 * (1 - nth t (g f) 0).
Proof.
  induction 1 as [|s0 f0 S feat Hl HF IH]; intros i s f t Hs Hf Ht.
  - destruct i; discriminate.
  - destruct i as [|i]; simpl in Hs, Hf.
    + injection Hs as <-. injection Hf as <-. simpl.
      now apply scaled_sample.
    + simpl. now apply IH.
Qed.

Lemma mixed_shape (g : list Q -> list Q) (S feat : matrix) :
  Forall2 (fun s f => length s = length (g f)) S feat ->
  Forall2 (fun r' r => length r' = length r)
          (map (fun sc => scaled (fst sc) (snd sc)) (combine S (map g feat))) S.
Proof.
  induction 1 as [|s f S feat Hl HF IH]; simpl; constructor; [|exact IH].
  unfold scaled. rewrite length_map, length_combine. lia.
Qed.

Lemma sample_in_row (A B : matrix) (i t : nat) (s : list Q) :
  Forall2 (fun r' r => length r' = length r) A B ->
  nth_error B i = Some s -> (t < length s)%nat ->
  nth_error (nth i A []) t = Some (nth t (nth i A []) 0).
Proof.
  intros HF. revert i. induction HF as [|a b A B Hl HF IH]; intros i Hs Ht.
  - destruct i; discriminate.
  - destruct i as [|i]; simpl in Hs |- *.
    + injection Hs as <-. apply nth_error_nth'. lia.
    + now apply IH.
Qed.

(** [lcf] on arrays of matching shapes, with windows of at least one
    sample: sample [t] of component [i] is multiplied by one minus the
    control signal of the component's mask at [t]. *)
Lemma lcf_sample (hann : Z -> list Q) (S feat : matrix)
    (sfreq iqr_thresh dilator_width transition_width : Q) :
  let dilator_samples := int (dilator_width * sfreq) in
  let transition_samples := int (transition_width * sfreq) in
  let w := map (fun x => x / sum (hann transition_samples)) (hann transition_samples) in
  (1 <= dilator_samples)%Z ->
  (1 <= transition_samples)%Z ->
  length (hann transition_samples) = Z.to_nat transition_samples ->
  ~ sum (hann transition_samples) == 0 ->
  Forall2 (fun s f => length s = length f /\ (Z.to_nat dilator_samples <= length f)%nat)
          S feat ->
  exists S_clean,
    lcf hann S feat sfreq iqr_thresh dilator_width transition_width = Ok S_clean /\
    Forall2 (fun r' r => length r' = length r) S_clean S /\
    forall i s f t,
      nth_error S i = Some s -> nth_error feat i = Some f -> (t < length s)%nat ->
      nth t (nth i S_clean []) 0
      = nth t s 0 * (1 - nth t (control_row_of w dilator_samples transition_samples
                                               (classify_row iqr_thresh f)) 0).
Proof.
  intros dws tws w Hd Ht Hlen Hsum Hshape.
  assert (Hrows : Forall2 (fun s f => length s
                    = length (control_row_of w dws tws (classify_row iqr_thresh f))) S feat).
  { eapply Forall2_impl; [|exact Hshape]. intros s f [Hl Hn]. cbv beta.
    unfold w. rewrite control_row_length; try assumption.
    - unfold classify_row. now rewrite length_map.
    - unfold classify_row. now rewrite length_map. }
  eexists. split; [|split].
  - unfold lcf. fold dws tws.
    rewrite (build_control_closed hann dws tws Hd Ht Hlen Hsum)
      by (eapply classify_lengths; eauto).
    cbn [bind]. fold w. unfold classify. rewrite map_map.
    apply mix_closed.
    clear -Hrows. induction Hrows; simpl; constructor; assumption.
  - apply (mixed_shape (fun f => control_row_of w dws tws (classify_row iqr_thresh f))).
    exact Hrows.
  - intros i s f t Hs Hf Hlt.
    apply (mixed_sample (fun f => control_row_of w dws tws (classify_row iqr_thresh f)));
      assumption.
Qed.

(** X10.  If the dilator is at least as wide as the transition window (as in
    [run_lcf], which passes one width for both), every sample that the
    classifier marks is removed: the cleaned source is zero there.  For a
    window of an even number of points the last point of the Hann window is
    asked to be zero, as it is for the symmetric window. *)
Theorem marked_samples_removed (hann : Z -> list Q) (S feat : matrix)
    (sfreq iqr_thresh dilator_width transition_width : Q) (i t : nat) :
  let dilator_samples := int (dilator_width * sfreq) in
  let transition_samples := int (transition_width * sfreq) in
  (1 <= transition_samples <= dilator_samples)%Z ->
  length (hann transition_samples) = Z.to_nat transition_samples ->
  ~ sum (hann transition_samples) == 0 ->
  (Z.even transition_samples = true -> last (hann transition_samples) 0 == 0) ->
  Forall2 (fun s f => length s = length f /\ (Z.to_nat dilator_samples <= length f)%nat)
          S feat ->
  nth_error (nth i (classify iqr_thresh feat) []) t = Some true ->
  exists S_clean y,
    lcf hann S feat sfreq iqr_thresh dilator_width transition_width = Ok S_clean /\
    nth_error (nth i S_clean []) t = Some y /\ y == 0.
Proof.
  intros dws tws [Ht Hle] Hlen Hsum Hev Hshape Hm.
  assert (Hd : (1 <= dws)%Z) by lia.
  destruct (lcf_sample hann S feat sfreq iqr_thresh dilator_width transition_width
              Hd Ht Hlen Hsum Hshape) as [out [Hout [Hsh Hs]]].
  exists out, (nth t (nth i out []) 0). split; [exact Hout|].
  assert (Hi : (i < length feat)%nat).
  { destruct (Nat.lt_ge_cases i (length feat)) as [H|H]; [exact H|].
    rewrite nth_overflow in Hm by (unfold classify; now rewrite length_map).
    destruct t; discriminate. }
  destruct (nth_error feat i) as [f|] eqn:Hf; [|apply nth_error_None in Hf; lia].
  assert (HSi : (i < length S)%nat) by (rewrite (Forall2_length Hshape); exact Hi).
  destruct (nth_error S i) as [s|] eqn:HS; [|apply nth_error_None in HS; lia].
  assert (Hsf : length s = length f /\ (Z.to_nat dws <= length f)%nat).
  { clear -Hshape HS Hf. revert i HS Hf.
    induction Hshape as [|s0 f0 S feat H0 HF IH]; intros [|i] HS Hf; try discriminate.
    - simpl in HS, Hf. congruence.
    - simpl in HS, Hf. eauto. }
  destruct Hsf as [Hl Hn].
  assert (Hrow : nth i (classify iqr_thresh feat) [] = classify_row iqr_thresh f).
  { unfold classify. apply nth_error_nth. now rewrite nth_error_map, Hf. }
  rewrite Hrow in Hm.
  assert (Htl : (t < length s)%nat).
  { rewrite Hl. assert (H : nth_error (classify_row iqr_thresh f) t <> None) by congruence.
    apply nth_error_Some in H. unfold classify_row in H. now rewrite length_map in H. }
  split; [exact (sample_in_row out S i t s Hsh HS Htl)|].
  assert (Hc := control_one hann dws tws Hd Ht Hlen Hsum (classify_row iqr_thresh f) t
                 Hle Hev).
  unfold dws, tws in Hc.
  rewrite (Hs i s f t HS Hf Htl), Hc; [ring| |exact Hm].
  unfold classify_row. now rewrite length_map.
Qed.

(** X11.  A sample with no marked sample of its component within reach of the
    two windows is returned as it is: the cleaning is local. *)
Theorem distant_samples_untouched (hann : Z -> list Q) (S feat : matrix)
    (sfreq iqr_thresh dilator_width transition_width : Q) (i t : nat) (s f : list Q)
    (x : Q) :
  let dilator_samples := int (dilator_width * sfreq) in
  let transition_samples := int (transition_width * sfreq) in
  (1 <= dilator_samples)%Z ->
  (1 <= transition_samples)%Z ->
  length (hann transition_samples) = Z.to_nat transition_samples ->
  ~ sum (hann transition_samples) == 0 ->
  Forall2 (fun s f => length s = length f /\ (Z.to_nat dilator_samples <= length f)%nat)
          S feat ->
  nth_error S i = Some s -> nth_error feat i = Some f -> nth_error s t = Some x ->
  (forall u : nat,
     (Z.of_nat t - (transition_samples / 2 + dilator_samples / 2) <= Z.of_nat u
      <= Z.of_nat t + ((transition_samples - 1) / 2 + (dilator_samples - 1) / 2))%Z ->
     nth u (classify_row iqr_thresh f) false = false) ->
  exists S_clean y,
    lcf hann S feat sfreq iqr_thresh dilator_width transition_width = Ok S_clean /\
    nth_error (nth i S_clean []) t = Some y /\ y == x.
Proof.
  intros dws tws Hd Ht Hlen Hsum Hshape HS Hf Hx Hfar.
  assert (Htl : (t < length s)%nat) by (apply nth_error_Some; congruence).
  destruct (lcf_sample hann S feat sfreq iqr_thresh dilator_width transition_width
              Hd Ht Hlen Hsum Hshape) as [out [Hout [Hsh Hs]]].
  exists out, (nth t (nth i out []) 0). split; [exact Hout|].
  split; [exact (sample_in_row out S i t s Hsh HS Htl)|].
  rewrite <- (nth_error_nth s t 0 Hx).
  assert (Hsf : length s = length f /\ (Z.to_nat dws <= length f)%nat).
  { clear -Hshape HS Hf. revert i HS Hf.
    induction Hshape as [|s0 f0 S feat H0 HF IH]; intros [|i] HS Hf; try discriminate.
    - simpl in HS, Hf. congruence.
    - simpl in HS, Hf. eauto. }
  destruct Hsf as [Hl Hn].
  assert (Hc := control_zero hann dws tws Hd Ht Hlen (classify_row iqr_thresh f) t).
  unfold dws, tws in Hc.
  rewrite (Hs i s f t HS Hf Htl), Hc; [ring| |  |exact Hfar].
  - unfold classify_row. now rewrite length_map.
  - unfold classify_row. rewrite length_map. lia.
Qed.

(** *** Windows that do not fit *)

Lemma dilate_row_refused (dilator_width : Z) (mask : list bool) :
  (0 <= dilator_width)%Z -> mask <> [] ->
  (dilator_width < 1 \/ Z.of_nat (length mask) < dilator_width)%Z ->
  dilate_row (repeat 1 (Z.to_nat dilator_width)) mask = Raise ValueError.
Proof.
  intros H0 Hne Hw. unfold dilate_row.
  destruct (Z.to_nat dilator_width) as [|d] eqn:Ed.
  - destruct mask; [congruence|reflexivity].
  - rewrite <- Ed. rewrite convolve_same_ok.
    + cbn [bind]. unfold assign_row.
      rewrite length_map, length_seq, length_map, repeat_length.
      assert (0 < length mask)%nat by (destruct mask; [congruence|simpl; lia]).
      destruct (Nat.eqb_spec (Nat.max (length mask) (Z.to_nat dilator_width)) (length mask));
        [lia|].
      destruct (Nat.eqb_spec (Nat.max (length mask) (Z.to_nat dilator_width)) 1);
        [lia|reflexivity].
    + destruct mask; [congruence|discriminate].
    + rewrite Ed. discriminate.
Qed.

(** X12.  A dilator of less than one sample, or of more samples than a row
    holds, makes [lcf] raise [ValueError] at the first row (lines 236-239):
    [np.ones] refuses a negative length, [np.convolve] an empty kernel, and
    the convolution of a row with a longer kernel does not fit back into the
    row. *)
Theorem window_must_fit (hann : Z -> list Q) (S feat : matrix)
    (sfreq iqr_thresh dilator_width transition_width : Q) (n : nat) :
  let dilator_samples := int (dilator_width * sfreq) in
  feat <> [] -> (0 < n)%nat -> Forall (fun f => length f = n) feat ->
  (dilator_samples < 1 \/ Z.of_nat n < dilator_samples)%Z ->
  lcf hann S feat sfreq iqr_thresh dilator_width transition_width = Raise ValueError.
Proof.
  intros dws Hne Hn Hrows Hw. unfold lcf, build_control, ones. fold dws.
  destruct (Z.ltb_spec dws 0) as [Hneg|Hpos]; [reflexivity|].
  cbn [bind]. destruct feat as [|f feat]; [congruence|].
  apply Forall_inv in Hrows. cbn [classify map mapM].
  rewrite dilate_row_refused; [reflexivity|exact Hpos| |].
  - unfold classify_row. destruct f; [simpl in Hrows; lia|discriminate].
  - unfold classify_row. rewrite length_map, Hrows. exact Hw.
Qed.

(** X13.  A transition window whose points sum to zero cannot be
    normalized (line 253 divides by the sum): whatever the sources and the
    mask, no sample [lcf] returns is finite.  The symmetric Hann window of
    two points is such a window. *)
Theorem zero_sum_window_not_finite (hann : Z -> list Q) (S feat : matrix)
    (sfreq iqr_thresh dilator_width transition_width : Q) (n : nat) :
  let dilator_samples := int (dilator_width * sfreq) in
  let transition_samples := int (transition_width * sfreq) in
  feat <> [] -> Forall (fun f => length f = n) feat ->
  (1 <= dilator_samples <= Z.of_nat n)%Z ->
  (1 <= transition_samples)%Z ->
  length (hann transition_samples) = Z.to_nat transition_samples ->
  sum (hann transition_samples) == 0 ->
  lcf hann S feat sfreq iqr_thresh dilator_width transition_width = Raise NonFinite.
Proof.
  intros dws tws Hne Hrows Hd Ht Hlen Hz. unfold lcf, build_control, ones. fold dws tws.
  destruct (Z.ltb_spec dws 0) as [Hneg|Hpos]; [lia|]. cbn [bind].
  assert (Hdil : mapM (dilate_row (repeat 1 (Z.to_nat dws))) (classify iqr_thresh feat)
                 = Ok (map (dilated dws) (classify iqr_thresh feat))).
  { apply SegmenterFacts.mapM_map. intros m Hm. apply dilate_row_closed; [lia|].
    unfold classify in Hm. apply in_map_iff in Hm. destruct Hm as [f [<- Hf]].
    unfold classify_row. rewrite length_map.
    rewrite Forall_forall in Hrows. rewrite (Hrows f Hf). lia. }
  rewrite Hdil. cbn [bind].
  rewrite pad_size_value by lia.
  assert (Hpad : mapM (pad_edge (tws / 2 + 1)) (map (dilated dws) (classify iqr_thresh feat))
                 = Ok (map (padded (tws / 2 + 1))
                           (map (dilated dws) (classify iqr_thresh feat)))).
  { apply SegmenterFacts.mapM_map. intros r Hr. apply pad_edge_closed.
    - pose proof (Z.div_pos tws 2). lia.
    - apply in_map_iff in Hr. destruct Hr as [m [<- Hm]].
      unfold classify in Hm. apply in_map_iff in Hm. destruct Hm as [f [<- Hf]].
      intros E. pose proof (dilated_length dws (classify_row iqr_thresh f)) as Hl.
      rewrite E in Hl. unfold classify_row in Hl. rewrite length_map in Hl.
      rewrite Forall_forall in Hrows. rewrite (Hrows f Hf) in Hl. simpl in Hl. lia. }
  rewrite Hpad. cbn [bind].
  assert (Hnw : normalized_window hann tws = None).
  { unfold normalized_window. destruct (hann tws) as [|h0 w0] eqn:E; [simpl in Hlen; lia|].
    apply Qeq_bool_iff in Hz. now rewrite Hz. }
  rewrite Hnw. destruct feat as [|f feat]; [congruence|]. reflexivity.
Qed.

(** *** Concrete runs *)

Lemma quartile_range_never_marked_witness :
  neg_thresh 3 spike_row <= percentile spike_row 25 /\
  percentile spike_row 25 <= percentile spike_row 75 /\
  percentile spike_row 75 <= pos_thresh 3 spike_row /\
  forall (t : nat) (x : Q),
    nth_error spike_row t = Some x ->
    percentile spike_row 25 <= x <= percentile spike_row 75 ->
    nth_error (classify_row 3 spike_row) t = Some false.
Proof. apply (quartile_range_never_marked 3 spike_row). vm_compute. discriminate. Defined.

Lemma marked_samples_removed_witness :
  nth_error (nth 0 (classify 3 [spike_row]) []) 10 = Some true /\
  exists S_clean y,
    lcf hann_rational [spike_row] [spike_row] 40 3 (1 # 10) (1 # 10) = Ok S_clean /\
    nth_error (nth 0 S_clean []) 10 = Some y /\ y == 0.
Proof.
  assert (Hm : nth_error (nth 0 (classify 3 [spike_row]) []) 10 = Some true)
    by (vm_compute; reflexivity).
  split; [exact Hm|].
  refine (marked_samples_removed hann_rational [spike_row] [spike_row]
            40 3 (1 # 10) (1 # 10) 0 10 _ _ _ _ _ Hm).
  - split; vm_compute; discriminate.
  - reflexivity.
  - intros C. vm_compute in C. discriminate C.
  - intros _. vm_compute. reflexivity.
  - constructor; [|constructor]. split; [reflexivity|].
    change (Z.to_nat (int ((1 # 10) * 40))) with 4%nat. simpl. lia.
Defined.

Lemma distant_samples_untouched_witness :
  exists S_clean y,
    lcf hann_rational [spike_row] [spike_row] 50 3 (1 # 10) (1 # 10) = Ok S_clean /\
    nth_error (nth 0 S_clean []) 3 = Some y /\ y == 2.
Proof.
  refine (distant_samples_untouched hann_rational [spike_row] [spike_row]
            50 3 (1 # 10) (1 # 10) 0 3 spike_row spike_row 2 _ _ _ _ _ _ _ _ _).
  - vm_compute. discriminate.
  - vm_compute. discriminate.
  - reflexivity.
  - intros C. vm_compute in C. discriminate C.
  - constructor; [|constructor]. split; [reflexivity|].
    change (Z.to_nat (int ((1 # 10) * 50))) with 5%nat. simpl. lia.
  - reflexivity.
  - reflexivity.
  - reflexivity.
  - intros u Hu. change (int ((1 # 10) * 50)) with 5%Z in Hu.
    assert (Hu7 : (u <= 7)%nat) by (Z.div_mod_to_equations; lia).
    do 8 (destruct u as [|u]; [vm_compute; reflexivity|]). lia.
Defined.

Lemma window_must_fit_witness :
  lcf hann_rational [flat_row] [flat_row] 5 3 (1 # 10) (1 # 10) = Raise ValueError.
Proof.
  refine (window_must_fit hann_rational [flat_row] [flat_row] 5 3 (1 # 10) (1 # 10) 8
            _ _ _ _).
  - discriminate.
  - lia.
  - repeat constructor.
  - left. vm_compute. reflexivity.
Defined.

Lemma zero_sum_window_not_finite_witness :
  lcf hann_rational [some_sources] [flat_row] 20 3 (1 # 10) (1 # 10) = Raise NonFinite.
Proof.
  refine (zero_sum_window_not_finite hann_rational [some_sources] [flat_row]
            20 3 (1 # 10) (1 # 10) 8 _ _ _ _ _ _).
  - discriminate.
  - repeat constructor.
  - split; vm_compute; discriminate.
  - vm_compute. discriminate.
  - reflexivity.
  - vm_compute. reflexivity.
Defined.

End LcfMore.

(** * Cleaning and reconstruction together *)

Module CleaningFacts.
Import Np.
Import Lcf.
Import LcfFacts.
Import LcfMore.
Import Reconstructor.
Import ReconstructorFacts.
Local Open Scope Q_scope.

(** *** Lines 185-191: cleaning the sources, then reconstructing *)







(** *** A concrete run *)


End CleaningFacts.
